(** * Rope on a splay tree: a shallow embedding of rope_data_structure.c

    The C program stores one character per node of a splay tree that is
    ordered by position.  Nodes carry parent pointers and cached subtree
    sizes and are relinked in place, so the embedding keeps an explicit
    store of [Node] structs and of [SplayTree] handles, addressed by
    pointers, and every C function becomes a computation in a small
    state-and-failure monad over that store. *)

From Stdlib Require Import ZArith Lia Ascii String.
From stdpp Require Import gmap list.

Local Open Scope Z_scope.

(** ** Machine integers and pointers *)

(** [unsigned] is taken to be 32 bits wide; arithmetic on it wraps. *)
Definition UINT_RANGE : Z := 2 ^ 32.
Definition wrap (z : Z) : Z := z mod UINT_RANGE.

(** [#define S_MAX_LEN 300001] *)
Definition S_MAX_LEN : Z := 300001.

(** A pointer is [None] for NULL and [Some a] for the address [a]. *)
Abbreviation addr := positive.
Abbreviation ptr := (option positive).

Definition ptr_eqb (p q : ptr) : bool := bool_decide (p = q).

(** ** The two structs *)

Module Node.
Record t := mk {
  value : ascii;
  parent : ptr;
  left : ptr;
  right : ptr;
  size : Z
}.
Definition set_parent (v : ptr) (n : t) : t := mk (value n) v (left n) (right n) (size n).
Definition set_left (v : ptr) (n : t) : t := mk (value n) (parent n) v (right n) (size n).
Definition set_right (v : ptr) (n : t) : t := mk (value n) (parent n) (left n) v (size n).
Definition set_size (v : Z) (n : t) : t := mk (value n) (parent n) (left n) (right n) v.
End Node.

Module SplayTree.
Record t := mk {
  root : ptr;
  size : Z
}.
Definition set_root (v : ptr) (s : t) : t := mk v (size s).
Definition set_size (v : Z) (s : t) : t := mk (root s) v.
End SplayTree.

(** ** The store and the monad *)

Record state := State {
  nodes : gmap positive Node.t;
  trees : gmap positive SplayTree.t
}.

(** A computation either returns normally, dereferences a pointer that is
    NULL or not allocated ([Crash], undefined behaviour in C), or exhausts
    the fuel given to one of its loops ([Timeout]). *)
Inductive result (A : Type) : Type :=
| Ok (a : A)
| Crash
| Timeout.
Arguments Ok {A} a.
Arguments Crash {A}.
Arguments Timeout {A}.

Definition M (A : Type) : Type := state → result (A * state).

Definition ret {A} (a : A) : M A := λ st, Ok (a, st).

Definition bind {A B} (m : M A) (k : A → M B) : M B :=
  λ st, match m st with
        | Ok (a, st') => k a st'
        | Crash => Crash
        | Timeout => Timeout
        end.

Definition timeout {A} : M A := λ _, Timeout.

Definition crash {A} : M A := λ _, Crash.

Notation "x <- m ;; k" := (bind m (λ x, k))
  (at level 100, m at next level, right associativity).
Notation "m ;;; k" := (bind m (λ _, k))
  (at level 100, right associativity).

(** [p->f] for a [Node *p]. *)
Definition rdN {A} (f : Node.t → A) (p : ptr) : M A :=
  λ st, match p with
        | None => Crash
        | Some a =>
            match nodes st !! a with
            | None => Crash
            | Some n => Ok (f n, st)
            end
        end.

(** [p->f = v] for a [Node *p], with [upd] the field setter. *)
Definition wrN (upd : Node.t → Node.t) (p : ptr) : M unit :=
  λ st, match p with
        | None => Crash
        | Some a =>
            match nodes st !! a with
            | None => Crash
            | Some n => Ok (tt, State (<[a := upd n]> (nodes st)) (trees st))
            end
        end.

(** [p->f] and [p->f = v] for a [SplayTree *p]. *)
Definition rdT {A} (f : SplayTree.t → A) (p : ptr) : M A :=
  λ st, match p with
        | None => Crash
        | Some a =>
            match trees st !! a with
            | None => Crash
            | Some s => Ok (f s, st)
            end
        end.

Definition wrT (upd : SplayTree.t → SplayTree.t) (p : ptr) : M unit :=
  λ st, match p with
        | None => Crash
        | Some a =>
            match trees st !! a with
            | None => Crash
            | Some s => Ok (tt, State (nodes st) (<[a := upd s]> (trees st)))
            end
        end.

Global Arguments bind : simpl never.
Global Arguments ret : simpl never.
Global Arguments rdN : simpl never.
Global Arguments wrN : simpl never.
Global Arguments rdT : simpl never.
Global Arguments wrT : simpl never.

(** [malloc]: the first address above every allocated one.  Allocation is
    assumed to succeed. *)
Definition fresh_addr {V} (m : gmap positive V) : positive :=
  map_fold (λ k _ acc, Pos.max (Pos.succ k) acc) 1%positive m.

Definition mallocN (n : Node.t) : M ptr :=
  λ st, let a := fresh_addr (nodes st) in
        Ok (Some a, State (<[a := n]> (nodes st)) (trees st)).

Definition mallocT (s : SplayTree.t) : M ptr :=
  λ st, let a := fresh_addr (trees st) in
        Ok (Some a, State (nodes st) (<[a := s]> (trees st))).

Global Arguments fresh_addr : simpl never.
Global Arguments mallocN : simpl never.
Global Arguments mallocT : simpl never.

(** ** The program *)

Definition createNode (value : ascii) : M ptr :=
  mallocN (Node.mk value None None None 1).

Definition createTree : M ptr :=
  mallocT (SplayTree.mk None 0).

(** The idiom [(p ? p->size : 0)]. *)
Definition sizeOrZero (p : ptr) : M Z :=
  match p with
  | Some _ => rdN Node.size p
  | None => ret 0
  end.

(** [n->size = (n->left ? n->left->size : 0) + (n->right ? n->right->size : 0) + 1] *)
Definition updateSize (n : ptr) : M unit :=
  l <- rdN Node.left n ;;
  ls <- sizeOrZero l ;;
  r <- rdN Node.right n ;;
  rs <- sizeOrZero r ;;
  wrN (Node.set_size (wrap (wrap (ls + rs) + 1))) n.

(** The relinking of the grandparent, shared by both rotations:
    [if (parent) { if (node == parent->left) parent->left = Y; else
    parent->right = Y; } else tree->root = Y;] *)
Definition replaceChild (tree parent node Y : ptr) : M unit :=
  match parent with
  | Some _ =>
      pl <- rdN Node.left parent ;;
      if ptr_eqb node pl
      then wrN (Node.set_left Y) parent
      else wrN (Node.set_right Y) parent
  | None => wrT (SplayTree.set_root Y) tree
  end.

Definition _rotateRight (tree node : ptr) : M unit :=
  parent <- rdN Node.parent node ;;
  Y <- rdN Node.left node ;;
  match Y with
  | None => ret tt
  | Some _ =>
      B <- rdN Node.right Y ;;
      wrN (Node.set_parent parent) Y ;;;
      replaceChild tree parent node Y ;;;
      wrN (Node.set_parent Y) node ;;;
      wrN (Node.set_right node) Y ;;;
      match B with
      | Some _ => wrN (Node.set_parent node) B
      | None => ret tt
      end ;;;
      wrN (Node.set_left B) node ;;;
      updateSize node ;;;
      updateSize Y
  end.

Definition _rotateLeft (tree node : ptr) : M unit :=
  parent <- rdN Node.parent node ;;
  X <- rdN Node.right node ;;
  match X with
  | None => ret tt
  | Some _ =>
      B <- rdN Node.left X ;;
      wrN (Node.set_parent parent) X ;;;
      replaceChild tree parent node X ;;;
      wrN (Node.set_parent X) node ;;;
      wrN (Node.set_left node) X ;;;
      match B with
      | Some _ => wrN (Node.set_parent node) B
      | None => ret tt
      end ;;;
      wrN (Node.set_right B) node ;;;
      updateSize node ;;;
      updateSize X
  end.

(** One pass through the body of the [while (parent)] loop of [_splay],
    up to but excluding the final [parent = node->parent]. *)
Definition _splay_body (tree node parent : ptr) : M unit :=
  left <- rdN Node.left node ;;
  right <- rdN Node.right node ;;
  grandParent <- rdN Node.parent parent ;;
  match grandParent with
  | None =>
      pl <- rdN Node.left parent ;;
      if ptr_eqb node pl
      then _rotateRight tree parent
      else _rotateLeft tree parent
  | Some _ =>
      pl <- rdN Node.left parent ;;
      if ptr_eqb node pl then
        gl <- rdN Node.left grandParent ;;
        if ptr_eqb parent gl then
          _rotateRight tree grandParent ;;;
          _rotateRight tree parent
        else
          _rotateRight tree parent ;;;
          _rotateLeft tree grandParent
      else
        pr <- rdN Node.right parent ;;
        if ptr_eqb node pr then
          gr <- rdN Node.right grandParent ;;
          if ptr_eqb parent gr then
            _rotateLeft tree grandParent ;;;
            _rotateLeft tree parent
          else
            _rotateLeft tree parent ;;;
            _rotateRight tree grandParent
        else ret tt
  end.

Fixpoint _splay_loop (fuel : nat) (tree node parent : ptr) : M unit :=
  match parent with
  | None => ret tt
  | Some _ =>
      match fuel with
      | O => timeout
      | S fuel' =>
          _splay_body tree node parent ;;;
          parent' <- rdN Node.parent node ;;
          _splay_loop fuel' tree node parent'
      end
  end.

Definition _splay (fuel : nat) (tree node : ptr) : M unit :=
  match node with
  | None => ret tt
  | Some _ =>
      parent <- rdN Node.parent node ;;
      _splay_loop fuel tree node parent
  end.

(** The [while (node)] loop of [orderStatisticZeroBasedRanking]; it
    returns the node at which the descent stops. *)
Fixpoint descend (fuel : nat) (node : ptr) (k : Z) : M ptr :=
  match node with
  | None => ret None
  | Some _ =>
      match fuel with
      | O => timeout
      | S fuel' =>
          left <- rdN Node.left node ;;
          right <- rdN Node.right node ;;
          s <- sizeOrZero left ;;
          if k =? s then ret node
          else if k <? s then
            match left with
            | Some _ => descend fuel' left k
            | None => ret node
            end
          else
            match right with
            | Some _ => descend fuel' right (wrap (wrap (k - s) - 1))
            | None => ret node
            end
      end
  end.

(** The bounds check is compiled only under [DEBUG], which the source
    leaves undefined, so it is absent here. *)
Definition orderStatisticZeroBasedRanking (fuel : nat) (tree : ptr) (k : Z) : M ptr :=
  node <- rdT SplayTree.root tree ;;
  node <- descend fuel node k ;;
  _splay fuel tree node ;;;
  ret node.

(** [tree->size++] *)
Definition incrSize (tree : ptr) : M unit :=
  s <- rdT SplayTree.size tree ;;
  wrT (SplayTree.set_size (wrap (s + 1))) tree.

Definition insert (fuel : nat) (tree : ptr) (rank : Z) (value : ascii) : M unit :=
  node <- createNode value ;;
  tsz <- rdT SplayTree.size tree ;;
  if (rank =? tsz) && (0 <? tsz) then
    last <- orderStatisticZeroBasedRanking fuel tree (wrap (rank - 1)) ;;
    wrN (Node.set_left last) node ;;;
    ls <- rdN Node.size last ;;
    wrN (Node.set_size (wrap (ls + 1))) node ;;;
    wrN (Node.set_parent node) last ;;;
    incrSize tree ;;;
    wrT (SplayTree.set_root node) tree
  else
    tsz <- rdT SplayTree.size tree ;;
    if tsz =? 0 then
      incrSize tree ;;;
      wrT (SplayTree.set_root node) tree
    else
      right <- orderStatisticZeroBasedRanking fuel tree rank ;;
      wrN (Node.set_right right) node ;;;
      rl <- rdN Node.left right ;;
      wrN (Node.set_left rl) node ;;;
      wrN (Node.set_parent node) right ;;;
      wrN (Node.set_left None) right ;;;
      rr <- rdN Node.right right ;;
      rrs <- sizeOrZero rr ;;
      wrN (Node.set_size (wrap (rrs + 1))) right ;;;
      updateSize node ;;;
      incrSize tree ;;;
      wrT (SplayTree.set_root node) tree.

Definition insertSpecific (tree : ptr) (value : ascii) : M unit :=
  node <- createNode value ;;
  r <- rdT SplayTree.root tree ;;
  match r with
  | Some _ => wrN (Node.set_parent node) r
  | None => ret tt
  end ;;;
  r <- rdT SplayTree.root tree ;;
  wrN (Node.set_left r) node ;;;
  l <- rdN Node.left node ;;
  ls <- sizeOrZero l ;;
  wrN (Node.set_size (wrap (ls + 1))) node ;;;
  wrT (SplayTree.set_root node) tree ;;;
  incrSize tree.

(** The [while (node->right)] loop of [subtreeMaximum]. *)
Fixpoint rightmost (fuel : nat) (node : ptr) : M ptr :=
  r <- rdN Node.right node ;;
  match r with
  | None => ret node
  | Some _ =>
      match fuel with
      | O => timeout
      | S fuel' => rightmost fuel' r
      end
  end.

Definition subtreeMaximum (fuel : nat) (tree node : ptr) : M ptr :=
  match node with
  | None => ret None
  | Some _ =>
      node <- rightmost fuel node ;;
      _splay fuel tree node ;;;
      ret node
  end.

(** [!tree || !tree->root] *)
Definition nullOrEmpty (tree : ptr) : M bool :=
  match tree with
  | None => ret true
  | Some _ =>
      r <- rdT SplayTree.root tree ;;
      ret (match r with Some _ => false | None => true end)
  end.

Definition merge (fuel : nat) (tree1 tree2 : ptr) : M ptr :=
  e1 <- nullOrEmpty tree1 ;;
  if e1 then ret tree2 else
  e2 <- nullOrEmpty tree2 ;;
  if e2 then ret tree1 else
  root2 <- rdT SplayTree.root tree2 ;;
  r1 <- rdT SplayTree.root tree1 ;;
  root1 <- subtreeMaximum fuel tree1 r1 ;;
  wrN (Node.set_parent root1) root2 ;;;
  wrN (Node.set_right root2) root1 ;;;
  updateSize root1 ;;;
  s <- rdN Node.size root1 ;;
  wrT (SplayTree.set_size s) tree1 ;;;
  ret tree1.

(** The two out-parameters [*tree1] and [*tree2] are returned as a pair. *)
Definition split (fuel : nat) (tree : ptr) (rank : Z) : M (ptr * ptr) :=
  root1 <- orderStatisticZeroBasedRanking fuel tree rank ;;
  root2 <- rdN Node.right root1 ;;
  wrN (Node.set_right None) root1 ;;;
  updateSize root1 ;;;
  tree1 <- createTree ;;
  wrT (SplayTree.set_root root1) tree1 ;;;
  s1 <- rdN Node.size root1 ;;
  wrT (SplayTree.set_size s1) tree1 ;;;
  tree2 <- createTree ;;
  match root2 with
  | Some _ =>
      wrN (Node.set_parent None) root2 ;;;
      wrT (SplayTree.set_root root2) tree2 ;;;
      s2 <- rdN Node.size root2 ;;
      wrT (SplayTree.set_size s2) tree2
  | None => ret tt
  end ;;;
  ret (tree1, tree2).

(** [*tree] is passed in and the new [*tree] is returned. *)
Definition process (fuel : nat) (tree : ptr) (i j k : Z) : M ptr :=
  let left : ptr := None in
  mr <- split fuel tree j ;;
  let middle := mr.1 in
  let right := mr.2 in
  lm <- (if 0 <? i
         then split fuel middle (wrap (i - 1))
         else ret (left, middle)) ;;
  let left := lm.1 in
  let middle := lm.2 in
  left <- merge fuel left right ;;
  lr <- (if 0 <? k
         then split fuel left (wrap (k - 1))
         else ret (None, left)) ;;
  let left := lr.1 in
  let right := lr.2 in
  t <- merge fuel left middle ;;
  merge fuel t right.

(** The [while (TRUE)] loop of [inOrder].  [stack] is the explicit stack,
    top first, allocated for [cap] entries; [index] counts the characters
    stored so far into the static buffer [result], which has [S_MAX_LEN]
    cells, and [out] holds them, latest first.  Storing past either
    array is undefined behaviour. *)
Fixpoint inOrder_loop (fuel : nat) (cap : Z) (current : ptr) (stack : list ptr)
    (index : Z) (out : list ascii) : M (list ascii) :=
  match fuel with
  | O => timeout
  | S fuel' =>
      match current with
      | Some _ =>
          if Z.of_nat (length stack) <? cap then
            l <- rdN Node.left current ;;
            inOrder_loop fuel' cap l (current :: stack) index out
          else crash
      | None =>
          match stack with
          | top :: stack' =>
              v <- rdN Node.value top ;;
              if index <? S_MAX_LEN then
                r <- rdN Node.right top ;;
                inOrder_loop fuel' cap r stack' (wrap (index + 1)) (v :: out)
              else crash
          | [] => ret (rev out)
          end
      end
  end.

(** [inOrder] hands back the buffer [result]; its value here is what the
    call stored there, [result[0..index)].  (The buffer is static and
    zeroed once: on the first call, and with fewer than [S_MAX_LEN]
    characters, that is the C string found in it.) *)
Definition inOrder (fuel : nat) (tree : ptr) : M (list ascii) :=
  current <- rdT SplayTree.root tree ;;
  match current with
  | None => ret []
  | Some _ =>
      n <- rdT SplayTree.size tree ;;
      inOrder_loop fuel n current [] 0 []
  end.

(** The loading loop of [main]: one [insertSpecific] per character. *)
Fixpoint load (tree : ptr) (s : list ascii) : M unit :=
  match s with
  | [] => ret tt
  | c :: s' => insertSpecific tree c ;;; load tree s'
  end.

Definition empty_state : state := State ∅ ∅.

Definition build (s : list ascii) : M ptr :=
  tree <- createTree ;;
  load tree s ;;;
  ret tree.

Global Arguments _rotateRight : simpl never.
Global Arguments _rotateLeft : simpl never.
Global Arguments _splay_body : simpl never.
Global Arguments _splay : simpl never.
Global Arguments orderStatisticZeroBasedRanking : simpl never.
Global Arguments subtreeMaximum : simpl never.
Global Arguments nullOrEmpty : simpl never.
Global Arguments merge : simpl never.
Global Arguments split : simpl never.
Global Arguments process : simpl never.
Global Arguments insert : simpl never.
Global Arguments insertSpecific : simpl never.
Global Arguments inOrder : simpl never.


(** ** Releasing memory: [destroyTree] *)

(** [free(p)]: nothing happens for NULL; releasing an address that is not
    allocated (a second [free], for one) is undefined behaviour. *)
Definition freeN (p : ptr) : M unit :=
  λ st, match p with
        | None => Ok (tt, st)
        | Some a =>
            match nodes st !! a with
            | None => Crash
            | Some _ => Ok (tt, State (delete a (nodes st)) (trees st))
            end
        end.

Definition freeT (p : ptr) : M unit :=
  λ st, match p with
        | None => Ok (tt, st)
        | Some a =>
            match trees st !! a with
            | None => Crash
            | Some _ => Ok (tt, State (nodes st) (delete a (trees st)))
            end
        end.

Global Arguments freeN : simpl never.
Global Arguments freeT : simpl never.

(** The pushing loop of [postOrderFree], which occurs twice in it:
    [while (current) { stack[size++] = current; boolStack[boolSize++] = 0;
    current = current->left; }].  The two arrays are the lists [stack] and
    [boolStack], top first; both were allocated for [cap] entries and the
    counters [size] and [boolSize] are the lengths of the lists. *)
Fixpoint pushLeft (fuel : nat) (cap : Z) (current : ptr) (stack : list ptr)
    (boolStack : list bool) : M (list ptr * list bool) :=
  match current with
  | None => ret (stack, boolStack)
  | Some _ =>
      match fuel with
      | O => timeout
      | S fuel' =>
          if (Z.of_nat (length stack) <? cap) && (Z.of_nat (length boolStack) <? cap) then
            l <- rdN Node.left current ;;
            pushLeft fuel' cap l (current :: stack) (false :: boolStack)
          else crash
      end
  end.

(** The [while (size)] loop of [postOrderFree]. *)
Fixpoint postOrderFree_loop (fuel : nat) (cap : Z) (stack : list ptr)
    (boolStack : list bool) : M unit :=
  match stack with
  | [] => ret tt
  | current :: stack' =>
      match fuel with
      | O => timeout
      | S fuel' =>
          match boolStack with
          | [] => crash
          | alreadyEncountered :: boolStack' =>
              if alreadyEncountered then
                freeN current ;;;
                postOrderFree_loop fuel' cap stack' boolStack'
              else
                r <- rdN Node.right current ;;
                sb <- pushLeft fuel' cap r stack (true :: boolStack') ;;
                postOrderFree_loop fuel' cap sb.1 sb.2
          end
      end
  end.

Definition postOrderFree (fuel : nat) (tree : ptr) : M unit :=
  n <- rdT SplayTree.size tree ;;
  current <- rdT SplayTree.root tree ;;
  sb <- pushLeft fuel n current [] [] ;;
  postOrderFree_loop fuel n sb.1 sb.2 ;;;
  wrT (SplayTree.set_root None) tree ;;;
  wrT (SplayTree.set_size 0) tree.

Definition destroyTree (fuel : nat) (tree : ptr) : M unit :=
  match tree with
  | None => ret tt
  | Some _ =>
      r <- rdT SplayTree.root tree ;;
      match r with
      | None => freeT tree
      | Some _ => postOrderFree fuel tree ;;; freeT tree
      end
  end.

(** ** [main]

    Reading the input is outside the model: [rope] is the word that the
    first [scanf] stored and [ops] holds the [numOps] triples [(i, j, k)]
    that the later ones delivered.  The value of [main] is the string it
    hands to [printf]. *)
Fixpoint run_ops (fuel : nat) (tree : ptr) (ops : list (Z * Z * Z)) : M ptr :=
  match ops with
  | [] => ret tree
  | op :: ops' =>
      tree' <- process fuel tree op.1.1 op.1.2 op.2 ;;
      run_ops fuel tree' ops'
  end.

Definition main (fuel : nat) (rope : list ascii) (ops : list (Z * Z * Z)) : M (list ascii) :=
  tree <- createTree ;;
  load tree rope ;;;
  tree <- run_ops fuel tree ops ;;
  out <- inOrder fuel tree ;;
  destroyTree fuel tree ;;;
  ret out.

Global Arguments postOrderFree : simpl never.
Global Arguments destroyTree : simpl never.
Global Arguments main : simpl never.
(** ** Abstract trees

    The shape of a tree stored in the heap: every node records its
    address and its character. *)

Inductive shape : Type :=
| E
| T (l : shape) (a : addr) (v : ascii) (r : shape).

Fixpoint tsize (t : shape) : Z :=
  match t with
  | E => 0
  | T l _ _ r => tsize l + tsize r + 1
  end.

Fixpoint height (t : shape) : nat :=
  match t with
  | E => O
  | T l _ _ r => S (Nat.max (height l) (height r))
  end.

(** In-order traversal: the nodes, their addresses, their characters. *)
Fixpoint elems (t : shape) : list (addr * ascii) :=
  match t with
  | E => []
  | T l a v r => elems l ++ (a, v) :: elems r
  end.

Fixpoint addrs (t : shape) : list addr :=
  match t with
  | E => []
  | T l a _ r => addrs l ++ a :: addrs r
  end.

Fixpoint vals (t : shape) : list ascii :=
  match t with
  | E => []
  | T l _ v r => vals l ++ v :: vals r
  end.

Definition rootp (t : shape) : ptr :=
  match t with
  | E => None
  | T _ a _ _ => Some a
  end.

(** The struct that the heap must hold for the root of [T l a v r] when
    its parent pointer is [par]. *)
Definition node_of (par : ptr) (l : shape) (v : ascii) (r : shape) : Node.t :=
  Node.mk v par (rootp l) (rootp r) (tsize l + tsize r + 1).

(** [rep h par t]: the heap [h] holds the tree [t] below a node (or
    handle) whose address is [par]. *)
Fixpoint rep (h : gmap positive Node.t) (par : ptr) (t : shape) : Prop :=
  match t with
  | E => True
  | T l a v r =>
      h !! a = Some (node_of par l v r) ∧ rep h (Some a) l ∧ rep h (Some a) r
  end.

(** [srep h t]: as [rep], but silent about the parent pointers. *)
Fixpoint srep (h : gmap positive Node.t) (t : shape) : Prop :=
  match t with
  | E => True
  | T l a v r =>
      (∃ par, h !! a = Some (node_of par l v r)) ∧ srep h l ∧ srep h r
  end.

(** *** One-hole contexts, innermost frame first *)

Inductive frame : Type :=
| FL (a : addr) (v : ascii) (r : shape)   (* the hole is the left child of [a] *)
| FR (l : shape) (a : addr) (v : ascii).  (* the hole is the right child of [a] *)

Abbreviation ctx := (list frame).

Definition faddr (f : frame) : addr :=
  match f with FL a _ _ => a | FR _ a _ => a end.

Definition fsib (f : frame) : shape :=
  match f with FL _ _ r => r | FR l _ _ => l end.

Definition fill (f : frame) (t : shape) : shape :=
  match f with
  | FL a v r => T t a v r
  | FR l a v => T l a v t
  end.

Fixpoint plug (c : ctx) (t : shape) : shape :=
  match c with
  | [] => t
  | f :: c' => plug c' (fill f t)
  end.

Definition cpar (c : ctx) : ptr :=
  match c with
  | [] => None
  | f :: _ => Some (faddr f)
  end.

Definition fsize (f : frame) (hs : Z) : Z :=
  match f with
  | FL _ _ r => hs + tsize r + 1
  | FR l _ _ => tsize l + hs + 1
  end.

(** The struct of a frame's node when the hole holds a subtree with root
    pointer [hp] and size [hs]. *)
Definition frame_node (par : ptr) (f : frame) (hp : ptr) (hs : Z) : Node.t :=
  match f with
  | FL _ v r => Node.mk v par hp (rootp r) (hs + tsize r + 1)
  | FR l _ v => Node.mk v par (rootp l) hp (tsize l + hs + 1)
  end.

Fixpoint crep (h : gmap positive Node.t) (c : ctx) (hp : ptr) (hs : Z) : Prop :=
  match c with
  | [] => True
  | f :: c' =>
      h !! faddr f = Some (frame_node (cpar c') f hp hs)
      ∧ rep h (Some (faddr f)) (fsib f)
      ∧ crep h c' (Some (faddr f)) (fsize f hs)
  end.

Fixpoint caddrs (c : ctx) : list addr :=
  match c with
  | [] => []
  | f :: c' => faddr f :: addrs (fsib f) ++ caddrs c'
  end.

(** What precedes and what follows the hole in the in-order traversal. *)
Fixpoint ebefore (c : ctx) : list (addr * ascii) :=
  match c with
  | [] => []
  | FL _ _ _ :: c' => ebefore c'
  | FR l a v :: c' => ebefore c' ++ elems l ++ [(a, v)]
  end.

Fixpoint eafter (c : ctx) : list (addr * ascii) :=
  match c with
  | [] => []
  | FL a v r :: c' => (a, v) :: elems r ++ eafter c'
  | FR _ _ _ :: c' => eafter c'
  end.

(** *** Well-formed trees *)

(** The handle [tree] owns, in state [st], a tree of shape [t]: the
    structural invariants of the data model. *)
Definition wf (st : state) (tree : addr) (t : shape) : Prop :=
  trees st !! tree = Some (SplayTree.mk (rootp t) (tsize t))
  ∧ rep (nodes st) None t
  ∧ NoDup (addrs t)
  ∧ tsize t < UINT_RANGE.

(** [st'] differs from [st] at most on the nodes in [F] and on the
    handles in [U]. *)
Definition framed (F : list addr) (U : list addr) (st st' : state) : Prop :=
  (∀ a, a ∉ F → nodes st' !! a = nodes st !! a)
  ∧ (∀ u, u ∉ U → trees st' !! u = trees st !! u).

(** A possibly null handle owns a tree; NULL owns the empty one. *)
Definition own (st : state) (p : ptr) (t : shape) : Prop :=
  match p with
  | None => t = E
  | Some a => wf st a t
  end.

(** *** The invariants of the data model, read off the heap

    [reach h p a]: the node [a] is reachable from the pointer [p] along
    [left] and [right] links. *)
Inductive reach (h : gmap positive Node.t) : ptr → addr → Prop :=
| reach_here a : reach h (Some a) a
| reach_left a n b : h !! a = Some n → reach h (Node.left n) b → reach h (Some a) b
| reach_right a n b : h !! a = Some n → reach h (Node.right n) b → reach h (Some a) b.

(** The [size] field behind a pointer, 0 for NULL. *)
Definition psize (h : gmap positive Node.t) (p : ptr) : Z :=
  match p with
  | None => 0
  | Some a => match h !! a with Some n => Node.size n | None => 0 end
  end.

(** Every reachable node has [size == 1 + size(left) + size(right)], and
    the handle caches the size of its root. *)
Definition size_inv (st : state) (tree : addr) : Prop :=
  ∃ s, trees st !! tree = Some s
    ∧ SplayTree.size s = psize (nodes st) (SplayTree.root s)
    ∧ ∀ a, reach (nodes st) (SplayTree.root s) a →
        ∃ n, nodes st !! a = Some n
          ∧ Node.size n
            = 1 + psize (nodes st) (Node.left n) + psize (nodes st) (Node.right n).

(** Every reachable node but the root has a parent pointer to a node
    exactly one of whose child links points back. *)
Definition parent_inv (st : state) (tree : addr) : Prop :=
  ∃ s, trees st !! tree = Some s
    ∧ ∀ a, reach (nodes st) (SplayTree.root s) a → SplayTree.root s ≠ Some a →
        ∃ n p np, nodes st !! a = Some n ∧ Node.parent n = Some p
          ∧ nodes st !! p = Some np
          ∧ ((Node.left np = Some a ∧ Node.right np ≠ Some a)
             ∨ (Node.left np ≠ Some a ∧ Node.right np = Some a)).

(** The depth of a node: the number of parent links up to a node
    without parent. *)
Inductive depth_is (h : gmap positive Node.t) : addr → nat → Prop :=
| depth_root a n : h !! a = Some n → Node.parent n = None → depth_is h a 0
| depth_up a n p d :
    h !! a = Some n → Node.parent n = Some p → depth_is h p d → depth_is h a (S d).

(** The handle [tree] is a well-formed rope reading [s]. *)
Definition Rope (st : state) (tree : addr) (s : list ascii) : Prop :=
  ∃ t, wf st tree t ∧ vals t = s.

(** The explicit stack of [inOrder]: each entry is a node whose left
    subtree has been handed to the loop, with its character and the
    shape of its right subtree. *)
Abbreviation stack_entry := (addr * ascii * shape)%type.

Definition stack_ptrs (stk : list stack_entry) : list ptr :=
  map (λ e, Some e.1.1) stk.

Fixpoint stack_vals (stk : list stack_entry) : list ascii :=
  match stk with
  | [] => []
  | e :: stk' => e.1.2 :: vals e.2 ++ stack_vals stk'
  end.

Fixpoint stack_cost (stk : list stack_entry) : nat :=
  match stk with
  | [] => O
  | e :: stk' => (1 + 2 * length (vals e.2) + stack_cost stk')%nat
  end.

(** Every suspended right subtree still fits the stack when its turn
    comes. *)
Fixpoint stack_fits (cap : Z) (stk : list stack_entry) : Prop :=
  match stk with
  | [] => True
  | e :: stk' =>
      Z.of_nat (length stk' + height e.2) ≤ cap ∧ stack_fits cap stk'
  end.

Definition stack_ok (h : gmap positive Node.t) (stk : list stack_entry) : Prop :=
  Forall (λ e : stack_entry,
            ∃ n, h !! e.1.1 = Some n ∧ Node.value n = e.1.2
                 ∧ Node.right n = rootp e.2 ∧ srep h e.2) stk.

(** The handle [tree] reads [s] along its child links, with correct
    sizes; nothing is said about parent pointers. *)
Definition Reads (st : state) (tree : addr) (s : list ascii) : Prop :=
  ∃ t, trees st !! tree = Some (SplayTree.mk (rootp t) (tsize t))
       ∧ srep (nodes st) t ∧ NoDup (addrs t) ∧ vals t = s.

(** The handles a pointer stands for. *)
Definition handles (p : ptr) : list addr :=
  match p with Some u => [u] | None => [] end.

(** A forest: several handles live at once, each owning its own tree.
    [split] and [merge] move nodes between the handles of a forest. *)
Fixpoint f_addrs (l : list (ptr * shape)) : list addr :=
  match l with
  | [] => []
  | pt :: l' => addrs pt.2 ++ f_addrs l'
  end.

Fixpoint f_handles (l : list (ptr * shape)) : list addr :=
  match l with
  | [] => []
  | pt :: l' => handles pt.1 ++ f_handles l'
  end.

Fixpoint f_size (l : list (ptr * shape)) : Z :=
  match l with
  | [] => 0
  | pt :: l' => tsize pt.2 + f_size l'
  end.

Definition forest (st : state) (l : list (ptr * shape)) : Prop :=
  Forall (λ pt, own st pt.1 pt.2) l
  ∧ NoDup (f_addrs l)
  ∧ NoDup (f_handles l)
  ∧ f_size l < UINT_RANGE.

(** Where [insert] puts the new character: at [rank] when appending,
    otherwise before the element that the descent reaches. *)
Definition insert_pos (rank size : Z) : nat :=
  Z.to_nat (if rank =? size then rank else Z.min rank (size - 1)).

(** The claimed effect of [process] on the character sequence: the items
    at positions [i..j] are cut out and pasted back after the first [k]
    items of what remains. *)
Definition cut_paste {A} (s : list A) (i j k : nat) : list A :=
  let piece := take (S j - i) (drop i s) in
  let rest := take i s ++ drop (S j) s in
  take k rest ++ piece ++ drop k rest.

(** Two address lists share no address. *)
Definition sep (l k : list addr) : Prop := ∀ x, x ∈ l → x ∉ k.

(** *** The effect of [_splay] on the abstract tree

    One pass of the loop body, for the node [T A x v B] in the hole of
    [c]: a zig when the context has one frame, otherwise a zig-zig or a
    zig-zag that consumes two frames. *)
Definition splay_step (c : ctx) (A B : shape) : ctx * shape * shape :=
  match c with
  | [] => ([], A, B)
  | [FL p vp C] => ([], A, T B p vp C)
  | [FR D p vp] => ([], T D p vp A, B)
  | FL p vp C :: FL g vg D :: c' => (c', A, T B p vp (T C g vg D))
  | FL p vp C :: FR D g vg :: c' => (c', T D g vg A, T B p vp C)
  | FR D p vp :: FR D' g vg :: c' => (c', T (T D' g vg D) p vp A, B)
  | FR D p vp :: FL g vg D' :: c' => (c', T D p vp A, T B g vg D')
  end.


(** *** Concrete ropes

    The state that [main] reaches after loading a text, and the shape of
    the tree it holds: a chain of left children, the first node at
    address 1. *)
Definition built (s : string) : state :=
  match build (list_ascii_of_string s) empty_state with
  | Ok (_, st) => st
  | _ => empty_state
  end.

Fixpoint chain_from (t : shape) (a : positive) (s : list ascii) : shape :=
  match s with
  | [] => t
  | c :: s' => chain_from (T t a c E) (Pos.succ a) s'
  end.

Definition chain (s : string) : shape :=
  chain_from E 1%positive (list_ascii_of_string s).

(** Reading a shape back from the heap, following child links. *)
Fixpoint read_shape (fuel : nat) (h : gmap positive Node.t) (p : ptr) : shape :=
  match fuel, p with
  | S fuel', Some a =>
      match h !! a with
      | Some n =>
          T (read_shape fuel' h (Node.left n)) a (Node.value n)
            (read_shape fuel' h (Node.right n))
      | None => E
      end
  | _, _ => E
  end.

(** The state a computation ends in ([st] itself if it does not return). *)
Definition state_after {A} (m : M A) (st : state) : state :=
  match m st with
  | Ok (_, st') => st'
  | _ => st
  end.

(** "ab" after its first character was located: [a] is the root and [b]
    its right child. *)
Definition splayed_ab : state :=
  state_after (orderStatisticZeroBasedRanking 2 (Some 1%positive) 0) (built "ab").

(** "ab" after [insert(tree, 1, 'x')]. *)
Definition inserted_ab : state :=
  state_after (insert 2 (Some 1%positive) 1 "x"%char) (built "ab").

(** "abcdef" after [process(&tree, 0, 2, 4)], whose [k] is out of range. *)
Definition moved_abcdef : state :=
  state_after (process 6 (Some 1%positive) 0 2 4) (built "abcdef").

(** "hello" after [split(tree, 1)]: the handles 2 and 3 hold "he" and "llo". *)
Definition split_hello : state :=
  state_after (split 5 (Some 1%positive) 1) (built "hello").

(** The range check that the specification asks of the locator: a
    request with an out-of-range [k] never comes back with a node. *)
Definition range_checked (fuel : nat) (st : state) (tree : addr) (k : Z) : Prop :=
  ∀ x st', orderStatisticZeroBasedRanking fuel (Some tree) k st ≠ Ok (Some x, st').


(** ** Releasing a tree *)

(** The left spine of a tree, deepest node first: what the pushing loop
    of [postOrderFree], started at the root, puts on the stack. *)
Fixpoint spine (t : shape) : list addr :=
  match t with
  | E => []
  | T l a _ _ => spine l ++ [a]
  end.

(** The node store once the addresses in [l] have been released. *)
Definition release (l : list addr) (h : gmap positive Node.t) : gmap positive Node.t :=
  foldr delete h l.

(** The handle [tree] holds the tree [t] as far as child links and
    cached sizes go; nothing is said about parent pointers.  Every tree
    satisfying the structural invariants is of this kind, and so are the
    trees that [insert] leaves. *)
Definition linked (st : state) (tree : addr) (t : shape) : Prop :=
  trees st !! tree = Some (SplayTree.mk (rootp t) (tsize t))
  ∧ srep (nodes st) t
  ∧ NoDup (addrs t).

(** ** Allocation *)

(** A computation that, whenever it returns, has allocated [n] handles
    and freed none, and has neither allocated nor freed a node. *)
Definition allocs {A} (n : nat) (m : M A) : Prop :=
  ∀ st a st', m st = Ok (a, st') →
    dom (nodes st') = dom (nodes st)
    ∧ dom (trees st) ⊆ dom (trees st')
    ∧ size (dom (trees st')) = (size (dom (trees st)) + n)%nat.

(** The number of [split]s in one call of [process]. *)
Definition splits (i k : Z) : nat :=
  (1 + (if (0 <? i)%Z then 1 else 0) + (if (0 <? k)%Z then 1 else 0))%nat.

(** ** [main] *)

(** One operation of [main] on the text: the claimed effect of
    [process(i, j, k)]. *)
Definition move (s : list ascii) (op : Z * Z * Z) : list ascii :=
  cut_paste s (Z.to_nat op.1.1) (Z.to_nat op.1.2) (Z.to_nat op.2).

(** The constraints that the source states for an operation on a text of
    [n] characters: [0 <= i <= j <= n - 1] and [0 <= k <= n - (j - i + 1)]. *)
Definition valid_op (n : Z) (op : Z * Z * Z) : Prop :=
  0 ≤ op.1.1 ≤ op.1.2 ∧ op.1.2 ≤ n - 1 ∧ 0 ≤ op.2 ≤ n - (op.1.2 - op.1.1 + 1).

(** The handles that the operations allocate: two for each [split]. *)
Fixpoint handles_of (ops : list (Z * Z * Z)) : nat :=
  match ops with
  | [] => O
  | op :: ops' => (2 * splits op.1.1 op.2 + handles_of ops')%nat
  end.

(** Every allocated node belongs to the tree [t]. *)
Definition tight (st : state) (t : shape) : Prop :=
  ∀ a, a ∉ addrs t → nodes st !! a = None.

(** "hello" after [process(&tree, 1, 2, 3)]. *)
Definition moved_hello : state :=
  state_after (process 5 (Some 1%positive) 1 2 3) (built "hello").

(** ** [process] on arbitrary indices

    What [process(i, j, k)] does to the text for any indices, in range
    or not: [split] puts everything into its left result when the rank
    is at or beyond the last position, which is how [take] and [drop]
    treat a length that is too large. *)
Definition process_text {A} (s : list A) (i j k : nat) : list A :=
  let middle := take (S j) s in
  let rest := take i middle ++ drop (S j) s in
  take k rest ++ drop i middle ++ drop k rest.

(** The one case in which [process] fails on a non-empty tree: nothing
    is left to split for the paste position. *)
Definition nothing_left (size i j k : Z) : Prop :=
  i = 0 ∧ size - 1 ≤ j ∧ 0 < k.
(** ** Basic facts *)

Lemma wrap_small z : 0 ≤ z < UINT_RANGE → wrap z = z.
Proof. intros. unfold wrap. by apply Z.mod_small. Qed.

Lemma tsize_nonneg t : 0 ≤ tsize t.
Proof. induction t; simpl; lia. Qed.

Lemma tsize_length t : tsize t = Z.of_nat (length (elems t)).
Proof.
  induction t as [|l IHl a v r IHr]; simpl; [done|].
  rewrite length_app. simpl. lia.
Qed.

Lemma addrs_elems t : addrs t = (elems t).*1.
Proof.
  induction t as [|l IHl a v r IHr]; simpl; [done|].
  by rewrite fmap_app, fmap_cons, IHl, IHr.
Qed.

Lemma vals_elems t : vals t = (elems t).*2.
Proof.
  induction t as [|l IHl a v r IHr]; simpl; [done|].
  by rewrite fmap_app, fmap_cons, IHl, IHr.
Qed.

Lemma height_le_size t : (height t ≤ Z.to_nat (tsize t))%nat.
Proof.
  induction t as [|l IHl a v r IHr]; simpl; [lia|].
  pose proof (tsize_nonneg l). pose proof (tsize_nonneg r). lia.
Qed.

Lemma rootp_addrs t a : rootp t = Some a → a ∈ addrs t.
Proof. destruct t; simpl; [done|]. intros [= ->]. set_solver. Qed.

Lemma rootp_E t : rootp t = None → t = E.
Proof. by destruct t. Qed.

Lemma elems_plug c t : elems (plug c t) = ebefore c ++ elems t ++ eafter c.
Proof.
  revert t. induction c as [|[a v r|l a v] c IH]; intros t; simpl.
  - by rewrite app_nil_r.
  - rewrite IH. simpl. by rewrite <- !app_assoc.
  - rewrite IH. simpl. by rewrite <- !app_assoc.
Qed.

Lemma addrs_plug c t : addrs (plug c t) ≡ₚ caddrs c ++ addrs t.
Proof.
  revert t. induction c as [|[a v r|l a v] c IH]; intros t; simpl; [done|..].
  - rewrite IH. simpl. solve_Permutation.
  - rewrite IH. simpl. solve_Permutation.
Qed.

Lemma tsize_plug c t t' : tsize t = tsize t' → tsize (plug c t) = tsize (plug c t').
Proof.
  revert t t'. induction c as [|[a v r|l a v] c IH]; intros t t' Hs; simpl; [done|..];
    apply IH; simpl; lia.
Qed.

Lemma tsize_plug_le c t : tsize t ≤ tsize (plug c t).
Proof.
  revert t. induction c as [|[a v r|l a v] c IH]; intros t; simpl; [lia|..].
  - etrans; [|apply IH]. simpl. pose proof (tsize_nonneg r). lia.
  - etrans; [|apply IH]. simpl. pose proof (tsize_nonneg l). lia.
Qed.

Lemma height_plug c t : (length c + height t ≤ height (plug c t))%nat.
Proof.
  revert t. induction c as [|[a v r|l a v] c IH]; intros t; simpl; [lia|..].
  - etrans; [|apply IH]. simpl. lia.
  - etrans; [|apply IH]. simpl. lia.
Qed.

Lemma rootp_fill f t : rootp (fill f t) = Some (faddr f).
Proof. by destruct f. Qed.

Lemma tsize_fill f t : tsize (fill f t) = fsize f (tsize t).
Proof. by destruct f. Qed.

(** *** Frame lemmas for [rep] and [crep] *)

Lemma rep_frame h h' par t :
  (∀ a, a ∈ addrs t → h' !! a = h !! a) → rep h par t → rep h' par t.
Proof.
  revert par. induction t as [|l IHl a v r IHr]; intros par Hf; simpl; [done|].
  intros (Ha & Hl & Hr). split_and!.
  - rewrite Hf; [done|]. simpl. set_solver.
  - apply IHl; [|done]. intros b Hb. apply Hf. simpl. set_solver.
  - apply IHr; [|done]. intros b Hb. apply Hf. simpl. set_solver.
Qed.

Lemma rep_insert_ne h par t a n :
  a ∉ addrs t → rep h par t → rep (<[a := n]> h) par t.
Proof.
  intros Ha. apply rep_frame. intros b Hb.
  apply lookup_insert_ne. intros ->. done.
Qed.

Lemma crep_frame h h' c hp hs :
  (∀ a, a ∈ caddrs c → h' !! a = h !! a) → crep h c hp hs → crep h' c hp hs.
Proof.
  revert hp hs. induction c as [|f c IH]; intros hp hs Hf; simpl; [done|].
  intros (Ha & Hs & Hc). split_and!.
  - rewrite Hf; [done|]. simpl. set_solver.
  - eapply rep_frame; [|done]. intros b Hb. apply Hf. simpl. set_solver.
  - apply IH; [|done]. intros b Hb. apply Hf. simpl. set_solver.
Qed.

Lemma crep_insert_ne h c hp hs a n :
  a ∉ caddrs c → crep h c hp hs → crep (<[a := n]> h) c hp hs.
Proof.
  intros Ha. apply crep_frame. intros b Hb.
  apply lookup_insert_ne. intros ->. done.
Qed.

(** A tree in the heap splits into a context and the subtree in its hole. *)
Lemma rep_plug h c t :
  rep h None (plug c t) ↔ crep h c (rootp t) (tsize t) ∧ rep h (cpar c) t.
Proof.
  revert t. induction c as [|f c IH]; intros t; simpl; [tauto|].
  rewrite IH, rootp_fill, tsize_fill.
  destruct f as [a v r|l a v]; simpl; unfold node_of, frame_node; simpl; tauto.
Qed.

Lemma rootp_plug c t t' :
  c ≠ [] ∨ rootp t = rootp t' → rootp (plug c t) = rootp (plug c t').
Proof.
  revert t t'. induction c as [|f c IH]; intros t t' H; simpl.
  - destruct H; done.
  - apply IH. right. by rewrite !rootp_fill.
Qed.

(** ** Symbolic execution of the monadic code *)

Lemma bind_Ok {A B} (m : M A) (k : A → M B) st a st' :
  m st = Ok (a, st') → bind m k st = k a st'.
Proof. unfold bind. by intros ->. Qed.

Lemma rdN_Ok {A} (f : Node.t → A) a n st :
  nodes st !! a = Some n → rdN f (Some a) st = Ok (f n, st).
Proof. unfold rdN. by intros ->. Qed.

Lemma wrN_Ok u a n st :
  nodes st !! a = Some n →
  wrN u (Some a) st = Ok (tt, State (<[a := u n]> (nodes st)) (trees st)).
Proof. unfold wrN. by intros ->. Qed.

Lemma rdT_Ok {A} (f : SplayTree.t → A) a s st :
  trees st !! a = Some s → rdT f (Some a) st = Ok (f s, st).
Proof. unfold rdT. by intros ->. Qed.

Lemma wrT_Ok u a s st :
  trees st !! a = Some s →
  wrT u (Some a) st = Ok (tt, State (nodes st) (<[a := u s]> (trees st))).
Proof. unfold wrT. by intros ->. Qed.

Lemma ret_Ok {A} (a : A) st : ret a st = Ok (a, st).
Proof. done. Qed.

Lemma sizeOrZero_rep st par t :
  rep (nodes st) par t → sizeOrZero (rootp t) st = Ok (tsize t, st).
Proof.
  destruct t as [|l a v r]; simpl; [done|].
  intros (Ha & _). unfold rdN. by rewrite Ha.
Qed.

Lemma NoDup_plug c t : NoDup (addrs (plug c t)) ↔ NoDup (caddrs c ++ addrs t).
Proof. by rewrite addrs_plug. Qed.

Ltac lk :=
  repeat first
    [ rewrite lookup_insert_eq
    | rewrite lookup_insert_ne by congruence ].

Ltac lookup_tac := simpl; lk; first [reflexivity | eassumption].


Lemma bind_assoc {A B C} (m : M A) (f : A → M B) (g : B → M C) st :
  bind (bind m f) g st = bind m (λ x, bind (f x) g) st.
Proof. unfold bind. destruct (m st) as [[a st']| |]; done. Qed.

Lemma ptr_eqb_refl p : ptr_eqb p p = true.
Proof. unfold ptr_eqb. by apply bool_decide_eq_true_2. Qed.

Lemma ptr_eqb_ne p q : p ≠ q → ptr_eqb p q = false.
Proof. unfold ptr_eqb. by apply bool_decide_eq_false_2. Qed.


(** Separation of address lists, and the decomposition of [NoDup]. *)

Lemma NoDup_app_sep (l k : list addr) : NoDup (l ++ k) ↔ NoDup l ∧ sep l k ∧ NoDup k.
Proof. apply NoDup_app. Qed.
Lemma NoDup_nil_True : NoDup (@nil addr) ↔ True.
Proof. split; [done|]. intros _. constructor. Qed.
Lemma sep_nil_l k : sep [] k ↔ True.
Proof. unfold sep. set_solver. Qed.
Lemma sep_nil_r l : sep l [] ↔ True.
Proof. unfold sep. set_solver. Qed.
Lemma sep_app_l l1 l2 k : sep (l1 ++ l2) k ↔ sep l1 k ∧ sep l2 k.
Proof. unfold sep. set_solver. Qed.
Lemma sep_app_r l k1 k2 : sep l (k1 ++ k2) ↔ sep l k1 ∧ sep l k2.
Proof. unfold sep. set_solver. Qed.
Lemma sep_cons_l a l k : sep (a :: l) k ↔ a ∉ k ∧ sep l k.
Proof. unfold sep. set_solver. Qed.
Lemma sep_cons_r a l k : sep l (a :: k) ↔ a ∉ l ∧ sep l k.
Proof. unfold sep. set_solver. Qed.
Lemma not_elem_of_nil_True (a : addr) : a ∉ @nil addr ↔ True.
Proof. set_solver. Qed.
Lemma sep_elem l k a b : sep l k → a ∈ l → b ∈ k → a ≠ b.
Proof. unfold sep. set_solver. Qed.

Ltac nd_norm H :=
  repeat first
    [ rewrite NoDup_app_sep in H
    | rewrite NoDup_cons in H
    | rewrite NoDup_nil_True in H
    | rewrite sep_app_l in H
    | rewrite sep_app_r in H
    | rewrite sep_cons_l in H
    | rewrite sep_cons_r in H
    | rewrite sep_nil_l in H
    | rewrite sep_nil_r in H
    | rewrite not_elem_of_app in H
    | rewrite not_elem_of_cons in H
    | rewrite not_elem_of_nil_True in H ];
  destruct_and? H.

Ltac notin_tac := first [assumption | congruence].

Ltac rep_tac := simpl; repeat (apply rep_insert_ne; [notin_tac|]); eassumption.

(* one step of symbolic execution of a goal [prog st = Ok ?r] *)
Ltac step1 :=
  lazymatch goal with
  | |- bind (bind _ _) _ _ = _ => rewrite bind_assoc
  | |- bind (rdN _ (Some _)) _ _ = _ => erewrite bind_Ok; [|apply rdN_Ok; lookup_tac]
  | |- bind (wrN _ (Some _)) _ _ = _ => erewrite bind_Ok; [|apply wrN_Ok; lookup_tac]
  | |- bind (rdT _ (Some _)) _ _ = _ => erewrite bind_Ok; [|apply rdT_Ok; lookup_tac]
  | |- bind (wrT _ (Some _)) _ _ = _ => erewrite bind_Ok; [|apply wrT_Ok; lookup_tac]
  | |- bind (ret _) _ _ = _ => erewrite bind_Ok; [|apply ret_Ok]
  | |- bind (sizeOrZero (rootp _)) _ _ = _ => erewrite bind_Ok; [|eapply sizeOrZero_rep; rep_tac]
  | |- rdN _ (Some _) _ = _ => erewrite rdN_Ok; [|lookup_tac]
  | |- wrN _ (Some _) _ = _ => erewrite wrN_Ok; [|lookup_tac]
  | |- rdT _ (Some _) _ = _ => erewrite rdT_Ok; [|lookup_tac]
  | |- wrT _ (Some _) _ = _ => erewrite wrT_Ok; [|lookup_tac]
  | |- ret _ _ = _ => rewrite ret_Ok
  end; simpl.

Lemma addrs_plug_eq c t t' : addrs t = addrs t' → addrs (plug c t) = addrs (plug c t').
Proof.
  revert t t'. induction c as [|[a v r|l a v] c IH]; intros t t' Hs; simpl; [done|..];
    apply IH; simpl; by rewrite Hs.
Qed.

Lemma elems_plug_eq c t t' : elems t = elems t' → elems (plug c t) = elems (plug c t').
Proof. intros Hs. by rewrite !elems_plug, Hs. Qed.

Lemma rootp_notin t a : a ∉ addrs t → rootp t ≠ Some a.
Proof. intros Ha Hr. by apply rootp_addrs in Hr. Qed.

Ltac unwrap :=
  repeat match goal with
         | |- context [wrap ?z] => rewrite (wrap_small z) by (simpl; lia)
         end.

Ltac node_eq :=
  unfold node_of, frame_node, Node.set_size, Node.set_parent, Node.set_left,
    Node.set_right, SplayTree.set_root, SplayTree.set_size; simpl;
  unwrap;
  do 2 (try f_equal); simpl; lia.


Lemma crep_size h c hp hs hs' : hs = hs' → crep h c hp hs → crep h c hp hs'.
Proof. by intros ->. Qed.

Ltac crep_tac :=
  simpl; repeat (apply crep_insert_ne; [notin_tac|]);
  first [eassumption | eapply crep_size; [|eassumption]; simpl; lia].

Ltac exec := repeat step1; reflexivity.

Ltac frame_tac :=
  let a := fresh "a" in let Ha := fresh "Ha" in
  intros a Ha; rewrite addrs_plug in Ha; simpl in Ha; nd_norm Ha;
  simpl; lk; reflexivity.

Ltac heap_goal :=
  lazymatch goal with
  | |- True => exact I
  | |- _ !! _ = Some _ => lk; first [assumption | node_eq]
  | |- rep _ _ _ => rep_tac
  | |- crep _ _ _ _ => crep_tac
  end.

Ltac rot_fin :=
  cbn [nodes trees]; split_and!;
  [ simpl; lk; first [done | node_eq]
  | apply rep_plug; simpl; split_and!; heap_goal
  | done
  | done
  | frame_tac
  | let u := fresh "u" in let Hu := fresh "Hu" in
    intros u Hu; apply not_elem_of_cons in Hu as [Hu _]; simpl; lk; done ].

Lemma rotateRight_spec st tree c A y vy B p vp C :
  wf st tree (plug c (T (T A y vy B) p vp C)) →
  ∃ st', _rotateRight (Some tree) (Some p) st = Ok (tt, st')
    ∧ wf st' tree (plug c (T A y vy (T B p vp C)))
    ∧ framed (addrs (plug c (T (T A y vy B) p vp C))) [tree] st st'.
Proof.
  destruct st as [h ts]. intros (Ht & Hrep & Hnd & Hsz). simpl in Ht, Hrep.
  apply rep_plug in Hrep as (Hc & Hp & (Hy & HA & HB) & HC).
  pose proof (tsize_plug_le c (T (T A y vy B) p vp C)) as Hle. simpl in Hle.
  pose proof (tsize_nonneg A). pose proof (tsize_nonneg B). pose proof (tsize_nonneg C).
  assert (tsize (T A y vy (T B p vp C)) = tsize (T (T A y vy B) p vp C)) as Hsame
    by (simpl; lia).
  assert (addrs (T A y vy (T B p vp C)) = addrs (T (T A y vy B) p vp C)) as Hsamea
    by (simpl; by rewrite <- app_assoc).
  unfold wf, framed.
  rewrite (tsize_plug c _ _ Hsame), (addrs_plug_eq c _ _ Hsamea).
  assert (NoDup (caddrs c ++ addrs (T (T A y vy B) p vp C))) as Hnd'
    by (by apply NoDup_plug).
  unfold _rotateRight, updateSize, replaceChild.
  destruct c as [|[g vg D|D g vg] c].
  - destruct B as [|Bl b vb Br]; simpl in * |-; nd_norm Hnd'.
    + eexists. split; [exec|]. rot_fin.
    + destruct HB as (Hb & HBl & HBr).
      eexists. split; [exec|]. rot_fin.
  - simpl in Hc. destruct Hc as (Hg & HD & Hc).
    rewrite (rootp_plug (FL g vg D :: c) (T A y vy (T B p vp C)) (T (T A y vy B) p vp C))
      by (by left).
    destruct B as [|Bl b vb Br]; simpl in * |-; nd_norm Hnd'.
    + eexists. split.
      { do 6 step1. rewrite ptr_eqb_refl. exec. } 
      rot_fin.
    + destruct HB as (Hb & HBl & HBr).
      eexists. split.
      { do 6 step1. rewrite ptr_eqb_refl. exec. } 
      rot_fin. 
  - simpl in Hc. destruct Hc as (Hg & HD & Hc).
    rewrite (rootp_plug (FR D g vg :: c) (T A y vy (T B p vp C)) (T (T A y vy B) p vp C))
      by (by left).
    destruct B as [|Bl b vb Br]; simpl in * |-; nd_norm Hnd'.
    + eexists. split.
      { do 6 step1. rewrite ptr_eqb_ne by (by apply not_eq_sym, rootp_notin). exec. } 
      rot_fin. 
    + destruct HB as (Hb & HBl & HBr).
      eexists. split.
      { do 6 step1. rewrite ptr_eqb_ne by (by apply not_eq_sym, rootp_notin). exec. } 
      rot_fin. 
Qed.

Lemma rotateLeft_spec st tree c A p vp B x vx C :
  wf st tree (plug c (T A p vp (T B x vx C))) →
  ∃ st', _rotateLeft (Some tree) (Some p) st = Ok (tt, st')
    ∧ wf st' tree (plug c (T (T A p vp B) x vx C))
    ∧ framed (addrs (plug c (T A p vp (T B x vx C)))) [tree] st st'.
Proof.
  destruct st as [h ts]. intros (Ht & Hrep & Hnd & Hsz). simpl in Ht, Hrep.
  apply rep_plug in Hrep as (Hc & Hp & HA & (Hx & HB & HC)).
  pose proof (tsize_plug_le c (T A p vp (T B x vx C))) as Hle. simpl in Hle.
  pose proof (tsize_nonneg A). pose proof (tsize_nonneg B). pose proof (tsize_nonneg C).
  assert (tsize (T (T A p vp B) x vx C) = tsize (T A p vp (T B x vx C))) as Hsame
    by (simpl; lia).
  assert (addrs (T (T A p vp B) x vx C) = addrs (T A p vp (T B x vx C))) as Hsamea
    by (simpl; by rewrite <- app_assoc).
  unfold wf, framed.
  rewrite (tsize_plug c _ _ Hsame), (addrs_plug_eq c _ _ Hsamea).
  assert (NoDup (caddrs c ++ addrs (T A p vp (T B x vx C)))) as Hnd'
    by (by apply NoDup_plug).
  unfold _rotateLeft, updateSize, replaceChild.
  destruct c as [|[g vg D|D g vg] c].
  - destruct B as [|Bl b vb Br]; simpl in * |-; nd_norm Hnd'.
    + eexists. split; [exec|]. rot_fin.
    + destruct HB as (Hb & HBl & HBr).
      eexists. split; [exec|]. rot_fin.
  - simpl in Hc. destruct Hc as (Hg & HD & Hc).
    rewrite (rootp_plug (FL g vg D :: c) (T (T A p vp B) x vx C) (T A p vp (T B x vx C)))
      by (by left).
    destruct B as [|Bl b vb Br]; simpl in * |-; nd_norm Hnd'.
    + eexists. split.
      { do 6 step1. rewrite ptr_eqb_refl. exec. }
      rot_fin.
    + destruct HB as (Hb & HBl & HBr).
      eexists. split.
      { do 6 step1. rewrite ptr_eqb_refl. exec. }
      rot_fin.
  - simpl in Hc. destruct Hc as (Hg & HD & Hc).
    rewrite (rootp_plug (FR D g vg :: c) (T (T A p vp B) x vx C) (T A p vp (T B x vx C)))
      by (by left).
    destruct B as [|Bl b vb Br]; simpl in * |-; nd_norm Hnd'.
    + eexists. split.
      { do 6 step1. rewrite ptr_eqb_ne by (by apply not_eq_sym, rootp_notin). exec. }
      rot_fin.
    + destruct HB as (Hb & HBl & HBr).
      eexists. split.
      { do 6 step1. rewrite ptr_eqb_ne by (by apply not_eq_sym, rootp_notin). exec. }
      rot_fin.
Qed.

(** ** Splaying *)

Lemma wf_node st tree c l a v r :
  wf st tree (plug c (T l a v r)) → nodes st !! a = Some (node_of (cpar c) l v r).
Proof. intros (_ & Hrep & _). apply rep_plug in Hrep as (_ & Ha & _). done. Qed.


Lemma elems_plug_node c A x v B :
  elems (plug c (T A x v B)) = (ebefore c ++ elems A) ++ (x, v) :: (elems B ++ eafter c).
Proof. rewrite elems_plug. simpl. by rewrite <- !app_assoc. Qed.

Lemma splay_step_elems c A B c' A' B' :
  splay_step c A B = (c', A', B') →
  ebefore c' ++ elems A' = ebefore c ++ elems A
  ∧ elems B' ++ eafter c' = elems B ++ eafter c.
Proof.
  intros Hs.
  destruct c as [|[p vp C|D p vp] [|[g vg D'|D' g vg] c0]]; simpl in Hs;
    injection Hs as <- <- <-; simpl; rewrite <- ?app_assoc; simpl;
    rewrite <- ?app_assoc; done.
Qed.

Lemma splay_step_length c A B c' A' B' :
  splay_step c A B = (c', A', B') → c ≠ [] → (length c' < length c)%nat.
Proof.
  intros Hs Hc.
  destruct c as [|[p vp C|D p vp] [|[g vg D'|D' g vg] c0]]; simpl in Hs;
    injection Hs as <- <- <-; simpl; try done; lia.
Qed.

Lemma addrs_of_elems t t' : elems t = elems t' → addrs t = addrs t'.
Proof. intros H. by rewrite !addrs_elems, H. Qed.

Lemma framed_refl F U st : framed F U st st.
Proof. by split. Qed.

Lemma framed_trans F U st1 st2 st3 :
  framed F U st1 st2 → framed F U st2 st3 → framed F U st1 st3.
Proof.
  intros [H1 H2] [H3 H4]. split.
  - intros a Ha. by rewrite H3, H1.
  - intros u Hu. by rewrite H4, H2.
Qed.


Lemma ptr_ne_root t a : a ∉ addrs t → Some a ≠ rootp t.
Proof. intros Ha Hr. by apply (rootp_notin t a). Qed.

Ltac ptr_ne_tac :=
  first [ apply ptr_ne_root; assumption | congruence ].

(* symbolic execution that also runs calls whose result is a hypothesis *)
Ltac step2 :=
  lazymatch goal with
  | |- (if ptr_eqb ?p ?p then _ else _) _ = _ => rewrite ptr_eqb_refl
  | |- (if ptr_eqb ?p ?q then _ else _) _ = _ => rewrite (ptr_eqb_ne p q) by ptr_ne_tac
  | |- bind (if ptr_eqb ?p ?p then _ else _) _ _ = _ => rewrite ptr_eqb_refl
  | |- bind (if ptr_eqb ?p ?q then _ else _) _ _ = _ =>
      rewrite (ptr_eqb_ne p q) by ptr_ne_tac
  | |- _ => first [ step1 | erewrite bind_Ok; [|eassumption]; simpl | eassumption ]
  end.

Ltac run := repeat step2; try reflexivity.


Lemma framed_eq F F' U st st' : F = F' → framed F U st st' → framed F' U st st'.
Proof. by intros ->. Qed.

Ltac same_addrs :=
  simpl; apply addrs_plug_eq; simpl; rewrite <- ?app_assoc; simpl;
  rewrite <- ?app_assoc; reflexivity.

Ltac framed2 H0 H1 :=
  eapply framed_trans; [exact H0|]; eapply framed_eq; [|exact H1]; same_addrs.

Lemma splay_body_spec st tree f c A x v B :
  wf st tree (plug (f :: c) (T A x v B)) →
  ∃ st' c' A' B',
    _splay_body (Some tree) (Some x) (Some (faddr f)) st = Ok (tt, st')
    ∧ splay_step (f :: c) A B = (c', A', B')
    ∧ wf st' tree (plug c' (T A' x v B'))
    ∧ framed (addrs (plug (f :: c) (T A x v B))) [tree] st st'.
Proof.
  intros Hwf.
  pose proof (wf_node _ _ _ _ _ _ _ Hwf) as Hx.
  assert (NoDup (caddrs (f :: c) ++ addrs (T A x v B))) as Hnd.
  { apply NoDup_plug. apply Hwf. }
  unfold _splay_body.
  destruct f as [p vp C|D p vp].
  - pose proof (wf_node st tree c (T A x v B) p vp C Hwf) as Hp.
    destruct c as [|[g vg D'|D' g vg] c]; simpl in Hnd; nd_norm Hnd.
    + (* zig, left child *)
      destruct (rotateRight_spec st tree [] A x v B p vp C Hwf)
        as (st1 & Hrun & Hwf1 & Hfr1).
      exists st1, [], A, (T B p vp C). split_and!; [run|done..].
    + (* zig-zig, left-left *)
      pose proof (wf_node st tree c (T (T A x v B) p vp C) g vg D' Hwf) as Hg.
      destruct (rotateRight_spec st tree c (T A x v B) p vp C g vg D' Hwf)
        as (st0 & Hrun0 & Hwf0 & Hfr0).
      destruct (rotateRight_spec st0 tree c A x v B p vp (T C g vg D') Hwf0)
        as (st1 & Hrun1 & Hwf1 & Hfr1).
      exists st1, c, A, (T B p vp (T C g vg D')). split_and!; [run|done..|].
      framed2 Hfr0 Hfr1.
    + (* zig-zag, left child of a right child *)
      pose proof (wf_node st tree c D' g vg (T (T A x v B) p vp C) Hwf) as Hg.
      destruct (rotateRight_spec st tree (FR D' g vg :: c) A x v B p vp C Hwf)
        as (st0 & Hrun0 & Hwf0 & Hfr0).
      destruct (rotateLeft_spec st0 tree c D' g vg A x v (T B p vp C) Hwf0)
        as (st1 & Hrun1 & Hwf1 & Hfr1).
      exists st1, c, (T D' g vg A), (T B p vp C). split_and!; [run|done..|].
      framed2 Hfr0 Hfr1.
  - pose proof (wf_node st tree c D p vp (T A x v B) Hwf) as Hp.
    destruct c as [|[g vg D'|D' g vg] c]; simpl in Hnd; nd_norm Hnd.
    + (* zig, right child *)
      destruct (rotateLeft_spec st tree [] D p vp A x v B Hwf)
        as (st1 & Hrun & Hwf1 & Hfr1).
      exists st1, [], (T D p vp A), B. split_and!; [run|done..].
    + (* zig-zag, right child of a left child *)
      pose proof (wf_node st tree c (T D p vp (T A x v B)) g vg D' Hwf) as Hg.
      destruct (rotateLeft_spec st tree (FL g vg D' :: c) D p vp A x v B Hwf)
        as (st0 & Hrun0 & Hwf0 & Hfr0).
      destruct (rotateRight_spec st0 tree c (T D p vp A) x v B g vg D' Hwf0)
        as (st1 & Hrun1 & Hwf1 & Hfr1).
      exists st1, c, (T D p vp A), (T B g vg D'). split_and!; [run|done..|].
      framed2 Hfr0 Hfr1.
    + (* zig-zig, right-right *)
      pose proof (wf_node st tree c D' g vg (T D p vp (T A x v B)) Hwf) as Hg.
      destruct (rotateLeft_spec st tree c D' g vg D p vp (T A x v B) Hwf)
        as (st0 & Hrun0 & Hwf0 & Hfr0).
      destruct (rotateLeft_spec st0 tree c (T D' g vg D) p vp A x v B Hwf0)
        as (st1 & Hrun1 & Hwf1 & Hfr1).
      exists st1, c, (T (T D' g vg D) p vp A), B. split_and!; [run|done..|].
      framed2 Hfr0 Hfr1.
Qed.

Lemma splay_loop_spec fuel : ∀ st tree c A x v B,
  wf st tree (plug c (T A x v B)) →
  (length c ≤ fuel)%nat →
  ∃ st' L R,
    _splay_loop fuel (Some tree) (Some x) (cpar c) st = Ok (tt, st')
    ∧ wf st' tree (T L x v R)
    ∧ elems L = ebefore c ++ elems A
    ∧ elems R = elems B ++ eafter c
    ∧ framed (addrs (plug c (T A x v B))) [tree] st st'.
Proof.
  induction (lt_wf fuel) as [fuel _ IH]. intros st tree c A x v B Hwf Hlen.
  destruct c as [|f c].
  - exists st, A, B. destruct fuel; simpl; rewrite ?app_nil_r; split_and!; try done;
      apply framed_refl.
  - destruct fuel as [|fuel]; [simpl in Hlen; lia|].
    destruct (splay_body_spec st tree f c A x v B Hwf)
      as (st1 & c' & A' & B' & Hrun & Hstep & Hwf1 & Hfr1).
    pose proof (splay_step_length _ _ _ _ _ _ Hstep ltac:(done)) as Hl.
    pose proof (splay_step_elems _ _ _ _ _ _ Hstep) as [He1 He2].
    assert (length c' ≤ fuel)%nat as Hlen' by (simpl in *; lia).
    destruct (IH fuel ltac:(lia) st1 tree c' A' x v B' Hwf1 Hlen')
      as (st2 & L & R & Hrun2 & Hwf2 & HL & HR & Hfr2).
    exists st2, L, R.
    pose proof (wf_node _ _ _ _ _ _ _ Hwf1) as Hx.
    split_and!.
    + simpl. run.
    + done.
    + by rewrite HL.
    + by rewrite HR.
    + eapply framed_trans; [done|]. eapply framed_eq; [|done].
      apply addrs_of_elems. by rewrite !elems_plug_node, He1, He2.
Qed.

(** ** Descent by rank and [orderStatisticZeroBasedRanking] *)

Lemma wf_rep_hole st tree c t : wf st tree (plug c t) → rep (nodes st) (cpar c) t.
Proof. intros (_ & Hrep & _). by apply rep_plug in Hrep as (_ & ?). Qed.

Lemma ebefore_length_FR l a v c :
  length (ebefore (FR l a v :: c)) = (length (ebefore c) + length (elems l) + 1)%nat.
Proof. simpl. rewrite !length_app. simpl. lia. Qed.

Lemma shape_E_dec (t : shape) : {t = E} + {t ≠ E}.
Proof. destruct t; [by left|by right]. Qed.

Lemma tsize_pos t : t ≠ E → 0 < tsize t.
Proof.
  destruct t as [|l a v r]; [done|]. intros _. simpl.
  pose proof (tsize_nonneg l). pose proof (tsize_nonneg r). lia.
Qed.

Lemma descend_spec s : ∀ st tree c k fuel,
  wf st tree (plug c s) → s ≠ E → 0 ≤ k < UINT_RANGE → (height s ≤ fuel)%nat →
  ∃ c' A x v B,
    descend fuel (rootp s) k st = Ok (Some x, st)
    ∧ plug c' (T A x v B) = plug c s
    ∧ Z.of_nat (length (ebefore c' ++ elems A))
      = Z.of_nat (length (ebefore c)) + Z.min k (tsize s - 1)
    ∧ (length c' < length c + height s)%nat.
Proof.
  induction s as [|l IHl a v r IHr]; intros st tree c k fuel Hwf Hne Hk Hfuel; [done|].
  destruct fuel as [|fuel]; [simpl in Hfuel; lia|].
  pose proof (wf_node _ _ _ _ _ _ _ Hwf) as Ha.
  pose proof (wf_rep_hole _ _ _ _ Hwf) as (_ & Hl & Hr).
  pose proof (tsize_nonneg l). pose proof (tsize_nonneg r).
  pose proof (tsize_plug_le c (T l a v r)) as Hle. 
  pose proof Hwf as (Ht & Hrep & Hnd & Hsz).
  simpl in Hle, Hfuel. simpl descend. simpl rootp.
  destruct (k =? tsize l) eqn:E1.
  { apply Z.eqb_eq in E1 as E1'.
    exists c, l, a, v, r. split_and!; [|done|..].
    - run. by rewrite E1.
    - rewrite length_app, Nat2Z.inj_add, <- tsize_length. simpl. lia.
    - simpl. lia. }
  apply Z.eqb_neq in E1 as E1'.
  destruct (k <? tsize l) eqn:E2.
  - apply Z.ltb_lt in E2 as E2'.
    assert (l ≠ E) as Hl0 by (intros ->; simpl in *; lia).
    destruct (IHl st tree (FL a v r :: c) k fuel Hwf Hl0 Hk ltac:(lia))
      as (c' & A & x & vx & B & Hrun & Hplug & Hpos & Hlen).
    exists c', A, x, vx, B. split_and!; [|done|..].
    + run. rewrite E1, E2. by destruct l.
    + rewrite Hpos. simpl ebefore. simpl tsize in *. lia.
    + simpl in *. lia.
  - apply Z.ltb_ge in E2 as E2'.
    destruct (shape_E_dec r) as [->|Hr0].
    + exists c, l, a, v, E. split_and!; [|done|..].
      * run. rewrite E1, E2. done.
      * rewrite length_app, Nat2Z.inj_add, <- tsize_length. simpl. lia.
      * simpl. lia.
    + pose proof (tsize_pos r Hr0).
      assert (0 ≤ k - tsize l - 1 < UINT_RANGE) as Hk' by lia.
      destruct (IHr st tree (FR l a v :: c) (k - tsize l - 1) fuel Hwf Hr0 Hk'
                  ltac:(lia))
        as (c' & A & x & vx & B & Hrun & Hplug & Hpos & Hlen).
      exists c', A, x, vx, B. split_and!; [|done|..].
      * run. rewrite E1, E2.
        rewrite (wrap_small (k - tsize l)) by lia.
        rewrite (wrap_small (k - tsize l - 1)) by lia. by destruct r.
      * rewrite Hpos, ebefore_length_FR, !Nat2Z.inj_add, <- tsize_length.
        simpl tsize in *. lia.
      * simpl in *. lia.
Qed.

Lemma nth_elems_plug c A x v B :
  elems (plug c (T A x v B)) !! length (ebefore c ++ elems A) = Some (x, v).
Proof. rewrite elems_plug_node. by apply list_lookup_middle. Qed.

(** [orderStatisticZeroBasedRanking] on a non-empty tree, for every [k]:
    the node at position [min k (size - 1)] is found and splayed to the
    root. *)
Lemma locate_spec st tree t k fuel :
  wf st tree t → t ≠ E → 0 ≤ k < UINT_RANGE → (height t ≤ fuel)%nat →
  ∃ st' L x v R,
    orderStatisticZeroBasedRanking fuel (Some tree) k st = Ok (Some x, st')
    ∧ wf st' tree (T L x v R)
    ∧ elems t = elems L ++ (x, v) :: elems R
    ∧ tsize L = Z.min k (tsize t - 1)
    ∧ framed (addrs t) [tree] st st'.
Proof.
  intros Hwf Hne Hk Hfuel.
  destruct (descend_spec t st tree [] k fuel Hwf Hne Hk Hfuel)
    as (c & A & x & v & B & Hrun & Hplug & Hpos & Hlen).
  simpl in Hplug, Hpos, Hlen. subst t.
  assert (length c ≤ fuel)%nat as Hlen' by lia.
  destruct (splay_loop_spec fuel st tree c A x v B Hwf Hlen')
    as (st' & L & R & Hrun' & Hwf' & HL & HR & Hfr).
  exists st', L, x, v, R.
  pose proof (wf_node _ _ _ _ _ _ _ Hwf) as Hx.
  pose proof Hwf as (Ht & _).
  split_and!; [|done|..|done].
  - unfold orderStatisticZeroBasedRanking, _splay. run. 
  - by rewrite elems_plug_node, HL, HR.
  - rewrite tsize_length, HL, Hpos. lia.
Qed.

Lemma locate_empty st tree k fuel :
  wf st tree E →
  orderStatisticZeroBasedRanking fuel (Some tree) k st = Ok (None, st).
Proof.
  intros (Ht & _). unfold orderStatisticZeroBasedRanking, _splay.
  run. by destruct fuel.
Qed.

(** ** Allocation and [split] *)

Lemma fresh_addr_above {V} (m : gmap positive V) k :
  is_Some (m !! k) → (k < fresh_addr m)%positive.
Proof.
  unfold fresh_addr. revert k.
  apply (map_fold_weak_ind (λ r m, ∀ k, is_Some (m !! k) → (k < r)%positive)).
  - intros k [x Hx]. by rewrite lookup_empty in Hx.
  - intros i x m' r Hi IH k Hk.
    destruct (decide (i = k)) as [->|Hne].
    + lia.
    + rewrite lookup_insert_ne in Hk by done. specialize (IH k Hk). lia.
Qed.

Lemma fresh_addr_None {V} (m : gmap positive V) : m !! fresh_addr m = None.
Proof.
  destruct (m !! fresh_addr m) eqn:Hm; [|done].
  pose proof (fresh_addr_above m (fresh_addr m) ltac:(eauto)). lia.
Qed.

Lemma fresh_addr_ne {V} (m : gmap positive V) k : is_Some (m !! k) → fresh_addr m ≠ k.
Proof. intros Hk Heq. rewrite <- Heq, fresh_addr_None in Hk. by destruct Hk. Qed.

Lemma mallocT_Ok s st :
  mallocT s st
  = Ok (Some (fresh_addr (trees st)),
        State (nodes st) (<[fresh_addr (trees st) := s]> (trees st))).
Proof. done. Qed.

Lemma mallocN_Ok n st :
  mallocN n st
  = Ok (Some (fresh_addr (nodes st)),
        State (<[fresh_addr (nodes st) := n]> (nodes st)) (trees st)).
Proof. done. Qed.

Ltac step3 :=
  lazymatch goal with
  | |- bind (mallocT _) _ _ = _ => erewrite bind_Ok; [|apply mallocT_Ok]; simpl
  | |- bind (mallocN _) _ _ = _ => erewrite bind_Ok; [|apply mallocN_Ok]; simpl
  | |- bind (sizeOrZero None) _ _ = _ => erewrite bind_Ok; [|apply ret_Ok]; simpl
  | |- _ => step2
  end.

Ltac run3 := repeat step3; try reflexivity.

Lemma wf_framed st st' u t F U :
  wf st u t → framed F U st st' → u ∉ U → sep (addrs t) F → wf st' u t.
Proof.
  intros (Ht & Hrep & Hnd & Hsz) [Hfn Hft] Hu Hsep. split_and!; try done.
  - by rewrite Hft.
  - eapply rep_frame; [|done]. intros a Ha. apply Hfn. by apply Hsep.
Qed.

Lemma NoDup_split_at (l r : list addr) a :
  NoDup (l ++ a :: r) → NoDup (l ++ [a]) ∧ NoDup r ∧ sep (l ++ [a]) r.
Proof.
  intros H. nd_norm H. split_and!.
  - apply NoDup_app_sep. split_and!; [done| |apply NoDup_singleton].
    apply sep_cons_r. split; [done|]. by apply sep_nil_r.
  - done.
  - apply sep_app_l. split; [done|]. apply sep_cons_l. split; [done|]. by apply sep_nil_l.
Qed.


Ltac tframe_tac :=
  let u := fresh "u" in let Hu := fresh "Hu" in
  intros u Hu; rewrite ?not_elem_of_cons in Hu; destruct_and? Hu; simpl; lk.


Lemma wf_intro st u t :
  trees st !! u = Some (SplayTree.mk (rootp t) (tsize t)) →
  rep (nodes st) None t → NoDup (addrs t) → tsize t < UINT_RANGE → wf st u t.
Proof. by intros; split_and!. Qed.

Lemma notin1 (u a : addr) : u ≠ a → u ∉ [a].
Proof. intros. apply not_elem_of_cons. split; [done|]. apply not_elem_of_nil. Qed.

Lemma split_spec st tree t rank fuel :
  wf st tree t → t ≠ E → 0 ≤ rank < UINT_RANGE → (height t ≤ fuel)%nat →
  ∃ st' t1 t2 L x v R,
    split fuel (Some tree) rank st = Ok ((Some t1, Some t2), st')
    ∧ wf st' t1 (T L x v E)
    ∧ wf st' t2 R
    ∧ elems t = elems L ++ (x, v) :: elems R
    ∧ tsize L = Z.min rank (tsize t - 1)
    ∧ trees st !! t1 = None ∧ trees st !! t2 = None ∧ t1 ≠ t2
    ∧ framed (addrs t) [tree; t1; t2] st st'.
Proof.
  intros Hwf Hne Hk Hfuel.
  destruct (locate_spec st tree t rank fuel Hwf Hne Hk Hfuel)
    as (st1 & L & x & v & R & Hrun & Hwf1 & Hel & Hpos & Hfr).
  destruct st1 as [h1 ts1].
  pose proof Hwf1 as (Ht1 & Hrep1 & Hnd1 & Hsz1).
  simpl in Ht1, Hrep1, Hnd1, Hsz1. destruct Hrep1 as (Hx & HL & HR).
  pose proof (tsize_nonneg L). pose proof (tsize_nonneg R).
  assert (addrs t = addrs L ++ x :: addrs R) as Hat.
  { rewrite (addrs_of_elems t (T L x v R)); done. }
  destruct Hfr as [Hfn Hft]. simpl in Hfn, Hft.
  unfold split, updateSize, createTree.
  assert (NoDup (addrs L ++ [x])) as HndL by (by apply NoDup_split_at in Hnd1 as (? & _)).
  set (a1 := fresh_addr ts1).
  assert (a1 ≠ tree) as Ha1 by (apply fresh_addr_ne; eauto).
  assert (ts1 !! a1 = None) as Ha1' by apply fresh_addr_None.
  assert (trees st !! a1 = None) as Ha1''.
  { rewrite <- Hft; [done|]. by apply notin1. }
  destruct R as [|Rl r vr Rr]; simpl in * |-; nd_norm Hnd1.
  - eexists _, _, _, L, x, v, E. split; [run3|].
    rewrite !insert_insert_eq. fold a1.
    match goal with |- context [fresh_addr ?m] => set (m1 := m) end.
    set (a2 := fresh_addr m1).
    assert (a2 ≠ a1) as Ha2
      by (apply fresh_addr_ne; unfold m1; rewrite lookup_insert_eq; eauto).
    assert (a2 ≠ tree) as Ha2'.
    { apply fresh_addr_ne. unfold m1. rewrite lookup_insert_ne by done. eauto. }
    assert (ts1 !! a2 = None) as Ha2''.
    { assert (m1 !! a2 = None) as Hm by apply fresh_addr_None.
      unfold m1 in Hm. by rewrite lookup_insert_ne in Hm. }
    split_and!; [| |done|done|done| |done|].
    + apply wf_intro; cbn [nodes trees].
      * unfold m1. lk. node_eq.
      * simpl. split_and!; heap_goal.
      * done.
      * simpl. lia.
    + apply wf_intro; cbn [nodes trees]; [by lk|done|constructor|done].
    + rewrite <- Hft; [done|]. by apply notin1.
    + split; cbn [nodes trees].
      * intros a Ha. rewrite <- Hfn by done. rewrite Hat in Ha. nd_norm Ha. by lk.
      * tframe_tac. unfold m1. lk. apply Hft. by apply notin1.
  - destruct HR as (Hr & HRl & HRr).
    eexists _, _, _, L, x, v, (T Rl r vr Rr). split; [run3|].
    rewrite !insert_insert_eq. fold a1.
    match goal with |- context [fresh_addr ?m] => set (m1 := m) end.
    set (a2 := fresh_addr m1).
    assert (a2 ≠ a1) as Ha2
      by (apply fresh_addr_ne; unfold m1; rewrite lookup_insert_eq; eauto).
    assert (a2 ≠ tree) as Ha2'.
    { apply fresh_addr_ne. unfold m1. rewrite lookup_insert_ne by done. eauto. }
    assert (ts1 !! a2 = None) as Ha2''.
    { assert (m1 !! a2 = None) as Hm by apply fresh_addr_None.
      unfold m1 in Hm. by rewrite lookup_insert_ne in Hm. }
    split_and!; [| |done|done|done| |done|].
    + apply wf_intro; cbn [nodes trees].
      * unfold m1. lk. node_eq.
      * simpl. split_and!; heap_goal.
      * done.
      * simpl. lia.
    + apply wf_intro; cbn [nodes trees].
      * lk. node_eq.
      * simpl. split_and!; heap_goal.
      * simpl. apply NoDup_app_sep. split_and!; [done| |by apply NoDup_cons].
        by apply sep_cons_r.
      * simpl. lia.
    + rewrite <- Hft; [done|]. by apply notin1.
    + split; cbn [nodes trees].
      * intros a Ha. rewrite <- Hfn by done. rewrite Hat in Ha. simpl in Ha.
        nd_norm Ha. by lk.
      * tframe_tac. unfold m1. lk. apply Hft. by apply notin1.
Qed.

(** ** [subtreeMaximum] and [merge] *)

Lemma elems_nil t : elems t = [] → t = E.
Proof. destruct t as [|l a v r]; [done|]. simpl. intros H. by destruct (elems l). Qed.

Lemma rightmost_spec s : ∀ st tree c fuel,
  wf st tree (plug c s) → s ≠ E → (height s ≤ fuel)%nat →
  ∃ c' A m vm,
    rightmost fuel (rootp s) st = Ok (Some m, st)
    ∧ plug c' (T A m vm E) = plug c s
    ∧ eafter c' = eafter c
    ∧ (length c' < length c + height s)%nat.
Proof.
  induction s as [|l IHl a v r IHr]; intros st tree c fuel Hwf Hne Hfuel; [done|].
  pose proof (wf_node _ _ _ _ _ _ _ Hwf) as Ha.
  destruct (shape_E_dec r) as [->|Hr0].
  - exists c, l, a, v. split_and!; [|done|done|simpl; lia].
    destruct fuel; simpl; run.
  - destruct fuel as [|fuel]; [simpl in Hfuel; lia|].
    destruct (IHr st tree (FR l a v :: c) fuel Hwf Hr0 ltac:(simpl in *; lia))
      as (c' & A & m & vm & Hrun & Hplug & Haft & Hlen).
    exists c', A, m, vm. split_and!; [|done|done|simpl in *; lia].
    simpl. run. by destruct r.
Qed.

Lemma subtreeMaximum_spec st tree t fuel :
  wf st tree t → t ≠ E → (height t ≤ fuel)%nat →
  ∃ st' L m vm,
    subtreeMaximum fuel (Some tree) (rootp t) st = Ok (Some m, st')
    ∧ wf st' tree (T L m vm E)
    ∧ elems t = elems L ++ [(m, vm)]
    ∧ framed (addrs t) [tree] st st'.
Proof.
  intros Hwf Hne Hfuel.
  destruct (rightmost_spec t st tree [] fuel Hwf Hne Hfuel)
    as (c & A & m & vm & Hrun & Hplug & Haft & Hlen).
  simpl in Hplug, Haft, Hlen. subst t.
  assert (length c ≤ fuel)%nat as Hlen' by lia.
  destruct (splay_loop_spec fuel st tree c A m vm E Hwf Hlen')
    as (st' & L & R & Hrun' & Hwf' & HL & HR & Hfr).
  rewrite Haft in HR. simpl in HR. apply elems_nil in HR as ->.
  exists st', L, m, vm.
  pose proof (wf_node _ _ _ _ _ _ _ Hwf) as Hx.
  split_and!; [|done| |done].
  - unfold subtreeMaximum, _splay. destruct (plug c (T A m vm E)) eqn:Hp; [done|].
    simpl in Hrun |- *. run.
  - by rewrite elems_plug_node, HL, Haft.
Qed.


Lemma height_fuel t fuel : (Z.to_nat (tsize t) ≤ fuel)%nat → (height t ≤ fuel)%nat.
Proof. pose proof (height_le_size t). lia. Qed.

Lemma nullOrEmpty_own st p t :
  own st p t → nullOrEmpty p st = Ok (match t with E => true | _ => false end, st).
Proof.
  destruct p as [u|]; simpl.
  - intros (Ht & _). unfold nullOrEmpty. run. by destruct t.
  - by intros ->.
Qed.

Lemma merge_spec st p1 t1 p2 t2 fuel :
  own st p1 t1 → own st p2 t2 →
  sep (addrs t1) (addrs t2) →
  tsize t1 + tsize t2 < UINT_RANGE →
  (height t1 ≤ fuel)%nat →
  ∃ st' p t',
    merge fuel p1 p2 st = Ok (p, st')
    ∧ own st' p t'
    ∧ elems t' = elems t1 ++ elems t2
    ∧ (p = p1 ∨ p = p2)
    ∧ framed (addrs t1 ++ addrs t2) (handles p1) st st'.
Proof.
  intros H1 H2 Hsep Hsz Hfuel.
  pose proof (nullOrEmpty_own _ _ _ H1) as He1.
  pose proof (nullOrEmpty_own _ _ _ H2) as He2.
  unfold merge.
  destruct (shape_E_dec t1) as [->|Hne1].
  { exists st, p2, t2. split_and!; [run|done|done|by right|apply framed_refl]. }
  destruct (shape_E_dec t2) as [->|Hne2].
  { exists st, p1, t1. split_and!; [|done|by rewrite app_nil_r|by left|apply framed_refl].
    destruct t1; [done|]. run. }
  destruct p1 as [u1|]; [|done]. destruct p2 as [u2|]; [|done].
  simpl in H1, H2.
  assert (u2 ≠ u1) as Hu.
  { intros ->. destruct H1 as (Ht1 & _). destruct H2 as (Ht2 & _).
    rewrite Ht1 in Ht2. injection Ht2 as Hr _.
    destruct t1 as [|l1 a1 v1 r1]; [done|]. simpl in Hr.
    symmetry in Hr. apply rootp_addrs in Hr. apply (Hsep a1); [|done].
    simpl. set_solver. }
  destruct (subtreeMaximum_spec st u1 t1 fuel H1 Hne1 Hfuel)
    as (st1 & L & m & vm & Hrun & Hwf1 & Hel & Hfr).
  assert (wf st1 u2 t2) as Hwf2.
  { eapply wf_framed; [done|done|by apply notin1|].
    intros a Ha Ha'. by apply (Hsep a). }
  assert (addrs t1 = addrs L ++ [m]) as Hat.
  { rewrite (addrs_of_elems t1 (T L m vm E)); [done|]. by rewrite Hel. }
  assert (tsize t1 = tsize L + 1) as Hst.
  { rewrite !tsize_length, Hel, length_app. simpl. lia. }
  pose proof (proj1 H1) as Ht1. pose proof (proj1 H2) as Ht2.
  destruct st1 as [h1 ts1].
  pose proof Hwf1 as (Ht1' & (Hm & HL & _) & Hnd1 & _).
  pose proof Hwf2 as (Ht2' & Hrep2 & Hnd2 & _).
  simpl in Ht1', Ht2', Hm, HL, Hrep2, Hnd1.
  rewrite Hat in Hsep.
  destruct t1 as [|l1 a1 v1 r1]; [done|].
  destruct t2 as [|l2 a2 v2 r2]; [done|].
  destruct Hrep2 as (Ha2 & Hl2 & Hr2).
  pose proof (tsize_nonneg L). pose proof (tsize_nonneg l2). pose proof (tsize_nonneg r2).
  simpl in * |-. pose proof Hnd2 as Hnd2'. nd_norm Hsep. nd_norm Hnd1. nd_norm Hnd2.
  eexists _, (Some u1), (T L m vm (T l2 a2 v2 r2)).
  split; [simpl in Hrun; unfold updateSize; run3|].
  assert (sep [m] (addrs l2 ++ a2 :: addrs r2)) as Hsm.
  { apply sep_cons_l. split; [|by apply sep_nil_l].
    apply not_elem_of_app. split; [done|]. by apply not_elem_of_cons. }
  split_and!.
  - apply wf_intro; cbn [nodes trees].
    + lk. node_eq.
    + simpl. split_and!; heap_goal.
    + simpl. apply NoDup_app_sep. split_and!; [done| |].
      * apply sep_cons_r. split; [done|]. apply sep_app_r. split; [done|].
        by apply sep_cons_r.
      * apply NoDup_cons. split; [|done]. 
        apply not_elem_of_app. split; [done|]. by apply not_elem_of_cons.
    + simpl in *. lia.
  - simpl. rewrite Hel. simpl. by rewrite <- app_assoc.
  - by left.
  - destruct Hfr as [Hfn Hft]. split; cbn [nodes trees].
    + intros a Ha. simpl in Hfn. rewrite <- Hfn.
      * simpl in Ha. rewrite Hat in Ha. nd_norm Ha. by lk.
      * simpl in Ha. rewrite not_elem_of_app in Ha. by destruct Ha.
    + simpl. tframe_tac. by apply Hft, notin1.
Qed.

(** ** Forests and [process] *)

Lemma f_size_nonneg l : 0 ≤ f_size l.
Proof. induction l as [|[p t] l IH]; simpl; [done|]. pose proof (tsize_nonneg t). lia. Qed.

Lemma own_handle st p t u : own st p t → u ∈ handles p → is_Some (trees st !! u).
Proof.
  destruct p as [a|]; simpl; [|by intros _ ?%elem_of_nil].
  intros (Ht & _) Hu. apply list_elem_of_singleton in Hu as ->. eauto.
Qed.

Lemma forest_handle st l u :
  Forall (λ pt, own st pt.1 pt.2) l → u ∈ f_handles l → is_Some (trees st !! u).
Proof.
  induction 1 as [|[p t] l Hown _ IH]; simpl; [by intros ?%elem_of_nil|].
  intros [Hu|Hu]%elem_of_app; [by eapply own_handle|by apply IH].
Qed.

Lemma own_framed st st' p t F U :
  own st p t → framed F U st st' → sep (handles p) U → sep (addrs t) F → own st' p t.
Proof.
  destruct p as [u|]; simpl; [|done].
  intros Hwf Hfr Hu Hsep. eapply wf_framed; [done..| |done].
  apply Hu. by apply list_elem_of_singleton.
Qed.

Lemma forest_framed st st' l F U :
  Forall (λ pt, own st pt.1 pt.2) l → framed F U st st' →
  sep (f_handles l) U → sep (f_addrs l) F →
  Forall (λ pt, own st' pt.1 pt.2) l.
Proof.
  induction 1 as [|[p t] l Hown _ IH]; simpl; intros Hfr HU HF; [done|].
  apply sep_app_l in HU as [? ?]. apply sep_app_l in HF as [? ?].
  constructor; [by eapply own_framed|by apply IH].
Qed.

Lemma forest_swap st a b l : forest st (a :: b :: l) → forest st (b :: a :: l).
Proof.
  intros (Hall & Hna & Hnh & Hsz). split_and!.
  - inversion Hall as [|? ? Ha Hall']; subst. inversion Hall' as [|? ? Hb Hl]; subst.
    by repeat constructor.
  - simpl in *. rewrite app_assoc in *.
    eapply NoDup_Permutation_proper; [|exact Hna].
    apply Permutation_app_tail, Permutation_app_comm.
  - simpl in *. rewrite app_assoc in *.
    eapply NoDup_Permutation_proper; [|exact Hnh].
    apply Permutation_app_tail, Permutation_app_comm.
  - simpl in *. lia.
Qed.

Lemma forest_tail st a l : forest st (a :: l) → forest st l.
Proof.
  intros (Hall & Hna & Hnh & Hsz). split_and!.
  - by inversion Hall.
  - simpl in Hna. by apply NoDup_app_sep in Hna as (_ & _ & ?).
  - simpl in Hnh. by apply NoDup_app_sep in Hnh as (_ & _ & ?).
  - simpl in Hsz. pose proof (tsize_nonneg a.2). lia.
Qed.

Lemma forest_swap23 st a b c l : forest st (a :: b :: c :: l) → forest st (a :: c :: b :: l).
Proof.
  intros H. pose proof (forest_tail _ _ _ H) as Ht. apply forest_swap in Ht.
  destruct H as (Hall & Hna & Hnh & Hsz). destruct Ht as (Hall' & Hna' & Hnh' & Hsz').
  split_and!.
  - inversion Hall; subst. by constructor.
  - simpl in *. apply NoDup_app_sep in Hna as (? & Hs & ?).
    apply NoDup_app_sep. split_and!; [done| |done].
    intros x Hx Hx'. apply (Hs x Hx). set_solver.
  - simpl in *. apply NoDup_app_sep in Hnh as (? & Hs & ?).
    apply NoDup_app_sep. split_and!; [done| |done].
    intros x Hx Hx'. apply (Hs x Hx). set_solver.
  - simpl in *. lia.
Qed.

Lemma forest_null st l : forest st l → forest st ((None, E) :: l).
Proof.
  intros (Hall & Hna & Hnh & Hsz). split_and!; simpl; try done. by constructor.
Qed.

Lemma take_drop_at {A} (l r : list A) x n :
  length l = n →
  take (S n) (l ++ x :: r) = l ++ [x] ∧ drop (S n) (l ++ x :: r) = r.
Proof.
  intros <-. rewrite cons_middle, app_assoc. split.
  - apply take_app_length'. rewrite length_app. simpl. lia.
  - apply drop_app_length'. rewrite length_app. simpl. lia.
Qed.

Lemma split_forest st tree t l rank fuel :
  forest st ((Some tree, t) :: l) → t ≠ E → 0 ≤ rank < tsize t →
  (Z.to_nat (f_size ((Some tree, t) :: l)) ≤ fuel)%nat →
  ∃ st' t1 t2 T1 T2,
    split fuel (Some tree) rank st = Ok ((Some t1, Some t2), st')
    ∧ forest st' ((Some t1, T1) :: (Some t2, T2) :: l)
    ∧ elems T1 = take (S (Z.to_nat rank)) (elems t)
    ∧ elems T2 = drop (S (Z.to_nat rank)) (elems t)
    ∧ f_size ((Some t1, T1) :: (Some t2, T2) :: l) = f_size ((Some tree, t) :: l).
Proof.
  intros (Hall & Hna & Hnh & Hsz) Hne Hrank Hfuel.
  inversion Hall as [|? ? Hwf Hl]; subst. simpl in Hwf, Hna, Hnh, Hsz, Hfuel.
  pose proof (f_size_nonneg l). pose proof (tsize_nonneg t).
  destruct (split_spec st tree t rank fuel Hwf Hne ltac:(lia)
              ltac:(apply height_fuel; lia))
    as (st' & t1 & t2 & L & x & v & R & Hrun & Hwf1 & Hwf2 & Hel & Hpos & Hn1 & Hn2
        & Hne12 & Hfr).
  rewrite Z.min_l in Hpos by lia.
  assert (length (elems L) = Z.to_nat rank) as HlenL by (rewrite tsize_length in Hpos; lia).
  assert (addrs t = addrs (T L x v E) ++ addrs R) as Hat.
  { rewrite (addrs_of_elems t (T L x v R)) by done. simpl. by rewrite <- app_assoc. }
  assert (tsize t = tsize L + tsize R + 1) as Hts.
  { rewrite !tsize_length, Hel, length_app. simpl. lia. }
  exists st', t1, t2, (T L x v E), R. split_and!; [done| | | |].
  - split_and!.
    + constructor; [done|]. constructor; [done|].
      eapply forest_framed; [done..| |].
      * intros u Hu. pose proof (forest_handle _ _ _ Hl Hu) as [s Hs].
        apply NoDup_cons in Hnh as [Hnt _].
        rewrite !not_elem_of_cons. split_and!; [|congruence..|apply not_elem_of_nil].
        intros ->. done.
      * apply NoDup_app_sep in Hna as (_ & Hs & _). intros a Ha Ha'. by apply (Hs a).
    + cbn [f_addrs fst snd]. rewrite app_assoc, <- Hat. done.
    + cbn [f_handles handles fst snd]. simpl.
      apply NoDup_cons in Hnh as [_ Hnh].
      assert (∀ u, trees st !! u = None → u ∉ f_handles l) as Hfresh.
      { intros u Hu Hin. destruct (forest_handle _ _ _ Hl Hin) as [s Hs]. congruence. }
      apply NoDup_cons. split; [|apply NoDup_cons; split; [|done]].
      * apply not_elem_of_cons. split; [done|]. by apply Hfresh.
      * by apply Hfresh.
    + simpl. lia.
  - simpl. rewrite Hel. symmetry. by apply take_drop_at.
  - rewrite Hel. symmetry. by apply take_drop_at.
  - simpl. lia.
Qed.

Lemma own_nonempty st p t : own st p t → t ≠ E → ∃ u, p = Some u ∧ wf st u t.
Proof. destruct p as [u|]; simpl; [eauto|done]. Qed.

Lemma merge_forest st p1 t1 p2 t2 l fuel :
  forest st ((p1, t1) :: (p2, t2) :: l) →
  (Z.to_nat (f_size ((p1, t1) :: (p2, t2) :: l)) ≤ fuel)%nat →
  ∃ st' p t',
    merge fuel p1 p2 st = Ok (p, st')
    ∧ forest st' ((p, t') :: l)
    ∧ elems t' = elems t1 ++ elems t2
    ∧ f_size ((p, t') :: l) = f_size ((p1, t1) :: (p2, t2) :: l).
Proof.
  intros (Hall & Hna & Hnh & Hsz) Hfuel.
  inversion Hall as [|? ? Hwf1 Hall']; subst. inversion Hall' as [|? ? Hwf2 Hl]; subst.
  simpl in Hwf1, Hwf2, Hna, Hnh, Hsz, Hfuel.
  pose proof (f_size_nonneg l). pose proof (tsize_nonneg t1). pose proof (tsize_nonneg t2).
  rewrite app_assoc in Hna, Hnh.
  apply NoDup_app_sep in Hna as (Hna12 & Hsepa & Hnal).
  apply NoDup_app_sep in Hnh as (Hnh12 & Hseph & Hnhl).
  apply NoDup_app_sep in Hna12 as (Hnd1 & Hsep12 & Hnd2).
  destruct (merge_spec st p1 t1 p2 t2 fuel Hwf1 Hwf2 Hsep12 ltac:(lia)
              ltac:(apply height_fuel; lia))
    as (st' & p & t' & Hrun & Hown & Hel & Hp & Hfr).
  assert (addrs t' = addrs t1 ++ addrs t2) as Hat.
  { by rewrite !addrs_elems, Hel, fmap_app. }
  exists st', p, t'. split_and!; [done| |done|].
  - split_and!.
    + constructor; [done|]. eapply forest_framed; [done..| |].
      * intros u Hu Hu'. apply (Hseph u); [|done]. apply elem_of_app. by left.
      * intros a Ha Ha'. by apply (Hsepa a).
    + cbn [f_addrs fst snd]. rewrite Hat. apply NoDup_app_sep. split_and!; [|done..].
      apply NoDup_app_sep. by split_and!.
    + cbn [f_handles fst snd]. apply NoDup_app_sep. split_and!; [| |done].
      * destruct Hp as [-> | ->].
        -- by apply NoDup_app_sep in Hnh12 as (? & _).
        -- by apply NoDup_app_sep in Hnh12 as (_ & _ & ?).
      * intros u Hu. apply Hseph. apply elem_of_app. destruct Hp as [-> | ->]; eauto.
    + cbn [f_size fst snd] in *. rewrite !tsize_length in *. rewrite Hel, length_app. lia.
  - cbn [f_size fst snd]. rewrite !tsize_length, Hel, length_app. lia.
Qed.

Lemma wf_forest st tree t : wf st tree t → forest st [(Some tree, t)].
Proof.
  intros Hwf. pose proof Hwf as (_ & _ & Hnd & Hsz). split_and!; simpl.
  - constructor; [done|constructor].
  - by rewrite app_nil_r.
  - apply NoDup_singleton.
  - lia.
Qed.

Lemma forest_head st p t l : forest st ((p, t) :: l) → own st p t.
Proof. intros (Hall & _). by inversion Hall. Qed.

Lemma elems_ne t : elems t ≠ [] → t ≠ E.
Proof. by intros H ->. Qed.

(** [process] moves the items [i..j] behind the first [k] remaining ones. *)
Lemma process_spec st tree t i j k fuel :
  wf st tree t →
  0 ≤ i ≤ j → j < tsize t → 0 ≤ k ≤ tsize t - (j - i + 1) →
  (Z.to_nat (tsize t) ≤ fuel)%nat →
  ∃ st' tree' t',
    process fuel (Some tree) i j k st = Ok (Some tree', st')
    ∧ wf st' tree' t'
    ∧ elems t' = cut_paste (elems t) (Z.to_nat i) (Z.to_nat j) (Z.to_nat k).
Proof.
  intros Hwf Hij Hj Hk Hfuel.
  pose proof Hwf as (_ & _ & _ & Hsz).
  pose proof (tsize_length t) as Hlen.
  set (es := elems t) in *.
  set (i' := Z.to_nat i). set (j' := Z.to_nat j). set (k' := Z.to_nat k).
  assert (i' ≤ j' ∧ j' < length es)%nat as [Hij' Hj'] by lia.
  (* first split *)
  pose proof (wf_forest _ _ _ Hwf) as Hf0.
  assert (t ≠ E) as Hne by (intros ->; simpl in *; lia).
  destruct (split_forest st tree t [] j fuel Hf0 Hne ltac:(lia) ltac:(simpl; lia))
    as (st1 & m1 & r1 & M1 & R1 & Hrun1 & Hf1 & HM1 & HR1 & Hs1).
  fold es j' in HM1, HR1. simpl in Hs1.
  (* second split, or none *)
  assert (∃ st2 pl Lt pm Mt,
    (if 0 <? i then split fuel (Some m1) (wrap (i - 1)) else ret (None, Some m1)) st1
      = Ok ((pl, pm), st2)
    ∧ forest st2 [(pl, Lt); (pm, Mt); (Some r1, R1)]
    ∧ elems Lt = take i' es
    ∧ elems Mt = take (S j' - i') (drop i' es)
    ∧ tsize Lt + tsize Mt + tsize R1 = tsize t)
    as (st2 & pl & Lt & pm & Mt & Hrun2 & Hf2 & HLt & HMt & Hs2).
  { destruct (0 <? i) eqn:Hi.
    - apply Z.ltb_lt in Hi. rewrite wrap_small by lia.
      assert (tsize M1 = j + 1) as HsM.
      { rewrite tsize_length, HM1, length_take. lia. }
      assert (M1 ≠ E) as HneM by (intros ->; simpl in *; lia).
      destruct (split_forest st1 m1 M1 [(Some r1, R1)] (i - 1) fuel Hf1 HneM
                  ltac:(lia) ltac:(simpl in *; lia))
        as (st2 & l2 & m2 & L2 & M2 & Hrun2 & Hf2 & HL2 & HM2 & Hs2).
      exists st2, (Some l2), L2, (Some m2), M2. split_and!; [done|done|..].
      + rewrite HL2, HM1, take_take. f_equal. lia.
      + rewrite HM2, HM1. replace (S (Z.to_nat (i - 1))) with i' by lia.
        rewrite take_drop_commute. do 2 f_equal. lia.
      + simpl in *. lia.
    - apply Z.ltb_ge in Hi. assert (i = 0) as -> by lia.
      exists st1, None, E, (Some m1), M1. split_and!; [done|by apply forest_null|..].
      + done.
      + by rewrite HM1.
      + simpl in *. lia. }
  (* first merge *)
  apply forest_swap23 in Hf2.
  destruct (merge_forest st2 pl Lt (Some r1) R1 [(pm, Mt)] fuel Hf2 ltac:(simpl; lia))
    as (st3 & p3 & T3 & Hrun3 & Hf3 & HT3 & Hs3).
  rewrite HLt, HR1 in HT3. simpl in Hs3.
  set (rest := take i' es ++ drop (S j') es) in *.
  assert (length rest = length es - (S j' - i'))%nat as Hrest.
  { unfold rest. rewrite length_app, length_take, length_drop. lia. }
  (* third split, or none *)
  assert (∃ st4 pl4 L4 pr4 R4,
    (if 0 <? k then split fuel p3 (wrap (k - 1)) else ret (None, p3)) st3
      = Ok ((pl4, pr4), st4)
    ∧ forest st4 [(pl4, L4); (pr4, R4); (pm, Mt)]
    ∧ elems L4 = take k' rest
    ∧ elems R4 = drop k' rest
    ∧ tsize L4 + tsize R4 + tsize Mt = tsize t)
    as (st4 & pl4 & L4 & pr4 & R4 & Hrun4 & Hf4 & HL4 & HR4 & Hs4).
  { destruct (0 <? k) eqn:Hk0.
    - apply Z.ltb_lt in Hk0. rewrite wrap_small by lia.
      assert (tsize T3 = Z.of_nat (length rest)) as HsT by (by rewrite tsize_length, HT3).
      assert (T3 ≠ E) as HneT by (intros ->; simpl in *; lia).
      destruct (own_nonempty _ _ _ (forest_head _ _ _ _ Hf3) HneT) as (u3 & -> & _).
      destruct (split_forest st3 u3 T3 [(pm, Mt)] (k - 1) fuel Hf3 HneT
                  ltac:(lia) ltac:(simpl in *; lia))
        as (st4 & l4 & r4 & L4 & R4 & Hrun4 & Hf4 & HL4 & HR4 & Hs4).
      exists st4, (Some l4), L4, (Some r4), R4. split_and!; [done|done|..].
      + rewrite HL4, HT3. f_equal. lia.
      + rewrite HR4, HT3. f_equal. lia.
      + simpl in *. lia.
    - apply Z.ltb_ge in Hk0. assert (k = 0) as -> by lia.
      exists st3, None, E, p3, T3. split_and!; [done|by apply forest_null|..].
      + done.
      + by rewrite HT3.
      + simpl in *. lia. }
  (* the two final merges *)
  apply forest_swap23 in Hf4.
  destruct (merge_forest st4 pl4 L4 pm Mt [(pr4, R4)] fuel Hf4 ltac:(simpl; lia))
    as (st5 & p5 & T5 & Hrun5 & Hf5 & HT5 & Hs5).
  destruct (merge_forest st5 p5 T5 pr4 R4 [] fuel Hf5 ltac:(simpl in *; lia))
    as (st6 & p6 & T6 & Hrun6 & Hf6 & HT6 & Hs6).
  assert (elems T6 = cut_paste es i' j' k') as Hfinal.
  { unfold cut_paste. fold rest. by rewrite HT6, HT5, HL4, HMt, HR4, <- app_assoc. }
  assert (T6 ≠ E) as Hne6.
  { apply elems_ne. rewrite HT6, HT5, HMt. intros Hnil.
    apply (f_equal length) in Hnil. rewrite !length_app, length_take, length_drop in Hnil.
    simpl in Hnil. lia. }
  destruct (own_nonempty _ _ _ (forest_head _ _ _ _ Hf6) Hne6) as (u6 & -> & Hwf6).
  exists st6, u6, T6. split_and!; [|done..].
  unfold process.
  rewrite (bind_Ok _ _ _ _ _ Hrun1). simpl.
  rewrite (bind_Ok _ _ _ _ _ Hrun2). simpl.
  rewrite (bind_Ok _ _ _ _ _ Hrun3). simpl.
  rewrite (bind_Ok _ _ _ _ _ Hrun4). simpl.
  rewrite (bind_Ok _ _ _ _ _ Hrun5). simpl.
  done.
Qed.

(** ** The invariants on the heap *)

Lemma rep_srep h par t : rep h par t → srep h t.
Proof.
  revert par. induction t as [|l IHl a v r IHr]; intros par; simpl; [done|].
  intros (Ha & Hl & Hr). split_and!; eauto.
Qed.

Lemma srep_frame h h' t :
  (∀ a, a ∈ addrs t → h' !! a = h !! a) → srep h t → srep h' t.
Proof.
  induction t as [|l IHl a v r IHr]; intros Hf; simpl; [done|].
  intros ((par & Ha) & Hl & Hr). split_and!.
  - exists par. rewrite Hf; [done|]. simpl. set_solver.
  - apply IHl; [|done]. intros b Hb. apply Hf. simpl. set_solver.
  - apply IHr; [|done]. intros b Hb. apply Hf. simpl. set_solver.
Qed.

Lemma srep_insert_ne h t a n :
  a ∉ addrs t → srep h t → srep (<[a := n]> h) t.
Proof.
  intros Ha. apply srep_frame. intros b Hb.
  apply lookup_insert_ne. intros ->. done.
Qed.

Lemma srep_psize h t : srep h t → psize h (rootp t) = tsize t.
Proof. destruct t as [|l a v r]; simpl; [done|]. by intros ((par & ->) & _). Qed.

Lemma srep_sizes h t a :
  srep h t → reach h (rootp t) a →
  ∃ n, h !! a = Some n
    ∧ Node.size n = 1 + psize h (Node.left n) + psize h (Node.right n).
Proof.
  induction t as [|l IHl a0 v r IHr]; simpl; intros Hs Hr; [inversion Hr|].
  destruct Hs as ((par & Ha0) & Hl & Hr').
  inversion Hr as [|? n ? Hn Hreach|? n ? Hn Hreach]; subst.
  - eexists. split; [done|]. simpl.
    rewrite (srep_psize _ _ Hl), (srep_psize _ _ Hr'). lia.
  - rewrite Ha0 in Hn. injection Hn as <-. by apply IHl.
  - rewrite Ha0 in Hn. injection Hn as <-. by apply IHr.
Qed.

Lemma srep_size_inv st tree t :
  trees st !! tree = Some (SplayTree.mk (rootp t) (tsize t)) →
  srep (nodes st) t → size_inv st tree.
Proof.
  intros Ht Hs. eexists. split; [done|]. simpl. split.
  - by rewrite (srep_psize _ _ Hs).
  - intros a Ha. by eapply srep_sizes.
Qed.

Lemma wf_size_inv st tree t : wf st tree t → size_inv st tree.
Proof. intros (Ht & Hrep & _). eapply srep_size_inv; [done|]. by eapply rep_srep. Qed.

Lemma rep_reach h par t a : rep h par t → reach h (rootp t) a → a ∈ addrs t.
Proof.
  revert par. induction t as [|l IHl a0 v r IHr]; simpl; intros par Hs Hr; [inversion Hr|].
  destruct Hs as (Ha0 & Hl & Hr').
  inversion Hr as [|? n ? Hn Hreach|? n ? Hn Hreach]; subst.
  - set_solver.
  - rewrite Ha0 in Hn. injection Hn as <-. apply elem_of_app. left. by eapply IHl.
  - rewrite Ha0 in Hn. injection Hn as <-. apply elem_of_app. right.
    apply elem_of_cons. right. by eapply IHr.
Qed.

Lemma rep_parents h par t a :
  rep h par t → NoDup (addrs t) → reach h (rootp t) a →
  rootp t = Some a
  ∨ ∃ n p np, h !! a = Some n ∧ Node.parent n = Some p ∧ h !! p = Some np
      ∧ ((Node.left np = Some a ∧ Node.right np ≠ Some a)
         ∨ (Node.left np ≠ Some a ∧ Node.right np = Some a)).
Proof.
  revert par. induction t as [|l IHl a0 v r IHr]; simpl; intros par Hs Hnd Hr;
    [inversion Hr|].
  destruct Hs as (Ha0 & Hl & Hr').
  apply NoDup_app_sep in Hnd as (Hndl & Hsep & Hnd').
  apply sep_cons_r in Hsep as (Hal & Hsep). apply NoDup_cons in Hnd' as (Har & Hndr).
  inversion Hr as [|? n ? Hn Hreach|? n ? Hn Hreach]; subst; [by left|..]; right.
  - rewrite Ha0 in Hn. injection Hn as <-. simpl in Hreach.
    pose proof (rep_reach _ _ _ _ Hl Hreach) as Hin.
    destruct (IHl _ Hl ltac:(done) Hreach) as [Hroot|Hdeep]; [|done].
    destruct l as [|ll la lv lr]; [done|]. injection Hroot as ->.
    destruct Hl as (Hla & _).
    eexists _, a0, _. split_and!; [done..|]. left. simpl. split; [done|].
    intros Hx. apply rootp_addrs in Hx. apply (Hsep a); [|done]. simpl. set_solver.
  - rewrite Ha0 in Hn. injection Hn as <-. simpl in Hreach.
    pose proof (rep_reach _ _ _ _ Hr' Hreach) as Hin.
    destruct (IHr _ Hr' ltac:(done) Hreach) as [Hroot|Hdeep]; [|done].
    destruct r as [|rl ra rv rr]; [done|]. injection Hroot as ->.
    destruct Hr' as (Hra & _).
    eexists _, a0, _. split_and!; [done..|]. right. simpl. split; [|done].
    intros Hx. apply rootp_addrs in Hx. apply (Hsep a); [done|]. simpl. set_solver.
Qed.

Lemma wf_parent_inv st tree t : wf st tree t → parent_inv st tree.
Proof.
  intros (Ht & Hrep & Hnd & _). eexists. split; [done|]. simpl.
  intros a Ha Hne. destruct (rep_parents _ _ _ _ Hrep Hnd Ha); done.
Qed.

(** ** Insertion *)

Lemma sep_sym l k : sep l k → sep k l.
Proof. unfold sep. set_solver. Qed.

(* goals made of [NoDup], [sep] and [∉], from the atoms left by [nd_norm] *)
Ltac nd_goal :=
  repeat first
    [ rewrite NoDup_app_sep
    | rewrite NoDup_cons
    | rewrite NoDup_nil_True
    | rewrite sep_app_l
    | rewrite sep_app_r
    | rewrite sep_cons_l
    | rewrite sep_cons_r
    | rewrite sep_nil_l
    | rewrite sep_nil_r
    | rewrite not_elem_of_app
    | rewrite not_elem_of_cons
    | rewrite not_elem_of_nil_True ];
  split_and?; first [ assumption | exact I | congruence | by apply sep_sym ].


Ltac fold_fresh :=
  repeat match goal with
         | H : ?a = fresh_addr ?m |- context [fresh_addr ?m] => rewrite <- H
         end.

Ltac run3a := repeat (step3; fold_fresh); try reflexivity.


Lemma rep_lookup h par t a : rep h par t → a ∈ addrs t → is_Some (h !! a).
Proof.
  revert par. induction t as [|l IHl a0 v r IHr]; simpl; intros par Hrep Ha;
    [by apply elem_of_nil in Ha|].
  destruct Hrep as (Ha0 & Hl & Hr).
  apply elem_of_app in Ha as [Ha|Ha]; [by eapply IHl|].
  apply elem_of_cons in Ha as [->|Ha]; [eauto|by eapply IHr].
Qed.

Lemma wf_fresh st tree t : wf st tree t → fresh_addr (nodes st) ∉ addrs t.
Proof.
  intros (_ & Hrep & _) Hin. apply (rep_lookup _ _ _ _ Hrep) in Hin as [n Hn].
  by rewrite fresh_addr_None in Hn.
Qed.

Lemma insertSpecific_spec st tree t c :
  wf st tree t → tsize t + 1 < UINT_RANGE →
  ∃ st' a,
    insertSpecific (Some tree) c st = Ok (tt, st')
    ∧ wf st' tree (T t a c E)
    ∧ nodes st !! a = None
    ∧ framed (a :: addrs t) [tree] st st'.
Proof.
  intros Hwf Hsz. pose proof (wf_fresh _ _ _ Hwf) as Hfresh.
  destruct st as [h ts]. destruct Hwf as (Ht & Hrep & Hnd & _).
  simpl in Ht, Hrep, Hfresh.
  pose proof (fresh_addr_None h) as Hnone.
  remember (fresh_addr h) as a eqn:Ea.
  pose proof (tsize_nonneg t).
  unfold insertSpecific, incrSize, createNode.
  destruct t as [|l r0 v r].
  - simpl in Hsz. eexists _, a. split; [run3a|]. split_and!; [|done|].
    + apply wf_intro; cbn [nodes trees].
      * lk. node_eq.
      * simpl. split_and!; heap_goal.
      * simpl. apply NoDup_singleton.
      * simpl. lia.
    + split; cbn [nodes trees].
      * intros b Hb. simpl in Hb. nd_norm Hb. by lk.
      * tframe_tac. done.
  - simpl in Hrep, Hnd, Hfresh, Hsz, H. destruct Hrep as (Hr0 & Hl & Hr).
    nd_norm Hfresh.
    pose proof (tsize_nonneg l). pose proof (tsize_nonneg r).
    pose proof Hnd as Hnd'. nd_norm Hnd'.
    eexists _, a. split; [run3a|]. split_and!; [|done|].
    + apply wf_intro; cbn [nodes trees].
      * lk. node_eq.
      * simpl. split_and!; heap_goal.
      * simpl. apply NoDup_app_sep. split_and!; [done| |apply NoDup_singleton].
        apply sep_cons_r. split; [|by apply sep_nil_r].
        apply not_elem_of_app. split; [done|]. by apply not_elem_of_cons.
      * simpl. lia.
    + split; cbn [nodes trees].
      * intros b Hb. simpl in Hb. nd_norm Hb. by lk.
      * tframe_tac. done.
Qed.

Lemma load_spec s : ∀ st tree t,
  wf st tree t → tsize t + Z.of_nat (length s) < UINT_RANGE →
  ∃ st' t',
    load (Some tree) s st = Ok (tt, st')
    ∧ wf st' tree t'
    ∧ vals t' = vals t ++ s.
Proof.
  induction s as [|c s IH]; intros st tree t Hwf Hsz.
  - exists st, t. by rewrite app_nil_r.
  - simpl in Hsz.
    destruct (insertSpecific_spec st tree t c Hwf ltac:(lia)) as (st1 & a & Hrun & Hwf1 & _).
    destruct (IH st1 tree (T t a c E) Hwf1 ltac:(simpl; lia)) as (st2 & t' & Hrun2 & Hwf2 & Hv).
    exists st2, t'. split_and!; [|done|].
    + simpl. run.
    + rewrite Hv. simpl. by rewrite <- app_assoc.
Qed.

Lemma build_spec s :
  Z.of_nat (length s) < UINT_RANGE →
  ∃ st tree, build s empty_state = Ok (Some tree, st) ∧ Rope st tree s.
Proof.
  intros Hlen. unfold build, createTree.
  set (st0 := State ∅ (<[fresh_addr (∅ : gmap positive SplayTree.t) := SplayTree.mk None 0]> ∅)).
  assert (wf st0 (fresh_addr (∅ : gmap positive SplayTree.t)) E) as Hwf0.
  { apply wf_intro; simpl; [by lk|done|constructor|done]. }
  destruct (load_spec s st0 _ E Hwf0 ltac:(simpl; lia)) as (st1 & t' & Hrun & Hwf1 & Hv).
  exists st1, (fresh_addr (∅ : gmap positive SplayTree.t)). split.
  - run3.
  - by exists t'.
Qed.

Lemma take_drop_len {A} (l r : list A) :
  take (length l) (l ++ r) = l ∧ drop (length l) (l ++ r) = r.
Proof. split; [apply take_app_length|apply drop_app_length]. Qed.


Lemma insert_spec st tree t rank c fuel :
  wf st tree t → 0 ≤ rank < UINT_RANGE → tsize t + 1 < UINT_RANGE →
  (height t ≤ fuel)%nat →
  ∃ st' n t',
    insert fuel (Some tree) rank c st = Ok (tt, st')
    ∧ trees st' !! tree = Some (SplayTree.mk (rootp t') (tsize t'))
    ∧ srep (nodes st') t'
    ∧ NoDup (addrs t')
    ∧ nodes st !! n = None
    ∧ elems t' = take (insert_pos rank (tsize t)) (elems t)
                 ++ (n, c) :: drop (insert_pos rank (tsize t)) (elems t).
Proof.
  intros Hwf Hrank Hsz Hfuel. pose proof (wf_fresh _ _ _ Hwf) as Hfresh.
  destruct st as [h ts]. pose proof Hwf as (Ht & Hrep & Hnd & _).
  simpl in Ht, Hrep, Hfresh.
  pose proof (fresh_addr_None h) as Hnone.
  remember (fresh_addr h) as n eqn:En.
  pose proof (tsize_nonneg t) as Hnn.
  set (st0 := State (<[n := Node.mk c None None None 1]> h) ts).
  assert (wf st0 tree t) as Hwf0.
  { apply wf_intro; simpl; [done| |done|lia]. by apply rep_insert_ne. }
  unfold insert, createNode.
  rewrite (bind_Ok _ _ _ _ _ (mallocN_Ok _ _)). cbn [nodes trees]. rewrite <- En. fold st0.
  destruct (shape_E_dec t) as [->|Hne].
  { (* the tree is empty *)
    eexists _, n, (T E n c E). split.
    { unfold incrSize, st0. run3.
      destruct (rank =? 0); simpl; run3. }
    unfold insert_pos. cbn [nodes trees]. split_and!; [|simpl|simpl|done|].
    - lk. node_eq.
    - split_and!; [|done..]. exists None. by lk.
    - apply NoDup_singleton.
    - simpl. by rewrite take_nil, drop_nil. }
  pose proof (tsize_pos t Hne) as Hpos.
  destruct (rank =? tsize t) eqn:Hr.
  - (* appending behind the last element *)
    apply Z.eqb_eq in Hr as Hr'.
    destruct (locate_spec st0 tree t (rank - 1) fuel Hwf0 Hne ltac:(lia) Hfuel)
      as (st1 & L & x & v & R & Hrun & Hwf1 & Hel & HposL & Hfr).
    assert (tsize t = tsize L + tsize R + 1) as Hts.
    { rewrite !tsize_length, Hel, length_app. simpl. lia. }
    assert (R = E) as ->.
    { destruct (shape_E_dec R) as [|HR]; [done|]. pose proof (tsize_pos R HR). lia. }
    destruct st1 as [h1 ts1]. pose proof Hwf1 as (Ht1 & (Hx & HL & _) & Hnd1 & _).
    simpl in Ht1, Hx, HL, Hnd1.
    assert (n ∉ addrs L ++ [x]) as Hn1.
    { rewrite (addrs_of_elems t (T L x v E)) in Hfresh by done. done. }
    assert (h1 !! n = Some (Node.mk c None None None 1)) as Hn.
    { destruct Hfr as [Hfn _]. simpl in Hfn. rewrite Hfn by done. by apply lookup_insert_eq. }
    pose proof (tsize_nonneg L). nd_norm Hn1. pose proof Hnd1 as Hnd1'. nd_norm Hnd1'.
    eexists _, n, (T (T L x v E) n c E). split.
    { unfold incrSize. run. rewrite Hr. assert ((0 <? tsize t) = true) as -> by lia.
      simpl. rewrite wrap_small by lia. run. }
    cbn [nodes trees]. split_and!; [|simpl|simpl|done|].
    + lk. node_eq.
    + split_and!; [exists None; lk; node_eq|exists (Some n); lk; node_eq| |done|done].
      repeat (apply srep_insert_ne; [notin_tac|]). by eapply rep_srep.
    + nd_goal.
    + unfold insert_pos. rewrite Hr, Hr', tsize_length, Nat2Z.id.
      rewrite take_ge, drop_ge by done. rewrite Hel. simpl. by rewrite <- app_assoc.
  - (* inserting before the element found at [rank] *)
    apply Z.eqb_neq in Hr as Hr'.
    destruct (locate_spec st0 tree t rank fuel Hwf0 Hne Hrank Hfuel)
      as (st1 & L & x & v & R & Hrun & Hwf1 & Hel & HposL & Hfr).
    assert (tsize t = tsize L + tsize R + 1) as Hts.
    { rewrite !tsize_length, Hel, length_app. simpl. lia. }
    destruct st1 as [h1 ts1]. pose proof Hwf1 as (Ht1 & (Hx & HL & HR) & Hnd1 & _).
    simpl in Ht1, Hx, HL, HR, Hnd1.
    assert (n ∉ addrs L ++ x :: addrs R) as Hn1.
    { rewrite (addrs_of_elems t (T L x v R)) in Hfresh by done. done. }
    assert (h1 !! n = Some (Node.mk c None None None 1)) as Hn.
    { destruct Hfr as [Hfn _]. simpl in Hfn. rewrite Hfn by done. by apply lookup_insert_eq. }
    pose proof (tsize_nonneg L). pose proof (tsize_nonneg R).
    nd_norm Hn1. pose proof Hnd1 as Hnd1'. nd_norm Hnd1'.
    eexists _, n, (T L n c (T E x v R)). split.
    { unfold incrSize, updateSize. run. rewrite Hr. simpl. run.
      assert ((tsize t =? 0) = false) as -> by lia. run. }
    cbn [nodes trees]. split_and!; [|simpl|simpl|done|].
    + lk. node_eq.
    + split_and!; [exists None; lk; node_eq| |exists (Some n); lk; node_eq|done|].
      * repeat (apply srep_insert_ne; [notin_tac|]). by eapply rep_srep.
      * repeat (apply srep_insert_ne; [notin_tac|]). by eapply rep_srep.
    + nd_goal.
    + unfold insert_pos. rewrite Hr, <- HposL, tsize_length, Nat2Z.id, Hel.
      destruct (take_drop_len (elems L) ((x, v) :: elems R)) as [-> ->]. done.
Qed.

(** ** Nodes of a tree, their depth, and rotations anywhere *)

Lemma plug_snoc c f t : plug (c ++ [f]) t = fill f (plug c t).
Proof. revert t. induction c as [|g c IH]; intros t; simpl; [done|]. apply IH. Qed.

Lemma in_tree_plug t x : x ∈ addrs t → ∃ c A v B, t = plug c (T A x v B).
Proof.
  induction t as [|l IHl a v r IHr]; simpl; [by intros ?%elem_of_nil|].
  intros [Hx|Hx]%elem_of_app.
  - destruct (IHl Hx) as (c & A & vx & B & ->).
    exists (c ++ [FL a v r]), A, vx, B. by rewrite plug_snoc.
  - apply elem_of_cons in Hx as [->|Hx].
    + by exists [], l, v, r.
    + destruct (IHr Hx) as (c & A & vx & B & ->).
      exists (c ++ [FR l a v]), A, vx, B. by rewrite plug_snoc.
Qed.

Lemma elem_of_addrs_plug c A x v B : x ∈ addrs (plug c (T A x v B)).
Proof. rewrite addrs_plug. simpl. set_solver. Qed.

Lemma wf_depth c : ∀ st tree A x v B,
  wf st tree (plug c (T A x v B)) → depth_is (nodes st) x (length c).
Proof.
  induction c as [|f c IH]; intros st tree A x v B Hwf;
    pose proof (wf_node _ _ _ _ _ _ _ Hwf) as Hx.
  - by eapply depth_root.
  - simpl. eapply depth_up; [done|done|].
    destruct f as [p vp C|D p vp]; simpl in Hwf |- *; by eapply IH.
Qed.

Lemma depth_is_fun h a d d' : depth_is h a d → depth_is h a d' → d = d'.
Proof.
  intros H. revert d'. induction H as [a n Hn Hp|a n p d Hn Hp _ IH]; intros d' H'.
  - inversion H' as [|? n' ? ? Hn' Hp']; subst; [done|]. congruence.
  - inversion H' as [? n' Hn' Hp'|? n' p' ? Hn' Hp' Hd]; subst; [congruence|].
    f_equal. apply IH. congruence.
Qed.

Lemma rootp_plug_in c : ∀ f t, ∃ a, rootp (plug (f :: c) t) = Some a ∧ a ∈ caddrs (f :: c).
Proof.
  induction c as [|g c IH]; intros f t.
  - exists (faddr f). simpl. rewrite rootp_fill. split; [done|]. set_solver.
  - destruct (IH g (fill f t)) as (a & Ha & Hin). exists a. split; [done|].
    simpl in Hin |- *. set_solver.
Qed.

(** A node without parent is the root, and conversely. *)
Lemma wf_root_iff st tree c A x v B :
  wf st tree (plug c (T A x v B)) →
  (cpar c = None ↔ rootp (plug c (T A x v B)) = Some x).
Proof.
  intros Hwf. destruct c as [|f c]; [done|]. split; [done|].
  intros Hroot. exfalso.
  assert (NoDup (caddrs (f :: c) ++ addrs (T A x v B))) as Hnd.
  { apply NoDup_plug. apply Hwf. }
  destruct (rootp_plug_in c f (T A x v B)) as (a & Ha & Hin).
  rewrite Hroot in Ha. injection Ha as <-.
  apply NoDup_app_sep in Hnd as (_ & Hsep & _). apply (Hsep x Hin). simpl. set_solver.
Qed.

Lemma splay_spec st tree c A x v B fuel :
  wf st tree (plug c (T A x v B)) → (length c ≤ fuel)%nat →
  ∃ st' L R,
    _splay fuel (Some tree) (Some x) st = Ok (tt, st')
    ∧ wf st' tree (T L x v R)
    ∧ elems L = ebefore c ++ elems A
    ∧ elems R = elems B ++ eafter c
    ∧ framed (addrs (plug c (T A x v B))) [tree] st st'.
Proof.
  intros Hwf Hlen.
  destruct (splay_loop_spec fuel st tree c A x v B Hwf Hlen)
    as (st' & L & R & Hrun & Hwf' & HL & HR & Hfr).
  pose proof (wf_node _ _ _ _ _ _ _ Hwf) as Hx.
  exists st', L, R. split_and!; [|done..]. unfold _splay. run.
Qed.

(** Rotating at any node of a well-formed tree: a no-op when the needed
    child is missing, otherwise the rotation of [rotateRight_spec]. *)
Lemma rotateRight_any st tree t x :
  wf st tree t → x ∈ addrs t →
  ∃ st' t', _rotateRight (Some tree) (Some x) st = Ok (tt, st')
    ∧ wf st' tree t' ∧ elems t' = elems t.
Proof.
  intros Hwf Hx. destruct (in_tree_plug t x Hx) as (c & A & v & B & ->).
  pose proof (wf_node _ _ _ _ _ _ _ Hwf) as Hn.
  destruct A as [|Al y vy Ar].
  - exists st, (plug c (T E x v B)). split_and!; [|done..]. unfold _rotateRight. run.
  - destruct (rotateRight_spec st tree c Al y vy Ar x v B Hwf) as (st' & Hrun & Hwf' & _).
    eexists st', _. split_and!; [done..|].
    apply elems_plug_eq. simpl. by rewrite <- app_assoc.
Qed.

Lemma rotateLeft_any st tree t x :
  wf st tree t → x ∈ addrs t →
  ∃ st' t', _rotateLeft (Some tree) (Some x) st = Ok (tt, st')
    ∧ wf st' tree t' ∧ elems t' = elems t.
Proof.
  intros Hwf Hx. destruct (in_tree_plug t x Hx) as (c & A & v & B & ->).
  pose proof (wf_node _ _ _ _ _ _ _ Hwf) as Hn.
  destruct B as [|Bl y vy Br].
  - exists st, (plug c (T A x v E)). split_and!; [|done..]. unfold _rotateLeft. run.
  - destruct (rotateLeft_spec st tree c A x v Bl y vy Br Hwf) as (st' & Hrun & Hwf' & _).
    eexists st', _. split_and!; [done..|].
    apply elems_plug_eq. simpl. by rewrite <- app_assoc.
Qed.

(** ** The traversal [inOrder] *)

Lemma vals_length t : length (vals t) = Z.to_nat (tsize t).
Proof. rewrite vals_elems, length_fmap, tsize_length. lia. Qed.


Lemma srep_node h l a v r :
  srep h (T l a v r) → ∃ par, h !! a = Some (node_of par l v r).
Proof. by intros (H & _). Qed.

Lemma inOrder_loop_spec fuel : ∀ st cap t stk out,
  srep (nodes st) t → stack_ok (nodes st) stk →
  (2 * length (vals t) + stack_cost stk < fuel)%nat →
  stack_fits cap stk → Z.of_nat (length stk + height t) ≤ cap →
  Z.of_nat (length out + length (vals t) + length (stack_vals stk)) ≤ S_MAX_LEN →
  inOrder_loop fuel cap (rootp t) (stack_ptrs stk) (Z.of_nat (length out)) out st
  = Ok (rev out ++ vals t ++ stack_vals stk, st).
Proof.
  induction fuel as [|fuel IH]; intros st cap t stk out Ht Hstk Hfuel Hfit Hcap Hbuf; [lia|].
  destruct t as [|l a v r].
  - destruct stk as [|[[a v] r] stk].
    + simpl. by rewrite app_nil_r.
    + inversion Hstk as [|? ? (n & Hn & Hv & Hr & Hsr) Hstk']; subst.
      destruct Hfit as (Hfit1 & Hfit).
      simpl in Hfuel, Hv, Hr, Hsr, Hfit1, Hbuf.
      rewrite length_app in Hbuf.
      cbn [inOrder_loop rootp stack_ptrs map fst].
      rewrite (bind_Ok _ _ _ _ _ (rdN_Ok _ _ _ _ Hn)). simpl.
      assert ((Z.of_nat (length out) <? S_MAX_LEN) = true) as -> by lia.
      rewrite (bind_Ok _ _ _ _ _ (rdN_Ok _ _ _ _ Hn)). simpl.
      rewrite wrap_small by (unfold UINT_RANGE, S_MAX_LEN in *; lia).
      replace (Z.of_nat (length out) + 1) with (Z.of_nat (length (Node.value n :: out)))
        by (simpl; lia).
      rewrite Hr, Hv. rewrite IH; [|exact Hsr|exact Hstk'|lia|done|lia|simpl; lia].
      simpl. by rewrite <- app_assoc.
  - destruct Ht as ((par & Ha) & Hl & Hr). simpl in Hfuel, Hcap, Hbuf.
    rewrite !length_app in Hfuel, Hbuf. simpl in Hfuel, Hbuf.
    cbn [inOrder_loop rootp].
    assert (length (stack_ptrs stk) = length stk) as -> by apply length_map.
    assert ((Z.of_nat (length stk) <? cap) = true) as -> by lia.
    rewrite (bind_Ok _ _ _ _ _ (rdN_Ok _ _ _ _ Ha)). simpl.
    change (Some a :: stack_ptrs stk) with (stack_ptrs ((a, v, r) :: stk)).
    rewrite IH; [|done| |simpl; lia| |simpl; lia|simpl; rewrite length_app; lia].
    + simpl. by rewrite <- !app_assoc.
    + constructor; [|done]. eexists. split_and!; done.
    + split; [simpl; lia|done].
Qed.

Lemma inOrder_srep st tree t fuel :
  trees st !! tree = Some (SplayTree.mk (rootp t) (tsize t)) →
  srep (nodes st) t → (2 * length (vals t) < fuel)%nat →
  tsize t ≤ S_MAX_LEN →
  inOrder fuel (Some tree) st = Ok (vals t, st).
Proof.
  intros Ht Hrep Hfuel Hmax. unfold inOrder.
  rewrite (bind_Ok _ _ _ _ _ (rdT_Ok _ _ _ _ Ht)). simpl.
  destruct t as [|l a v r]; [done|]. cbn [rootp].
  rewrite (bind_Ok _ _ _ _ _ (rdT_Ok _ _ _ _ Ht)). cbn [SplayTree.size].
  pose proof (inOrder_loop_spec fuel st (tsize (T l a v r)) (T l a v r) [] []) as Hloop.
  cbn [rootp stack_ptrs map length Z.of_nat rev stack_vals app] in Hloop.
  rewrite app_nil_r in Hloop. apply Hloop.
  - exact Hrep.
  - constructor.
  - simpl in Hfuel |- *. lia.
  - done.
  - pose proof (height_le_size (T l a v r)) as Hh.
    pose proof (tsize_nonneg (T l a v r)). simpl length. lia.
  - cbn [length Nat.add]. rewrite Nat.add_0_r, vals_elems, length_fmap, <- tsize_length.
    done.
Qed.

Lemma inOrder_spec st tree t fuel :
  wf st tree t → (2 * length (vals t) < fuel)%nat → tsize t ≤ S_MAX_LEN →
  inOrder fuel (Some tree) st = Ok (vals t, st).
Proof.
  intros (Ht & Hrep & _) Hfuel Hmax. eapply inOrder_srep; [done| |done..].
  by eapply rep_srep.
Qed.

Lemma srep_inj h t : ∀ t', srep h t → srep h t' → rootp t = rootp t' → t = t'.
Proof.
  induction t as [|l IHl a v r IHr]; intros [|l' a' v' r']; simpl; try done.
  intros ((par & Ha) & Hl & Hr) ((par' & Ha') & Hl' & Hr') [= <-].
  rewrite Ha in Ha'. injection Ha' as <- _ Hrl Hrr _.
  f_equal; [by apply IHl|by apply IHr].
Qed.

(** ** From nodes to characters *)

Lemma cut_paste_fmap {A B} (f : A → B) (s : list A) i j k :
  f <$> cut_paste s i j k = cut_paste (f <$> s) i j k.
Proof.
  unfold cut_paste.
  by rewrite !fmap_app, !fmap_take, !fmap_drop, !fmap_app, !fmap_take, !fmap_drop.
Qed.

Lemma wf_Rope st tree t : wf st tree t → Rope st tree (vals t).
Proof. intros H. by exists t. Qed.

Lemma Rope_elems st tree t (s : list (addr * ascii)) :
  wf st tree t → elems t = s → Rope st tree s.*2.
Proof. intros H <-. exists t. split; [done|]. apply vals_elems. Qed.

Lemma state_after_Ok {A} (m : M A) st a st' :
  m st = Ok (a, st') → state_after m st = st'.
Proof. unfold state_after. by intros ->. Qed.

(** The sequence a rope reads is unique. *)
Lemma Rope_fun st tree s s' : Rope st tree s → Rope st tree s' → s = s'.
Proof.
  intros (t & (Ht & Hrep & _) & <-) (t' & (Ht' & Hrep' & _) & <-).
  rewrite Ht in Ht'. injection Ht' as Hroot _.
  by rewrite (srep_inj _ t t' (rep_srep _ _ _ Hrep) (rep_srep _ _ _ Hrep') Hroot).
Qed.

Lemma insert_Reads st tree t rank c fuel :
  wf st tree t → 0 ≤ rank < UINT_RANGE → tsize t + 1 < UINT_RANGE →
  (height t ≤ fuel)%nat →
  ∃ st',
    insert fuel (Some tree) rank c st = Ok (tt, st')
    ∧ size_inv st' tree
    ∧ Reads st' tree (take (insert_pos rank (tsize t)) (vals t)
                      ++ c :: drop (insert_pos rank (tsize t)) (vals t)).
Proof.
  intros Hwf Hrank Hroom Hh.
  destruct (insert_spec st tree t rank c fuel Hwf Hrank Hroom Hh)
    as (st' & n & t' & Hrun & Ht' & Hs' & Hnd' & _ & Hel).
  exists st'. split_and!; [done|by eapply srep_size_inv|].
  exists t'. split_and!; [done..|].
  by rewrite !vals_elems, Hel, fmap_app, fmap_cons, fmap_take, fmap_drop.
Qed.

Global Instance sep_dec l k : Decision (sep l k).
Proof.
  refine (cast_if (decide (Forall (λ x, x ∉ k) l)));
    unfold sep; by rewrite Forall_forall in *.
Defined.

(* a concrete well-formed tree, checked by evaluation *)
Ltac wf_compute :=
  apply wf_intro;
  [ vm_compute; reflexivity
  | vm_compute; repeat split; reflexivity
  | apply (bool_decide_unpack _); vm_compute; exact I
  | vm_compute; reflexivity ].

(** ** The claims *)

(** C1. For a tree satisfying the structural invariants and indices with
    [0 <= i <= j <= size-1] and [0 <= k <= size-(j-i+1)], [process]
    returns a tree whose in-order character sequence is the original one
    with the items at [i..j] removed and put back right after the first
    [k] items of the remainder ([k = 0]: at the front).  In particular
    the text "hello", loaded as [main] does, becomes "elhlo" under
    [i=1], [j=2], [k=0]: that is what [inOrder] then stores. *)
Theorem process_cut_paste st tree t i j k fuel :
  wf st tree t →
  0 ≤ i ≤ j → j ≤ tsize t - 1 → 0 ≤ k ≤ tsize t - (j - i + 1) →
  (Z.to_nat (tsize t) ≤ fuel)%nat →
  (∃ st' tree',
     process fuel (Some tree) i j k st = Ok (Some tree', st')
     ∧ Rope st' tree' (cut_paste (vals t) (Z.to_nat i) (Z.to_nat j) (Z.to_nat k)))
  ∧ (∃ tree0 st0 tree1 st1,
       build (list_ascii_of_string "hello") empty_state = Ok (Some tree0, st0)
       ∧ process 5 (Some tree0) 1 2 0 st0 = Ok (Some tree1, st1)
       ∧ Rope st1 tree1 (list_ascii_of_string "elhlo")
       ∧ inOrder 11 (Some tree1) st1 = Ok (list_ascii_of_string "elhlo", st1)).
Proof.
  intros Hwf Hij Hj Hk Hfuel. split.
  - destruct (process_spec st tree t i j k fuel Hwf Hij ltac:(lia) Hk Hfuel)
      as (st' & tree' & t' & Hrun & Hwf' & Hel).
    exists st', tree'. split; [done|]. exists t'. split; [done|].
    by rewrite !vals_elems, Hel, cut_paste_fmap.
  - destruct (build_spec (list_ascii_of_string "hello") ltac:(by vm_compute))
      as (st0 & tree0 & Hbuild & (t0 & Hwf0 & Hv0)).
    assert (tsize t0 = 5) as Hs0.
    { pose proof (vals_length t0) as Hl. rewrite Hv0 in Hl. simpl in Hl.
      pose proof (tsize_nonneg t0). lia. }
    destruct (process_spec st0 tree0 t0 1 2 0 5 Hwf0 ltac:(lia) ltac:(lia) ltac:(lia)
                ltac:(lia))
      as (st1 & tree1 & t1 & Hrun & Hwf1 & Hel).
    assert (vals t1 = list_ascii_of_string "elhlo") as Hv1.
    { by rewrite !vals_elems, Hel, cut_paste_fmap, <- vals_elems, Hv0. }
    exists tree0, st0, tree1, st1.
    split; [exact Hbuild|]. split; [exact Hrun|].
    split; [exists t1; split; [exact Hwf1|exact Hv1]|].
    rewrite <- Hv1. apply inOrder_spec; [done|by rewrite Hv1; simpl; lia|].
    pose proof (vals_length t1) as Hl. rewrite Hv1 in Hl. simpl in Hl.
    pose proof (tsize_nonneg t1). unfold S_MAX_LEN. lia.
Qed.

Lemma process_cut_paste_witness :
  ∃ st' tree',
    process 5 (Some 1%positive) 1 2 0 (built "hello") = Ok (Some tree', st')
    ∧ Rope st' tree' (cut_paste (vals (chain "hello")) 1 2 0).
Proof.
  apply (process_cut_paste (built "hello") 1%positive (chain "hello") 1 2 0 5).
  - wf_compute.
  - lia.
  - unfold chain. simpl. lia.
  - unfold chain. simpl. lia.
  - vm_compute. lia.
Defined.

(** C2. Splitting a tree that satisfies the structural invariants at a
    valid rank and merging the two results, left one first, gives a tree
    with the in-order character sequence of the original. *)
Theorem split_merge_roundtrip st tree t rank fuel :
  wf st tree t → 0 ≤ rank < tsize t → (Z.to_nat (tsize t) ≤ fuel)%nat →
  ∃ st1 tree1 tree2 st2 tree',
    split fuel (Some tree) rank st = Ok ((tree1, tree2), st1)
    ∧ merge fuel tree1 tree2 st1 = Ok (Some tree', st2)
    ∧ Rope st2 tree' (vals t).
Proof.
  intros Hwf Hrank Hfuel.
  assert (t ≠ E) as Hne by (intros ->; simpl in *; lia).
  destruct (split_forest st tree t [] rank fuel (wf_forest _ _ _ Hwf) Hne Hrank
              ltac:(simpl; lia))
    as (st1 & t1 & t2 & T1 & T2 & Hrun1 & Hf1 & HT1 & HT2 & Hs1).
  destruct (merge_forest st1 (Some t1) T1 (Some t2) T2 [] fuel Hf1
              ltac:(rewrite Hs1; simpl; lia))
    as (st2 & p & t' & Hrun2 & Hf2 & Hel & _).
  assert (elems t' = elems t) as Hsame by (by rewrite Hel, HT1, HT2, take_drop).
  assert (t' ≠ E) as Hne'.
  { apply elems_ne. rewrite Hsame. intros Hnil. apply elems_nil in Hnil. done. }
  destruct (own_nonempty _ _ _ (forest_head _ _ _ _ Hf2) Hne') as (u & -> & Hwf').
  exists st1, (Some t1), (Some t2), st2, u. split_and!; [done..|].
  exists t'. split; [done|]. by rewrite !vals_elems, Hsame.
Qed.

Lemma split_merge_roundtrip_witness :
  ∃ st1 tree1 tree2 st2 tree',
    split 5 (Some 1%positive) 1 (built "hello") = Ok ((tree1, tree2), st1)
    ∧ merge 5 tree1 tree2 st1 = Ok (Some tree', st2)
    ∧ Rope st2 tree' (vals (chain "hello")).
Proof.
  apply (split_merge_roundtrip (built "hello") 1%positive (chain "hello") 1 5).
  - wf_compute.
  - unfold chain. simpl. lia.
  - vm_compute. lia.
Defined.

(** C6. For a tree satisfying the structural invariants and [0 <= k <
    size], the node returned by [orderStatisticZeroBasedRanking] holds the
    [k]-th character of the in-order traversal, and on return it is the
    root of the tree (the handle's root, with no parent), the tree still
    reading the same sequence. *)
Theorem locate_kth st tree t k fuel :
  wf st tree t → 0 ≤ k < tsize t → (height t ≤ fuel)%nat →
  ∃ st' x n,
    orderStatisticZeroBasedRanking fuel (Some tree) k st = Ok (Some x, st')
    ∧ nodes st' !! x = Some n
    ∧ vals t !! Z.to_nat k = Some (Node.value n)
    ∧ SplayTree.root <$> trees st' !! tree = Some (Some x)
    ∧ Node.parent n = None
    ∧ Rope st' tree (vals t).
Proof.
  intros Hwf Hk Hfuel. pose proof Hwf as (_ & _ & _ & Hsz).
  assert (t ≠ E) as Hne by (intros ->; simpl in *; lia).
  destruct (locate_spec st tree t k fuel Hwf Hne ltac:(lia) Hfuel)
    as (st' & L & x & v & R & Hrun & Hwf' & Hel & Hpos & _).
  rewrite Z.min_l in Hpos by lia.
  pose proof Hwf' as (Ht' & (Hx & _) & _).
  exists st', x, (node_of None L v R). split_and!; [done..| | |done|].
  - rewrite vals_elems, Hel, fmap_app, fmap_cons. simpl.
    assert (Z.to_nat k = length (elems L).*2) as ->.
    { rewrite length_fmap. rewrite tsize_length in Hpos. lia. }
    by apply list_lookup_middle.
  - by rewrite Ht'.
  - exists (T L x v R). split; [done|]. by rewrite !vals_elems, Hel.
Qed.

Lemma locate_kth_witness :
  ∃ st' x n,
    orderStatisticZeroBasedRanking 5 (Some 1%positive) 1 (built "hello") = Ok (Some x, st')
    ∧ nodes st' !! x = Some n
    ∧ vals (chain "hello") !! Z.to_nat 1 = Some (Node.value n)
    ∧ SplayTree.root <$> trees st' !! 1%positive = Some (Some x)
    ∧ Node.parent n = None
    ∧ Rope st' 1%positive (vals (chain "hello")).
Proof.
  apply (locate_kth (built "hello") 1%positive (chain "hello") 1 5).
  - wf_compute.
  - unfold chain. simpl. lia.
  - vm_compute. lia.
Defined.

(** C7. For two trees satisfying the structural invariants (distinct, so
    owning disjoint nodes, and small enough for the merged size to fit an
    [unsigned]), the in-order sequence of [merge(T1, T2)] is that of [T1]
    followed by that of [T2]; an empty tree, or a null handle, on either
    side is an identity: the other argument is returned as it is. *)
Theorem merge_concat st p1 t1 p2 t2 fuel :
  own st p1 t1 → own st p2 t2 →
  sep (addrs t1) (addrs t2) →
  tsize t1 + tsize t2 < UINT_RANGE →
  (height t1 ≤ fuel)%nat →
  (∃ st' p t',
     merge fuel p1 p2 st = Ok (p, st')
     ∧ own st' p t'
     ∧ vals t' = vals t1 ++ vals t2)
  ∧ (t1 = E → merge fuel p1 p2 st = Ok (p2, st))
  ∧ (t2 = E → t1 ≠ E → merge fuel p1 p2 st = Ok (p1, st)).
Proof.
  intros H1 H2 Hsep Hsz Hfuel. split_and!.
  - destruct (merge_spec st p1 t1 p2 t2 fuel H1 H2 Hsep Hsz Hfuel)
      as (st' & p & t' & Hrun & Hown & Hel & _).
    exists st', p, t'. split_and!; [done..|].
    by rewrite !vals_elems, Hel, fmap_app.
  - intros ->. unfold merge. pose proof (nullOrEmpty_own _ _ _ H1) as He1. by run.
  - intros -> Hne. unfold merge.
    pose proof (nullOrEmpty_own _ _ _ H1) as He1.
    pose proof (nullOrEmpty_own _ _ _ H2) as He2.
    destruct t1; [done|]. by run.
Qed.

Lemma merge_concat_witness :
  (∃ st' p t',
     merge 5 (Some 2%positive) (Some 3%positive) split_hello = Ok (p, st')
     ∧ own st' p t'
     ∧ vals t' = vals (read_shape 5 (nodes split_hello) (Some 2%positive))
                 ++ vals (read_shape 5 (nodes split_hello) (Some 5%positive)))
  ∧ (read_shape 5 (nodes split_hello) (Some 2%positive) = E →
     merge 5 (Some 2%positive) (Some 3%positive) split_hello
     = Ok (Some 3%positive, split_hello))
  ∧ (read_shape 5 (nodes split_hello) (Some 5%positive) = E →
     read_shape 5 (nodes split_hello) (Some 2%positive) ≠ E →
     merge 5 (Some 2%positive) (Some 3%positive) split_hello
     = Ok (Some 2%positive, split_hello)).
Proof.
  apply (merge_concat split_hello (Some 2%positive) _ (Some 3%positive) _ 5).
  - wf_compute.
  - wf_compute.
  - apply (bool_decide_unpack _). vm_compute. exact I.
  - vm_compute. reflexivity.
  - vm_compute. lia.
Defined.

(** C8. For a tree satisfying the structural invariants and [0 <= rank <
    size], [split] yields a left tree reading the characters at positions
    [0..rank] and a right tree reading those at [rank+1..size-1]; for
    [rank = size-1] the right tree is the empty tree. *)
Theorem split_positions st tree t rank fuel :
  wf st tree t → 0 ≤ rank < tsize t → (height t ≤ fuel)%nat →
  ∃ st' tree1 tree2,
    split fuel (Some tree) rank st = Ok ((Some tree1, Some tree2), st')
    ∧ Rope st' tree1 (take (S (Z.to_nat rank)) (vals t))
    ∧ Rope st' tree2 (drop (S (Z.to_nat rank)) (vals t))
    ∧ (rank = tsize t - 1 → wf st' tree2 E).
Proof.
  intros Hwf Hrank Hfuel. pose proof Hwf as (_ & _ & _ & Hsz).
  assert (t ≠ E) as Hne by (intros ->; simpl in *; lia).
  destruct (split_spec st tree t rank fuel Hwf Hne ltac:(lia) Hfuel)
    as (st' & t1 & t2 & L & x & v & R & Hrun & Hwf1 & Hwf2 & Hel & Hpos & _).
  rewrite Z.min_l in Hpos by lia.
  assert (length (elems L) = Z.to_nat rank) as HlenL by (rewrite tsize_length in Hpos; lia).
  destruct (take_drop_at (elems L) (elems R) (x, v) _ HlenL) as [Htake Hdrop].
  exists st', t1, t2. split_and!; [done|..].
  - exists (T L x v E). split; [done|].
    by rewrite !vals_elems, Hel, <- fmap_take, Htake.
  - exists R. split; [done|]. by rewrite !vals_elems, Hel, <- fmap_drop, Hdrop.
  - intros ->. assert (R = E) as <-; [|done].
    apply elems_nil. apply length_zero_iff_nil.
    rewrite !tsize_length, Hel, length_app in *. simpl in *. lia.
Qed.

Lemma split_positions_witness :
  ∃ st' tree1 tree2,
    split 5 (Some 1%positive) 4 (built "hello") = Ok ((Some tree1, Some tree2), st')
    ∧ Rope st' tree1 (take (S (Z.to_nat 4)) (vals (chain "hello")))
    ∧ Rope st' tree2 (drop (S (Z.to_nat 4)) (vals (chain "hello")))
    ∧ (4 = tsize (chain "hello") - 1 → wf st' tree2 E).
Proof.
  apply (split_positions (built "hello") 1%positive (chain "hello") 4 5).
  - wf_compute.
  - unfold chain. simpl. lia.
  - vm_compute. lia.
Defined.

(** C10. On a non-empty tree satisfying the structural invariants,
    [orderStatisticZeroBasedRanking] returns normally for every unsigned
    [k], also for [k >= size]: it yields a non-null pointer to a node of
    the tree and has splayed that node to the root, the tree reading the
    same sequence as before; on an empty tree it returns NULL for every
    [k] and leaves the store as it is. *)
Theorem locate_total st tree t k fuel :
  wf st tree t → 0 ≤ k < UINT_RANGE → (height t ≤ fuel)%nat →
  (t ≠ E →
   ∃ st' x,
     orderStatisticZeroBasedRanking fuel (Some tree) k st = Ok (Some x, st')
     ∧ x ∈ addrs t
     ∧ SplayTree.root <$> trees st' !! tree = Some (Some x)
     ∧ Rope st' tree (vals t))
  ∧ (t = E → orderStatisticZeroBasedRanking fuel (Some tree) k st = Ok (None, st)).
Proof.
  intros Hwf Hk Hfuel. split.
  - intros Hne.
    destruct (locate_spec st tree t k fuel Hwf Hne Hk Hfuel)
      as (st' & L & x & v & R & Hrun & Hwf' & Hel & _).
    pose proof Hwf' as (Ht' & _).
    exists st', x. split_and!; [done| | |].
    + rewrite addrs_elems, Hel, fmap_app, fmap_cons. simpl. set_solver.
    + by rewrite Ht'.
    + exists (T L x v R). split; [done|]. by rewrite !vals_elems, Hel.
  - intros ->. by apply locate_empty.
Qed.

Lemma locate_total_witness :
  (chain "hello" ≠ E →
   ∃ st' x,
     orderStatisticZeroBasedRanking 5 (Some 1%positive) 4000000000 (built "hello")
     = Ok (Some x, st')
     ∧ x ∈ addrs (chain "hello")
     ∧ SplayTree.root <$> trees st' !! 1%positive = Some (Some x)
     ∧ Rope st' 1%positive (vals (chain "hello")))
  ∧ (chain "hello" = E →
     orderStatisticZeroBasedRanking 5 (Some 1%positive) 4000000000 (built "hello")
     = Ok (None, built "hello")).
Proof.
  apply (locate_total (built "hello") 1%positive (chain "hello") 4000000000 5).
  - wf_compute.
  - unfold UINT_RANGE. simpl. lia.
  - vm_compute. lia.
Defined.

(** C9. For every node of a tree satisfying the structural invariants the
    splay loop terminates: the node has a depth; while it has a parent,
    one pass of the loop body (zig, zig-zig or zig-zag) succeeds and
    leaves it strictly less deep; with fuel for that many passes [_splay]
    returns, and then the node has no parent and is the root of the
    tree.  The loop is left exactly when the parent pointer is null, and
    in a well-formed tree a node has no parent exactly when it is the
    root. *)
Theorem splay_terminates st tree t x :
  wf st tree t → x ∈ addrs t →
  ∃ d n,
    depth_is (nodes st) x d
    ∧ nodes st !! x = Some n
    ∧ (∀ p, Node.parent n = Some p →
        ∃ st' t' d',
          _splay_body (Some tree) (Some x) (Some p) st = Ok (tt, st')
          ∧ wf st' tree t' ∧ vals t' = vals t
          ∧ depth_is (nodes st') x d' ∧ (d' < d)%nat)
    ∧ (∀ fuel, (d ≤ fuel)%nat →
        ∃ st' t' n',
          _splay fuel (Some tree) (Some x) st = Ok (tt, st')
          ∧ wf st' tree t' ∧ vals t' = vals t
          ∧ nodes st' !! x = Some n' ∧ Node.parent n' = None
          ∧ rootp t' = Some x)
    ∧ (∀ fuel st0, _splay_loop fuel (Some tree) (Some x) None st0 = Ok (tt, st0))
    ∧ (Node.parent n = None ↔ rootp t = Some x).
Proof.
  intros Hwf Hx. destruct (in_tree_plug t x Hx) as (c & A & v & B & ->).
  pose proof (wf_node _ _ _ _ _ _ _ Hwf) as Hn.
  exists (length c), (node_of (cpar c) A v B). split_and!; [by eapply wf_depth|done|..].
  - intros p Hp. destruct c as [|f c]; [done|]. simpl in Hp. injection Hp as <-.
    destruct (splay_body_spec st tree f c A x v B Hwf)
      as (st' & c' & A' & B' & Hrun & Hstep & Hwf' & _).
    pose proof (splay_step_length _ _ _ _ _ _ Hstep ltac:(done)) as Hlen.
    pose proof (splay_step_elems _ _ _ _ _ _ Hstep) as [He1 He2].
    exists st', (plug c' (T A' x v B')), (length c'). split_and!; [done..| | |done].
    + by rewrite !vals_elems, !elems_plug_node, He1, He2.
    + by eapply wf_depth.
  - intros fuel Hfuel.
    destruct (splay_spec st tree c A x v B fuel Hwf Hfuel)
      as (st' & L & R & Hrun & Hwf' & HL & HR & _).
    pose proof Hwf' as (_ & (Hx' & _) & _).
    exists st', (T L x v R), (node_of None L v R). split_and!; [done..| |done|done|done].
    rewrite !vals_elems, elems_plug_node. simpl. by rewrite HL, HR.
  - intros fuel st0. by destruct fuel.
  - by apply (wf_root_iff st tree).
Qed.

Lemma splay_terminates_witness :
  ∃ d n,
    depth_is (nodes (built "hello")) 2%positive d
    ∧ nodes (built "hello") !! 2%positive = Some n
    ∧ (∀ p, Node.parent n = Some p →
        ∃ st' t' d',
          _splay_body (Some 1%positive) (Some 2%positive) (Some p) (built "hello")
          = Ok (tt, st')
          ∧ wf st' 1%positive t' ∧ vals t' = vals (chain "hello")
          ∧ depth_is (nodes st') 2%positive d' ∧ (d' < d)%nat)
    ∧ (∀ fuel, (d ≤ fuel)%nat →
        ∃ st' t' n',
          _splay fuel (Some 1%positive) (Some 2%positive) (built "hello") = Ok (tt, st')
          ∧ wf st' 1%positive t' ∧ vals t' = vals (chain "hello")
          ∧ nodes st' !! 2%positive = Some n' ∧ Node.parent n' = None
          ∧ rootp t' = Some 2%positive)
    ∧ (∀ fuel st0,
        _splay_loop fuel (Some 1%positive) (Some 2%positive) None st0 = Ok (tt, st0))
    ∧ (Node.parent n = None ↔ rootp (chain "hello") = Some 2%positive).
Proof.
  apply (splay_terminates (built "hello") 1%positive (chain "hello") 2%positive).
  - wf_compute.
  - apply (bool_decide_unpack _). vm_compute. exact I.
Defined.



Lemma descend_fuel_mono f : ∀ p k st r f',
  descend f p k st = Ok r → (f ≤ f')%nat → descend f' p k st = Ok r.
Proof.
  induction f as [|f IH]; intros p k st r f' H Hle.
  - destruct p; [done|]. by destruct f'.
  - destruct f' as [|f']; [lia|]. destruct p as [a|]; [|done].
    simpl in H |- *. unfold bind in *.
    destruct (rdN Node.left (Some a) st) as [[l st1]| |]; [|done..].
    destruct (rdN Node.right (Some a) st1) as [[r0 st2]| |]; [|done..].
    destruct (sizeOrZero l st2) as [[s st3]| |]; [|done..].
    destruct (k =? s); [done|].
    destruct (k <? s).
    + destruct l; [|done]. apply IH; [done|lia].
    + destruct r0; [|done]. apply IH; [done|lia].
Qed.

(** C4 (evaluation at the failing input). [insert(tree, 1, 'x')] on the
    well-formed tree holding "ab" returns with the size invariant intact
    but with a broken parent link: node [a] became the left child of the
    new node while its parent pointer still names [b], which has no
    child at all.  Locating [a] afterwards never leaves the splay loop:
    it exhausts any amount of fuel. *)
Theorem insert_breaks_parent_link :
  wf (built "ab") 1%positive (chain "ab")
  ∧ insert 2 (Some 1%positive) 1 "x"%char (built "ab") = Ok (tt, inserted_ab)
  ∧ size_inv inserted_ab 1%positive
  ∧ ¬ parent_inv inserted_ab 1%positive
  ∧ ∀ fuel, orderStatisticZeroBasedRanking fuel (Some 1%positive) 0 inserted_ab = Timeout.
Proof.
  assert (wf (built "ab") 1%positive (chain "ab")) as Hwf by wf_compute.
  assert (insert 2 (Some 1%positive) 1 "x"%char (built "ab") = Ok (tt, inserted_ab)) as Hrun
    by (vm_compute; reflexivity).
  split_and!; [done|done|..].
  - destruct (insert_spec (built "ab") 1%positive (chain "ab") 1 "x"%char 2 Hwf
                ltac:(unfold UINT_RANGE; lia)
                ltac:(unfold UINT_RANGE, chain; simpl; lia)
                ltac:(vm_compute; lia))
      as (st' & n & t' & Hrun' & Ht' & Hs' & _).
    unfold inserted_ab. rewrite (state_after_Ok _ _ _ _ Hrun'). by eapply srep_size_inv.
  - intros (s & Hs & Hpar).
    assert (s = SplayTree.mk (Some 3%positive) 3) as ->.
    { vm_compute in Hs. by injection Hs. }
    destruct (Hpar 1%positive) as (n & p & np & Hn & Hp & Hnp & Hlink).
    + eapply reach_left; [vm_compute; reflexivity|]. simpl. apply reach_here.
    + done.
    + vm_compute in Hn. injection Hn as <-. simpl in Hp. injection Hp as <-.
      vm_compute in Hnp. injection Hnp as <-. simpl in Hlink.
      by destruct Hlink as [[? _]|[_ ?]].
  - intros fuel.
    assert (∀ f, _splay_loop f (Some 1%positive) (Some 1%positive) (Some 2%positive)
                   inserted_ab = Timeout) as Hloop.
    { induction f as [|f IH]; [done|]. simpl.
      assert (_splay_body (Some 1%positive) (Some 1%positive) (Some 2%positive) inserted_ab
              = Ok (tt, inserted_ab)) as Hbody by (vm_compute; reflexivity).
      rewrite (bind_Ok _ _ _ _ _ Hbody).
      assert (rdN Node.parent (Some 1%positive) inserted_ab
              = Ok (Some 2%positive, inserted_ab)) as Hpar by (vm_compute; reflexivity).
      by rewrite (bind_Ok _ _ _ _ _ Hpar). }
    unfold orderStatisticZeroBasedRanking.
    assert (rdT SplayTree.root (Some 1%positive) inserted_ab
            = Ok (Some 3%positive, inserted_ab)) as Hroot by (vm_compute; reflexivity).
    rewrite (bind_Ok _ _ _ _ _ Hroot).
    destruct fuel as [|[|fuel]]; [done|done|].
    assert (descend (S (S fuel)) (Some 3%positive) 0 inserted_ab
            = Ok (Some 1%positive, inserted_ab)) as Hdesc.
    { apply (descend_fuel_mono 2); [vm_compute; reflexivity|lia]. }
    rewrite (bind_Ok _ _ _ _ _ Hdesc). unfold _splay.
    assert (rdN Node.parent (Some 1%positive) inserted_ab
            = Ok (Some 2%positive, inserted_ab)) as Hpar by (vm_compute; reflexivity).
    rewrite bind_assoc, (bind_Ok _ _ _ _ _ Hpar). unfold bind. by rewrite Hloop.
Qed.

(** C5 (counterexample). The tree holding "ab" with [a] at the root is
    well-formed and has 2 nodes, yet the locator called with [k = 5]
    comes back with a node, and with the tree restructured: the request
    is not range checked. *)
Lemma locate_not_range_checked :
  wf splayed_ab 1%positive (T E 1%positive "a"%char (T E 2%positive "b"%char E))
  ∧ ¬ range_checked 3 splayed_ab 1%positive 5
  ∧ state_after (orderStatisticZeroBasedRanking 3 (Some 1%positive) 5) splayed_ab
    ≠ splayed_ab.
Proof.
  split_and!.
  - wf_compute.
  - intros Hchk.
    apply (Hchk 2%positive
             (state_after (orderStatisticZeroBasedRanking 3 (Some 1%positive) 5) splayed_ab)).
    vm_compute. reflexivity.
  - intros Heq. apply (f_equal (λ s, trees s !! 1%positive)) in Heq.
    vm_compute in Heq. discriminate.
Qed.

(** C5 (amended). No index is range checked and no error is signalled.
    On a non-empty tree satisfying the structural invariants an index at
    or beyond the size acts as the last position: the locator returns the
    last node and splays it to the root; [split] puts the whole sequence
    into the left tree and returns an empty right tree; both leave trees
    that satisfy the structural invariants and read the sequence they
    had.  [insert] with [rank > size] (one more node fitting an
    [unsigned]) returns with the new character placed before the last
    one and with the size invariant holding.  [process] validates nothing
    either: on "abcdef", [process(0, 2, 4)] returns with "defabc", and on
    "a", [process(0, 0, 1)] dereferences a null pointer. *)
Theorem out_of_range_not_detected st tree t fuel :
  wf st tree t → t ≠ E → (Z.to_nat (tsize t) ≤ fuel)%nat →
  (∀ k, tsize t ≤ k < UINT_RANGE →
     ∃ st' L x v,
       orderStatisticZeroBasedRanking fuel (Some tree) k st = Ok (Some x, st')
       ∧ wf st' tree (T L x v E)
       ∧ vals t = vals L ++ [v])
  ∧ (∀ rank, tsize t ≤ rank < UINT_RANGE →
       ∃ st' tree1 tree2,
         split fuel (Some tree) rank st = Ok ((Some tree1, Some tree2), st')
         ∧ Rope st' tree1 (vals t)
         ∧ wf st' tree2 E)
  ∧ (∀ rank c, tsize t < rank < UINT_RANGE → tsize t + 1 < UINT_RANGE →
       ∃ st',
         insert fuel (Some tree) rank c st = Ok (tt, st')
         ∧ size_inv st' tree
         ∧ Reads st' tree (take (Z.to_nat (tsize t) - 1) (vals t)
                           ++ c :: drop (Z.to_nat (tsize t) - 1) (vals t)))
  ∧ (process 6 (Some 1%positive) 0 2 4 (built "abcdef")
       = Ok (Some 4%positive, moved_abcdef)
     ∧ inOrder 13 (Some 4%positive) moved_abcdef
       = Ok (list_ascii_of_string "defabc", moved_abcdef))
  ∧ process 1 (Some 1%positive) 0 0 1 (built "a") = Crash.
Proof.
  intros Hwf Hne Hfuel. pose proof Hwf as (_ & _ & _ & Hsz).
  pose proof (tsize_pos t Hne) as Hpos.
  assert (height t ≤ fuel)%nat as Hh by (by apply height_fuel).
  assert (∀ L x v R, elems t = elems L ++ (x, v) :: elems R →
            tsize L = tsize t - 1 → R = E) as Hlast.
  { intros L x v R Hel HL. apply elems_nil, length_zero_iff_nil.
    rewrite !tsize_length, Hel, length_app in HL. simpl in HL. lia. }
  split_and!.
  - intros k Hk.
    destruct (locate_spec st tree t k fuel Hwf Hne ltac:(lia) Hh)
      as (st' & L & x & v & R & Hrun & Hwf' & Hel & HposL & _).
    rewrite Z.min_r in HposL by lia.
    pose proof (Hlast _ _ _ _ Hel HposL) as ->.
    exists st', L, x, v. split_and!; [done..|].
    rewrite !vals_elems, Hel, fmap_app. done.
  - intros rank Hrank.
    destruct (split_spec st tree t rank fuel Hwf Hne ltac:(lia) Hh)
      as (st' & t1 & t2 & L & x & v & R & Hrun & Hwf1 & Hwf2 & Hel & HposL & _).
    rewrite Z.min_r in HposL by lia.
    pose proof (Hlast _ _ _ _ Hel HposL) as ->.
    exists st', t1, t2. split_and!; [done| |done].
    exists (T L x v E). split; [done|]. by rewrite !vals_elems, Hel.
  - intros rank c Hrank Hroom.
    destruct (insert_Reads st tree t rank c fuel Hwf ltac:(lia) Hroom Hh)
      as (st' & Hrun & Hinv & Hreads).
    assert (insert_pos rank (tsize t) = (Z.to_nat (tsize t) - 1)%nat) as Hp.
    { unfold insert_pos. assert ((rank =? tsize t) = false) as -> by lia. lia. }
    rewrite Hp in Hreads. by exists st'.
  - vm_compute. reflexivity.
  - vm_compute. reflexivity.
  - vm_compute. reflexivity.
Qed.

Lemma out_of_range_not_detected_witness :
  ∃ st' L x v,
    orderStatisticZeroBasedRanking 5 (Some 1%positive) 7 (built "hello")
    = Ok (Some x, st')
    ∧ wf st' 1%positive (T L x v E)
    ∧ vals (chain "hello") = vals L ++ [v].
Proof.
  refine (proj1 (out_of_range_not_detected (built "hello") 1%positive (chain "hello")
                   5 _ _ _) 7 _).
  - wf_compute.
  - unfold chain. simpl. discriminate.
  - vm_compute. lia.
  - unfold UINT_RANGE, chain. simpl. lia.
Defined.

(** * Further properties of the code *)

(** ** Cutting and pasting on lists *)

Lemma cut_paste_app {A} (a m b : list A) k :
  (0 < length m)%nat →
  cut_paste (a ++ m ++ b) (length a) (length a + length m - 1) k
  = take k (a ++ b) ++ m ++ drop k (a ++ b).
Proof.
  intros Hm. unfold cut_paste.
  replace (S (length a + length m - 1) - length a)%nat with (length m) by lia.
  replace (S (length a + length m - 1)) with (length a + length m)%nat by lia.
  rewrite drop_app_length, take_app_length, take_app_length.
  rewrite <- drop_drop, drop_app_length, drop_app_length. done.
Qed.

Lemma cut_paste_parts {A} (s : list A) i j :
  (i ≤ j < length s)%nat →
  ∃ a m b, s = a ++ m ++ b ∧ length a = i ∧ length m = (S j - i)%nat.
Proof.
  intros Hij. exists (take i s), (take (S j - i) (drop i s)), (drop (S j - i) (drop i s)).
  split_and!.
  - by rewrite take_drop, take_drop.
  - rewrite length_take. lia.
  - rewrite length_take, length_drop. lia.
Qed.

Lemma cut_paste_eq {A} (s a m b : list A) i j k :
  s = a ++ m ++ b → length a = i → length m = (S j - i)%nat → (i ≤ j)%nat →
  cut_paste s i j k = take k (a ++ b) ++ m ++ drop k (a ++ b).
Proof.
  intros -> <- Hm Hij. replace j with (length a + length m - 1)%nat by lia.
  apply cut_paste_app. lia.
Qed.

Lemma cut_paste_perm {A} (s : list A) i j k :
  (i ≤ j < length s)%nat → cut_paste s i j k ≡ₚ s.
Proof.
  intros Hij. destruct (cut_paste_parts s i j Hij) as (a & m & b & Hs & Ha & Hm).
  rewrite (cut_paste_eq s a m b i j k Hs Ha Hm ltac:(lia)), Hs.
  rewrite Permutation_app_swap_app, take_drop. apply Permutation_app_swap_app.
Qed.

Lemma cut_paste_in_place {A} (s : list A) i j :
  (i ≤ j < length s)%nat → cut_paste s i j i = s.
Proof.
  intros Hij. destruct (cut_paste_parts s i j Hij) as (a & m & b & Hs & Ha & Hm).
  rewrite (cut_paste_eq s a m b i j i Hs Ha Hm ltac:(lia)), Hs, <- Ha.
  by rewrite take_app_length, drop_app_length.
Qed.

Lemma cut_paste_undo {A} (s : list A) i j k :
  (i ≤ j < length s)%nat → (k ≤ length s - (S j - i))%nat →
  cut_paste (cut_paste s i j k) k (k + (j - i)) i = s.
Proof.
  intros Hij Hk. destruct (cut_paste_parts s i j Hij) as (a & m & b & Hs & Ha & Hm).
  rewrite (cut_paste_eq s a m b i j k Hs Ha Hm ltac:(lia)).
  assert (length (a ++ b) = length s - (S j - i))%nat as Hab.
  { rewrite Hs, !length_app. lia. }
  rewrite (cut_paste_eq _ (take k (a ++ b)) m (drop k (a ++ b)) k (k + (j - i)) i eq_refl).
  - rewrite take_drop, Hs, <- Ha. by rewrite take_app_length, drop_app_length.
  - rewrite length_take. lia.
  - lia.
  - lia.
Qed.

Lemma cut_paste_length {A} (s : list A) i j k :
  (i ≤ j < length s)%nat → length (cut_paste s i j k) = length s.
Proof. intros Hij. by rewrite (cut_paste_perm s i j k Hij). Qed.

Lemma Rope_Reads st tree s : Rope st tree s → Reads st tree s.
Proof.
  intros (t & (Ht & Hrep & Hnd & _) & Hv). exists t. split_and!; [done| |done..].
  by eapply rep_srep.
Qed.

Lemma Reads_inOrder st tree s fuel :
  Reads st tree s → Z.of_nat (length s) ≤ S_MAX_LEN → (2 * length s < fuel)%nat →
  inOrder fuel (Some tree) st = Ok (s, st).
Proof.
  intros (t & Ht & Hrep & _ & <-) Hlen Hfuel.
  apply inOrder_srep; [done..|]. rewrite vals_length in Hlen.
  pose proof (tsize_nonneg t). lia.
Qed.

Lemma bind_Crash {A B} (m : M A) (k : A → M B) st :
  m st = Crash → bind m k st = Crash.
Proof. unfold bind. by intros ->. Qed.

Lemma elems_length_tsize t t' :
  length (elems t') = length (elems t) → tsize t' = tsize t.
Proof. intros H. rewrite !tsize_length. lia. Qed.

(* a concrete tree that reads its text, checked by evaluation *)
Ltac reads_compute t :=
  exists t; split_and!;
  [ vm_compute; reflexivity
  | vm_compute; repeat split; eexists; reflexivity
  | apply (bool_decide_unpack _); vm_compute; exact I
  | vm_compute; reflexivity ].

(** ** Reading, loading and inserting *)





(** X3. [insertSpecific] appends: on a tree satisfying the structural
    invariants (with room for one more node in an [unsigned]) it returns
    a tree that satisfies them again, whose root is the freshly allocated
    node, with the whole old tree as its left subtree and no right child;
    the text read is the old one followed by the new character. *)
Theorem insertSpecific_appends st tree t c :
  wf st tree t → tsize t + 1 < UINT_RANGE →
  ∃ st' a,
    insertSpecific (Some tree) c st = Ok (tt, st')
    ∧ nodes st !! a = None
    ∧ wf st' tree (T t a c E)
    ∧ Rope st' tree (vals t ++ [c]).
Proof.
  intros Hwf Hroom.
  destruct (insertSpecific_spec st tree t c Hwf Hroom) as (st' & a & Hrun & Hwf' & Ha & _).
  exists st', a. split_and!; [done..|]. by exists (T t a c E).
Qed.

Lemma insertSpecific_appends_witness :
  ∃ st' a,
    insertSpecific (Some 1%positive) "!"%char (built "hello") = Ok (tt, st')
    ∧ nodes (built "hello") !! a = None
    ∧ wf st' 1%positive (T (chain "hello") a "!"%char E)
    ∧ Rope st' 1%positive (vals (chain "hello") ++ ["!"%char]).
Proof.
  apply (insertSpecific_appends (built "hello") 1%positive (chain "hello") "!"%char).
  - wf_compute.
  - unfold UINT_RANGE, chain. simpl. lia.
Defined.



(** ** Cut and paste *)

(** X5. A move can be undone: after [process(i, j, k)] with indices in
    range the moved piece sits at [k .. k+(j-i)], and
    [process(k, k+(j-i), i)] puts it back: the tree again satisfies the
    structural invariants and reads the original text. *)
Theorem process_undo st tree t i j k fuel :
  wf st tree t →
  0 ≤ i ≤ j → j < tsize t → 0 ≤ k ≤ tsize t - (j - i + 1) →
  (Z.to_nat (tsize t) ≤ fuel)%nat →
  ∃ st1 tree1 st2 tree2,
    process fuel (Some tree) i j k st = Ok (Some tree1, st1)
    ∧ process fuel (Some tree1) k (k + (j - i)) i st1 = Ok (Some tree2, st2)
    ∧ Rope st2 tree2 (vals t).
Proof.
  intros Hwf Hij Hj Hk Hfuel. pose proof (tsize_length t) as Hlen.
  destruct (process_spec st tree t i j k fuel Hwf Hij Hj Hk Hfuel)
    as (st1 & tree1 & t1 & Hrun1 & Hwf1 & Hel1).
  assert (length (elems t1) = length (elems t)) as Hlen1.
  { rewrite Hel1. apply cut_paste_length. lia. }
  pose proof (elems_length_tsize _ _ Hlen1) as Hs1.
  destruct (process_spec st1 tree1 t1 k (k + (j - i)) i fuel Hwf1 ltac:(lia) ltac:(lia)
              ltac:(lia) ltac:(lia))
    as (st2 & tree2 & t2 & Hrun2 & Hwf2 & Hel2).
  exists st1, tree1, st2, tree2. split_and!; [done..|].
  exists t2. split; [done|]. rewrite !vals_elems, Hel2, Hel1.
  replace (Z.to_nat (k + (j - i))) with (Z.to_nat k + (Z.to_nat j - Z.to_nat i))%nat by lia.
  rewrite cut_paste_undo; [done|lia|lia].
Qed.

Lemma process_undo_witness :
  ∃ st1 tree1 st2 tree2,
    process 5 (Some 1%positive) 1 2 0 (built "hello") = Ok (Some tree1, st1)
    ∧ process 5 (Some tree1) 0 (0 + (2 - 1)) 1 st1 = Ok (Some tree2, st2)
    ∧ Rope st2 tree2 (vals (chain "hello")).
Proof.
  apply (process_undo (built "hello") 1%positive (chain "hello") 1 2 0 5).
  - wf_compute.
  - lia.
  - unfold chain. simpl. lia.
  - unfold chain. simpl. lia.
  - vm_compute. lia.
Defined.

(** X6. Moving a piece to where it already is changes nothing that can
    be read: [process(i, j, i)] with [0 <= i <= j < size] returns a tree
    that satisfies the structural invariants and reads the same text (the
    nodes are relinked, and the handle may be another one). *)
Theorem process_in_place st tree t i j fuel :
  wf st tree t → 0 ≤ i ≤ j → j < tsize t → (Z.to_nat (tsize t) ≤ fuel)%nat →
  ∃ st' tree',
    process fuel (Some tree) i j i st = Ok (Some tree', st')
    ∧ Rope st' tree' (vals t).
Proof.
  intros Hwf Hij Hj Hfuel. pose proof (tsize_length t) as Hlen.
  destruct (process_spec st tree t i j i fuel Hwf Hij Hj ltac:(lia) Hfuel)
    as (st' & tree' & t' & Hrun & Hwf' & Hel).
  exists st', tree'. split; [done|]. exists t'. split; [done|].
  rewrite !vals_elems, Hel, cut_paste_in_place; [done|lia].
Qed.

Lemma process_in_place_witness :
  ∃ st' tree',
    process 5 (Some 1%positive) 1 3 1 (built "hello") = Ok (Some tree', st')
    ∧ Rope st' tree' (vals (chain "hello")).
Proof.
  apply (process_in_place (built "hello") 1%positive (chain "hello") 1 3 5).
  - wf_compute.
  - lia.
  - unfold chain. simpl. lia.
  - vm_compute. lia.
Defined.

(** X7. [process] with indices in range only rearranges: the resulting
    tree consists of the very nodes of the original one, each with its
    character, in a new order; none is added, lost or used twice, and the
    size is the same. *)
Theorem process_same_nodes st tree t i j k fuel :
  wf st tree t →
  0 ≤ i ≤ j → j < tsize t → 0 ≤ k ≤ tsize t - (j - i + 1) →
  (Z.to_nat (tsize t) ≤ fuel)%nat →
  ∃ st' tree' t',
    process fuel (Some tree) i j k st = Ok (Some tree', st')
    ∧ wf st' tree' t'
    ∧ elems t' ≡ₚ elems t
    ∧ tsize t' = tsize t.
Proof.
  intros Hwf Hij Hj Hk Hfuel. pose proof (tsize_length t) as Hlen.
  destruct (process_spec st tree t i j k fuel Hwf Hij Hj Hk Hfuel)
    as (st' & tree' & t' & Hrun & Hwf' & Hel).
  assert (elems t' ≡ₚ elems t) as Hp by (rewrite Hel; apply cut_paste_perm; lia).
  exists st', tree', t'. split_and!; [done..|].
  rewrite !tsize_length. by rewrite Hp.
Qed.

Lemma process_same_nodes_witness :
  ∃ st' tree' t',
    process 5 (Some 1%positive) 1 2 0 (built "hello") = Ok (Some tree', st')
    ∧ wf st' tree' t'
    ∧ elems t' ≡ₚ elems (chain "hello")
    ∧ tsize t' = tsize (chain "hello").
Proof.
  apply (process_same_nodes (built "hello") 1%positive (chain "hello") 1 2 0 5).
  - wf_compute.
  - lia.
  - unfold chain. simpl. lia.
  - unfold chain. simpl. lia.
  - vm_compute. lia.
Defined.

(** X8. An empty tree cannot be split: on a handle whose root is NULL
    [split] dereferences the null pointer that the locator returned, for
    every rank, and so does [process], which starts with a [split], for
    all indices. *)
Theorem split_empty_crashes st tree fuel :
  wf st tree E →
  (∀ rank, split fuel (Some tree) rank st = Crash)
  ∧ (∀ i j k, process fuel (Some tree) i j k st = Crash).
Proof.
  intros Hwf.
  assert (∀ rank, split fuel (Some tree) rank st = Crash) as Hsplit.
  { intros rank. unfold split.
    by rewrite (bind_Ok _ _ _ _ _ (locate_empty st tree rank fuel Hwf)). }
  split; [done|]. intros i j k. unfold process. by apply bind_Crash.
Qed.

Lemma split_empty_crashes_witness :
  (∀ rank, split 1 (Some 1%positive) rank (built "") = Crash)
  ∧ (∀ i j k, process 1 (Some 1%positive) i j k (built "") = Crash).
Proof.
  apply (split_empty_crashes (built "") 1%positive 1).
  wf_compute.
Defined.

(** ** Rotations, the maximum, and the parent links *)

(** X9. [subtreeMaximum] on a node of a tree satisfying the structural
    invariants (the subtree [s] below it sits in the context [c]) returns
    the last node of that subtree and splays it to the root of the whole
    tree: the left part of the result reads everything up to that node,
    the right part what followed the subtree.  Called with NULL it
    returns NULL and leaves the store alone. *)
Theorem subtreeMaximum_last st tree c s fuel :
  wf st tree (plug c s) → s ≠ E → (height (plug c s) ≤ fuel)%nat →
  (∃ st' L m vm R,
     subtreeMaximum fuel (Some tree) (rootp s) st = Ok (Some m, st')
     ∧ wf st' tree (T L m vm R)
     ∧ elems L ++ [(m, vm)] = ebefore c ++ elems s
     ∧ elems R = eafter c)
  ∧ subtreeMaximum fuel (Some tree) None st = Ok (None, st).
Proof.
  intros Hwf Hne Hfuel. split; [|done].
  pose proof (height_plug c s) as Hh.
  destruct (rightmost_spec s st tree c fuel Hwf Hne ltac:(lia))
    as (c' & A & m & vm & Hrun & Hplug & Haft & Hlen).
  rewrite <- Hplug in Hwf.
  destruct (splay_loop_spec fuel st tree c' A m vm E Hwf ltac:(lia))
    as (st' & L & R & Hrun' & Hwf' & HL & HR & _).
  pose proof (wf_node _ _ _ _ _ _ _ Hwf) as Hm.
  exists st', L, m, vm, R. split_and!; [|done|..].
  - unfold subtreeMaximum, _splay. destruct s; [done|]. simpl in Hrun |- *. run.
  - apply (f_equal elems) in Hplug. rewrite !elems_plug in Hplug. simpl in Hplug.
    rewrite Haft in Hplug. rewrite HL. rewrite !app_assoc in Hplug.
    apply app_inv_tail in Hplug. by rewrite <- Hplug, <- !app_assoc.
  - by rewrite HR, Haft.
Qed.

Lemma subtreeMaximum_last_witness :
  (∃ st' L m vm R,
     subtreeMaximum 5 (Some 1%positive) (rootp (chain "hell")) (built "hello") = Ok (Some m, st')
     ∧ wf st' 1%positive (T L m vm R)
     ∧ elems L ++ [(m, vm)] = ebefore [FL 5%positive "o"%char E] ++ elems (chain "hell")
     ∧ elems R = eafter [FL 5%positive "o"%char E])
  ∧ subtreeMaximum 5 (Some 1%positive) None (built "hello") = Ok (None, built "hello").
Proof.
  apply (subtreeMaximum_last (built "hello") 1%positive [FL 5%positive "o"%char E]
           (chain "hell") 5).
  - wf_compute.
  - unfold chain. simpl. discriminate.
  - vm_compute. lia.
Defined.

(** X10. Parent links stay consistent under every operation but the
    general branch of [insert]: after a rotation at any node, [_splay],
    the locator, [insertSpecific], [split], [merge] in either order and
    [process], every node below the root of each resulting tree has a
    parent pointer to a node exactly one of whose child links points
    back to it. *)
Theorem parent_links_kept st tree t fuel :
  wf st tree t → (Z.to_nat (tsize t) ≤ fuel)%nat →
  (∀ x, x ∈ addrs t →
     (∃ st', _rotateRight (Some tree) (Some x) st = Ok (tt, st') ∧ parent_inv st' tree)
     ∧ (∃ st', _rotateLeft (Some tree) (Some x) st = Ok (tt, st') ∧ parent_inv st' tree)
     ∧ (∃ st', _splay fuel (Some tree) (Some x) st = Ok (tt, st') ∧ parent_inv st' tree))
  ∧ (∀ k, 0 ≤ k < UINT_RANGE →
       ∃ r st', orderStatisticZeroBasedRanking fuel (Some tree) k st = Ok (r, st')
                ∧ parent_inv st' tree)
  ∧ (∀ c, tsize t + 1 < UINT_RANGE →
       ∃ st', insertSpecific (Some tree) c st = Ok (tt, st') ∧ parent_inv st' tree)
  ∧ (∀ rank, 0 ≤ rank < UINT_RANGE → t ≠ E →
       ∃ tree1 tree2 st',
         split fuel (Some tree) rank st = Ok ((Some tree1, Some tree2), st')
         ∧ parent_inv st' tree1 ∧ parent_inv st' tree2)
  ∧ (∀ p2 t2, own st p2 t2 → sep (addrs t) (addrs t2) →
       tsize t + tsize t2 < UINT_RANGE → (height t2 ≤ fuel)%nat →
       (∃ p st', merge fuel (Some tree) p2 st = Ok (p, st')
                 ∧ ∀ u, p = Some u → parent_inv st' u)
       ∧ (∃ p st', merge fuel p2 (Some tree) st = Ok (p, st')
                   ∧ ∀ u, p = Some u → parent_inv st' u))
  ∧ (∀ i j k, 0 ≤ i ≤ j → j ≤ tsize t - 1 → 0 ≤ k ≤ tsize t - (j - i + 1) →
       ∃ tree' st', process fuel (Some tree) i j k st = Ok (Some tree', st')
                    ∧ parent_inv st' tree').
Proof.
  intros Hwf Hfuel. pose proof (height_fuel t fuel Hfuel) as Hh.
  split_and!.
  - intros x Hx. split_and!.
    + destruct (rotateRight_any st tree t x Hwf Hx) as (st' & t' & Hrun & Hwf' & _).
      exists st'. split; [done|]. by eapply wf_parent_inv.
    + destruct (rotateLeft_any st tree t x Hwf Hx) as (st' & t' & Hrun & Hwf' & _).
      exists st'. split; [done|]. by eapply wf_parent_inv.
    + destruct (in_tree_plug t x Hx) as (c & A & v & B & ->).
      pose proof (height_plug c (T A x v B)) as Hc.
      destruct (splay_spec st tree c A x v B fuel Hwf ltac:(lia))
        as (st' & L & R & Hrun & Hwf' & _).
      exists st'. split; [done|]. by eapply wf_parent_inv.
  - intros k Hk. destruct (shape_E_dec t) as [->|Hne].
    + exists None, st. split; [by apply locate_empty|]. by eapply wf_parent_inv.
    + destruct (locate_spec st tree t k fuel Hwf Hne Hk Hh)
        as (st' & L & x & v & R & Hrun & Hwf' & _).
      exists (Some x), st'. split; [done|]. by eapply wf_parent_inv.
  - intros c Hroom.
    destruct (insertSpecific_spec st tree t c Hwf Hroom) as (st' & a & Hrun & Hwf' & _).
    exists st'. split; [done|]. by eapply wf_parent_inv.
  - intros rank Hrank Hne.
    destruct (split_spec st tree t rank fuel Hwf Hne Hrank Hh)
      as (st' & t1 & t2 & L & x & v & R & Hrun & Hwf1 & Hwf2 & _).
    exists t1, t2, st'. split_and!; [done|by eapply wf_parent_inv..].
  - intros p2 t2 H2 Hsep Hsz Hh2. split.
    + destruct (merge_spec st (Some tree) t p2 t2 fuel Hwf H2 Hsep Hsz Hh)
        as (st' & p & t' & Hrun & Hown & _).
      exists p, st'. split; [done|]. intros u ->. by eapply wf_parent_inv.
    + destruct (merge_spec st p2 t2 (Some tree) t fuel H2 Hwf (sep_sym _ _ Hsep)
                  ltac:(lia) Hh2)
        as (st' & p & t' & Hrun & Hown & _).
      exists p, st'. split; [done|]. intros u ->. by eapply wf_parent_inv.
  - intros i j k Hij Hj Hk.
    destruct (process_spec st tree t i j k fuel Hwf Hij ltac:(lia) Hk Hfuel)
      as (st' & tree' & t' & Hrun & Hwf' & _).
    exists tree', st'. split; [done|]. by eapply wf_parent_inv.
Qed.

Lemma parent_links_kept_witness :
  ∃ tree' st', process 5 (Some 1%positive) 1 2 0 (built "hello") = Ok (Some tree', st')
               ∧ parent_inv st' tree'.
Proof.
  refine (proj2 (proj2 (proj2 (proj2 (proj2
    (parent_links_kept (built "hello") 1%positive (chain "hello") 5 _ _))))) 1 2 0 _ _ _).
  - wf_compute.
  - vm_compute. lia.
  - lia.
  - unfold chain. simpl. lia.
  - unfold chain. simpl. lia.
Defined.

(** ** [insert], branch by branch *)

(** The general branch of [insert], on a non-empty tree and with
    [rank ≠ size]: the exact records it leaves.  The left subtree [L] of
    the node found is handed to the new node, but its root still names
    the old one as its parent. *)
Lemma insert_general st tree t rank c fuel :
  wf st tree t → t ≠ E → rank ≠ tsize t → 0 ≤ rank < UINT_RANGE →
  tsize t + 1 < UINT_RANGE → (height t ≤ fuel)%nat →
  ∃ st' n L x v R,
    insert fuel (Some tree) rank c st = Ok (tt, st')
    ∧ nodes st !! n = None
    ∧ elems t = elems L ++ (x, v) :: elems R
    ∧ tsize L = Z.min rank (tsize t - 1)
    ∧ trees st' !! tree = Some (SplayTree.mk (Some n) (tsize t + 1))
    ∧ nodes st' !! n = Some (Node.mk c None (rootp L) (Some x) (tsize t + 1))
    ∧ nodes st' !! x = Some (Node.mk v (Some n) None (rootp R) (tsize R + 1))
    ∧ rep (nodes st') (Some x) L
    ∧ rep (nodes st') (Some x) R
    ∧ NoDup (n :: addrs L ++ x :: addrs R).
Proof.
  intros Hwf Hne Hr' Hrank Hsz Hfuel. pose proof (wf_fresh _ _ _ Hwf) as Hfresh.
  destruct st as [h ts]. pose proof Hwf as (Ht & Hrep & Hnd & _).
  simpl in Ht, Hrep, Hfresh.
  pose proof (fresh_addr_None h) as Hnone.
  remember (fresh_addr h) as n eqn:En.
  pose proof (tsize_nonneg t) as Hnn.
  set (st0 := State (<[n := Node.mk c None None None 1]> h) ts).
  assert (wf st0 tree t) as Hwf0.
  { apply wf_intro; simpl; [done| |done|lia]. by apply rep_insert_ne. }
  unfold insert, createNode.
  rewrite (bind_Ok _ _ _ _ _ (mallocN_Ok _ _)). cbn [nodes trees]. rewrite <- En. fold st0.
  pose proof (tsize_pos t Hne) as Hpos.
  assert ((rank =? tsize t) = false) as Hr by (by apply Z.eqb_neq).
  destruct (locate_spec st0 tree t rank fuel Hwf0 Hne Hrank Hfuel)
    as (st1 & L & x & v & R & Hrun & Hwf1 & Hel & HposL & Hfr).
  assert (tsize t = tsize L + tsize R + 1) as Hts.
  { rewrite !tsize_length, Hel, length_app. simpl. lia. }
  destruct st1 as [h1 ts1]. pose proof Hwf1 as (Ht1 & (Hx & HL & HR) & Hnd1 & _).
  simpl in Ht1, Hx, HL, HR, Hnd1.
  assert (n ∉ addrs L ++ x :: addrs R) as Hn1.
  { rewrite (addrs_of_elems t (T L x v R)) in Hfresh by done. done. }
  assert (h1 !! n = Some (Node.mk c None None None 1)) as Hn.
  { destruct Hfr as [Hfn _]. simpl in Hfn. rewrite Hfn by done. by apply lookup_insert_eq. }
  pose proof (tsize_nonneg L). pose proof (tsize_nonneg R).
  assert (NoDup (n :: addrs L ++ x :: addrs R)) as Hndn by (by apply NoDup_cons).
  nd_norm Hn1. pose proof Hnd1 as Hnd1'. nd_norm Hnd1'.
  eexists _, n, L, x, v, R. split.
  { unfold incrSize, updateSize. run. rewrite Hr. simpl. run.
    assert ((tsize t =? 0) = false) as -> by lia. run. }
  cbn [nodes trees]. split_and!; [done|done|done|..|done].
  - lk. node_eq.
  - lk. node_eq.
  - lk. node_eq.
  - rep_tac.
  - rep_tac.
Qed.

(** The appending branch ([rank == size], on a non-empty tree) and the
    branch for an empty tree both leave a well-formed tree. *)
Lemma insert_append st tree t c fuel :
  wf st tree t → t ≠ E → tsize t + 1 < UINT_RANGE → (height t ≤ fuel)%nat →
  ∃ st' n t',
    insert fuel (Some tree) (tsize t) c st = Ok (tt, st')
    ∧ nodes st !! n = None
    ∧ wf st' tree (T t' n c E)
    ∧ elems t' = elems t.
Proof.
  intros Hwf Hne Hsz Hfuel. pose proof (wf_fresh _ _ _ Hwf) as Hfresh.
  destruct st as [h ts]. pose proof Hwf as (Ht & Hrep & Hnd & _).
  simpl in Ht, Hrep, Hfresh.
  pose proof (fresh_addr_None h) as Hnone.
  remember (fresh_addr h) as n eqn:En.
  pose proof (tsize_nonneg t) as Hnn.
  set (st0 := State (<[n := Node.mk c None None None 1]> h) ts).
  assert (wf st0 tree t) as Hwf0.
  { apply wf_intro; simpl; [done| |done|lia]. by apply rep_insert_ne. }
  unfold insert, createNode.
  rewrite (bind_Ok _ _ _ _ _ (mallocN_Ok _ _)). cbn [nodes trees]. rewrite <- En. fold st0.
  pose proof (tsize_pos t Hne) as Hpos.
  destruct (locate_spec st0 tree t (tsize t - 1) fuel Hwf0 Hne ltac:(lia) Hfuel)
    as (st1 & L & x & v & R & Hrun & Hwf1 & Hel & HposL & Hfr).
  assert (tsize t = tsize L + tsize R + 1) as Hts.
  { rewrite !tsize_length, Hel, length_app. simpl. lia. }
  assert (R = E) as ->.
  { destruct (shape_E_dec R) as [|HR]; [done|]. pose proof (tsize_pos R HR). lia. }
  destruct st1 as [h1 ts1]. pose proof Hwf1 as (Ht1 & (Hx & HL & _) & Hnd1 & _).
  simpl in Ht1, Hx, HL, Hnd1.
  assert (n ∉ addrs L ++ [x]) as Hn1.
  { rewrite (addrs_of_elems t (T L x v E)) in Hfresh by done. done. }
  assert (h1 !! n = Some (Node.mk c None None None 1)) as Hn.
  { destruct Hfr as [Hfn _]. simpl in Hfn. rewrite Hfn by done. by apply lookup_insert_eq. }
  pose proof (tsize_nonneg L). nd_norm Hn1. pose proof Hnd1 as Hnd1'. nd_norm Hnd1'.
  eexists _, n, (T L x v E). split.
  { unfold incrSize. run. rewrite Z.eqb_refl. assert ((0 <? tsize t) = true) as -> by lia.
    simpl. rewrite wrap_small by lia. run. }
  split_and!; [done| |done].
  apply wf_intro; cbn [nodes trees].
  - lk. node_eq.
  - simpl. split_and!; heap_goal.
  - simpl. nd_goal.
  - simpl. lia.
Qed.

Lemma insert_empty st tree rank c fuel :
  wf st tree E →
  ∃ st' n,
    insert fuel (Some tree) rank c st = Ok (tt, st')
    ∧ nodes st !! n = None
    ∧ wf st' tree (T E n c E).
Proof.
  intros Hwf. destruct st as [h ts]. pose proof Hwf as (Ht & _). simpl in Ht.
  pose proof (fresh_addr_None h) as Hnone.
  remember (fresh_addr h) as n eqn:En.
  unfold insert, createNode.
  rewrite (bind_Ok _ _ _ _ _ (mallocN_Ok _ _)). cbn [nodes trees]. rewrite <- En.
  eexists _, n. split.
  { unfold incrSize. run3. destruct (rank =? 0); simpl; run3. }
  split; [done|]. apply wf_intro; cbn [nodes trees].
  - lk. node_eq.
  - simpl. split_and!; heap_goal.
  - simpl. apply NoDup_singleton.
  - simpl. done.
Qed.

(** X11. [insert] at the front ([rank = 0]) or at the end
    ([rank = size]) keeps every structural invariant, parent links
    included: the tree it leaves is a rope reading the old text with the
    character put at [rank]. *)
Theorem insert_at_ends st tree t rank c fuel :
  wf st tree t → rank = 0 ∨ rank = tsize t →
  tsize t + 1 < UINT_RANGE → (height t ≤ fuel)%nat →
  ∃ st',
    insert fuel (Some tree) rank c st = Ok (tt, st')
    ∧ Rope st' tree (take (Z.to_nat rank) (vals t) ++ c :: drop (Z.to_nat rank) (vals t)).
Proof.
  intros Hwf Hrank Hroom Hfuel. pose proof (tsize_nonneg t) as Hnn.
  destruct (shape_E_dec t) as [->|Hne].
  { destruct (insert_empty st tree rank c fuel Hwf) as (st' & n & Hrun & _ & Hwf').
    exists st'. split; [done|]. exists (T E n c E). split; [done|].
    simpl. by rewrite take_nil, drop_nil. }
  pose proof (tsize_pos t Hne) as Hpos.
  destruct (Z.eq_dec rank (tsize t)) as [->|Hr].
  - destruct (insert_append st tree t c fuel Hwf Hne Hroom Hfuel)
      as (st' & n & t' & Hrun & _ & Hwf' & Hel).
    exists st'. split; [done|]. exists (T t' n c E). split; [done|].
    simpl. rewrite <- (vals_length t), take_ge, drop_ge by done.
    by rewrite !vals_elems, Hel.
  - destruct Hrank as [->|?]; [|done].
    destruct (insert_general st tree t 0 c fuel Hwf Hne Hr ltac:(lia) Hroom Hfuel)
      as (st' & n & L & x & v & R & Hrun & _ & Hel & HposL & Ht' & Hn & Hx & _ & HR & Hnd).
    rewrite Z.min_l in HposL by lia.
    assert (L = E) as ->.
    { destruct (shape_E_dec L) as [|HL]; [done|]. pose proof (tsize_pos L HL). lia. }
    assert (tsize t = tsize R + 1) as Hts.
    { rewrite !tsize_length, Hel. simpl. lia. }
    exists st'. split; [done|]. exists (T E n c (T E x v R)). split.
    + apply wf_intro.
      * rewrite Ht'. simpl. do 2 f_equal. lia.
      * simpl. split_and!; [|done| |done|done].
        -- rewrite Hn. unfold node_of. simpl. do 2 f_equal. lia.
        -- rewrite Hx. unfold node_of. simpl. do 2 f_equal.
      * done.
      * simpl. lia.
    + simpl. rewrite !vals_elems, Hel. done.
Qed.

Lemma insert_at_ends_witness :
  ∃ st',
    insert 5 (Some 1%positive) 0 "x"%char (built "hello") = Ok (tt, st')
    ∧ Rope st' 1%positive
        (take (Z.to_nat 0) (vals (chain "hello"))
         ++ "x"%char :: drop (Z.to_nat 0) (vals (chain "hello"))).
Proof.
  apply (insert_at_ends (built "hello") 1%positive (chain "hello") 0 "x"%char 5).
  - wf_compute.
  - by left.
  - unfold UINT_RANGE, chain. simpl. lia.
  - vm_compute. lia.
Defined.

(** X12. [insert] strictly inside the text ([0 < rank < size]) always
    leaves a stale parent pointer: the left subtree of the node found at
    [rank] is handed to the new node, but its root keeps naming the old
    node as its parent, and that node no longer has a left child.  So
    the parent links of the resulting tree are inconsistent, for every
    tree and every such rank. *)
Theorem insert_inside_stale_parent st tree t rank c fuel :
  wf st tree t → 0 < rank < tsize t →
  tsize t + 1 < UINT_RANGE → (height t ≤ fuel)%nat →
  ∃ st',
    insert fuel (Some tree) rank c st = Ok (tt, st')
    ∧ ¬ parent_inv st' tree.
Proof.
  intros Hwf Hrank Hroom Hfuel.
  assert (t ≠ E) as Hne by (intros ->; simpl in *; lia).
  destruct (insert_general st tree t rank c fuel Hwf Hne ltac:(lia) ltac:(lia) Hroom Hfuel)
    as (st' & n & L & x & v & R & Hrun & _ & Hel & HposL & Ht' & Hn & Hx & HL & HR & Hnd).
  rewrite Z.min_l in HposL by lia.
  exists st'. split; [done|]. intros (s & Hs & Hpar).
  rewrite Ht' in Hs. injection Hs as <-. simpl in Hpar.
  destruct L as [|Ll y vy Lr]; [simpl in HposL; lia|].
  destruct HL as (Hy & _). simpl in Hnd. nd_norm Hnd.
  destruct (Hpar y) as (ny & p & np & Hny & Hp & Hnp & Hlink).
  - eapply reach_left; [exact Hn|]. simpl. apply reach_here.
  - congruence.
  - rewrite Hy in Hny. injection Hny as <-. simpl in Hp. injection Hp as <-.
    rewrite Hx in Hnp. injection Hnp as <-. simpl in Hlink.
    destruct Hlink as [[? _]|[_ Hright]]; [done|].
    apply rootp_addrs in Hright. done.
Qed.

Lemma insert_inside_stale_parent_witness :
  ∃ st',
    insert 5 (Some 1%positive) 2 "x"%char (built "hello") = Ok (tt, st')
    ∧ ¬ parent_inv st' 1%positive.
Proof.
  apply (insert_inside_stale_parent (built "hello") 1%positive (chain "hello") 2 "x"%char 5).
  - wf_compute.
  - unfold chain. simpl. lia.
  - unfold UINT_RANGE, chain. simpl. lia.
  - vm_compute. lia.
Defined.

(** ** Rotating back, and locating again *)

Lemma rep_det h h' par t a :
  rep h par t → rep h' par t → a ∈ addrs t → h !! a = h' !! a.
Proof.
  revert par. induction t as [|l IHl a0 v r IHr]; simpl; intros par H H' Ha;
    [by apply elem_of_nil in Ha|].
  destruct H as (H0 & Hl & Hr). destruct H' as (H0' & Hl' & Hr').
  apply elem_of_app in Ha as [Ha|Ha]; [by eapply IHl|].
  apply elem_of_cons in Ha as [->|Ha]; [by rewrite H0, H0'|by eapply IHr].
Qed.

(** Two states in which the same handle owns the same tree, and which
    agree elsewhere, are equal. *)
Lemma wf_state_eq st st' tree t F :
  wf st tree t → wf st' tree t →
  framed F [tree] st st' → (∀ a, a ∈ F → a ∈ addrs t) → st' = st.
Proof.
  intros (Ht & Hrep & _) (Ht' & Hrep' & _) [Hfn Hft] HF.
  destruct st as [h ts], st' as [h' ts']. simpl in *. f_equal.
  - apply map_eq. intros a. destruct (decide (a ∈ addrs t)) as [Ha|Ha].
    + by eapply rep_det.
    + apply Hfn. intros Hin. by apply Ha, HF.
  - apply map_eq. intros u. destruct (decide (u = tree)) as [->|Hu].
    + by rewrite Ht, Ht'.
    + apply Hft. by apply notin1.
Qed.

(** X13. A left rotation undoes a right rotation: in a tree satisfying
    the structural invariants, [_rotateRight] at a node [p] with left
    child [y] lifts [y] into the place of [p] (the invariants and the
    text are kept), and [_rotateLeft] at [y] then restores the store
    exactly as it was. *)
Theorem rotateRight_then_left st tree c A y vy B p vp C :
  wf st tree (plug c (T (T A y vy B) p vp C)) →
  ∃ st1,
    _rotateRight (Some tree) (Some p) st = Ok (tt, st1)
    ∧ wf st1 tree (plug c (T A y vy (T B p vp C)))
    ∧ vals (plug c (T A y vy (T B p vp C))) = vals (plug c (T (T A y vy B) p vp C))
    ∧ _rotateLeft (Some tree) (Some y) st1 = Ok (tt, st).
Proof.
  intros Hwf.
  destruct (rotateRight_spec st tree c A y vy B p vp C Hwf) as (st1 & Hrun1 & Hwf1 & Hfr1).
  destruct (rotateLeft_spec st1 tree c A y vy B p vp C Hwf1) as (st2 & Hrun2 & Hwf2 & Hfr2).
  exists st1. split_and!; [done..| |].
  - rewrite !vals_elems. f_equal. apply elems_plug_eq. simpl. by rewrite <- app_assoc.
  - rewrite Hrun2. do 2 f_equal.
    eapply (wf_state_eq st st2 tree _ _ Hwf Hwf2).
    + eapply framed_trans; [exact Hfr1|]. eapply framed_eq; [|exact Hfr2]. same_addrs.
    + done.
Qed.

Lemma rotateRight_then_left_witness :
  ∃ st1,
    _rotateRight (Some 1%positive) (Some 4%positive) (built "hello") = Ok (tt, st1)
    ∧ wf st1 1%positive
        (plug [FL 5%positive "o"%char E]
           (T (chain "he") 3%positive "l"%char (T E 4%positive "l"%char E)))
    ∧ vals (plug [FL 5%positive "o"%char E]
              (T (chain "he") 3%positive "l"%char (T E 4%positive "l"%char E)))
      = vals (plug [FL 5%positive "o"%char E]
                (T (T (chain "he") 3%positive "l"%char E) 4%positive "l"%char E))
    ∧ _rotateLeft (Some 1%positive) (Some 3%positive) st1 = Ok (tt, built "hello").
Proof.
  apply (rotateRight_then_left (built "hello") 1%positive [FL 5%positive "o"%char E]
           (chain "he") 3%positive "l"%char E 4%positive "l"%char E).
  wf_compute.
Defined.

(** X14. Locating is idempotent: after [orderStatisticZeroBasedRanking]
    has returned for some [k], a second call with the same [k] returns
    the same pointer and leaves the store exactly as the first call left
    it (the node is at the root already, so nothing is rotated). *)
Theorem locate_twice st tree t k fuel :
  wf st tree t → 0 ≤ k < UINT_RANGE → (height t ≤ fuel)%nat →
  ∃ r st',
    orderStatisticZeroBasedRanking fuel (Some tree) k st = Ok (r, st')
    ∧ orderStatisticZeroBasedRanking fuel (Some tree) k st' = Ok (r, st').
Proof.
  intros Hwf Hk Hfuel. destruct (shape_E_dec t) as [->|Hne].
  { exists None, st. split; by apply locate_empty. }
  destruct (locate_spec st tree t k fuel Hwf Hne Hk Hfuel)
    as (st' & L & x & v & R & Hrun & Hwf' & Hel & HposL & _).
  exists (Some x), st'. split; [done|].
  assert (tsize t = tsize L + tsize R + 1) as Hts.
  { rewrite !tsize_length, Hel, length_app. simpl. lia. }
  pose proof Hwf' as (Ht' & (Hx & HL & HR) & _). simpl in Ht', Hx, HL, HR.
  pose proof (tsize_nonneg L). pose proof (tsize_nonneg R).
  destruct fuel as [|fuel]; [destruct t; [done|simpl in Hfuel; lia]|].
  unfold orderStatisticZeroBasedRanking, _splay. run. simpl descend. run.
  destruct (k =? tsize L) eqn:E1; [run|].
  apply Z.eqb_neq in E1. assert ((k <? tsize L) = false) as -> by lia.
  assert (R = E) as ->.
  { destruct (shape_E_dec R) as [|HR0]; [done|]. pose proof (tsize_pos R HR0). lia. }
  simpl. run.
Qed.

Lemma locate_twice_witness :
  ∃ r st',
    orderStatisticZeroBasedRanking 5 (Some 1%positive) 2 (built "hello") = Ok (r, st')
    ∧ orderStatisticZeroBasedRanking 5 (Some 1%positive) 2 st' = Ok (r, st').
Proof.
  apply (locate_twice (built "hello") 1%positive (chain "hello") 2 5).
  - wf_compute.
  - unfold UINT_RANGE. lia.
  - vm_compute. lia.
Defined.

(** ** [destroyTree] *)

Lemma lookup_release l h a :
  release l h !! a = if decide (a ∈ l) then None else h !! a.
Proof.
  induction l as [|b l IH]; simpl; [done|].
  destruct (decide (b = a)) as [->|Hne].
  - rewrite lookup_delete_eq. rewrite decide_True; [done|]. by left.
  - rewrite lookup_delete_ne by done. rewrite IH.
    destruct (decide (a ∈ l)) as [Hin|Hin].
    + rewrite decide_True; [done|]. by right.
    + rewrite decide_False; [done|]. intros [->|?]%elem_of_cons; done.
Qed.

Lemma lookup_release_notin l h a : a ∉ l → release l h !! a = h !! a.
Proof. intros Ha. by rewrite lookup_release, decide_False. Qed.

Lemma lookup_release_in l h a : a ∈ l → release l h !! a = None.
Proof. intros Ha. by rewrite lookup_release, decide_True. Qed.

Lemma srep_release h t l : sep (addrs t) l → srep h t → srep (release l h) t.
Proof.
  intros Hsep. apply srep_frame. intros a Ha. apply lookup_release_notin. by apply Hsep.
Qed.

Lemma spine_height t : (length (spine t) ≤ height t)%nat.
Proof.
  induction t as [|l IHl a v r IHr]; simpl; [done|]. rewrite length_app. simpl. lia.
Qed.

Lemma height_addrs t : (height t ≤ length (addrs t))%nat.
Proof.
  induction t as [|l IHl a v r IHr]; simpl; [done|]. rewrite length_app. simpl. lia.
Qed.

Lemma pushLeft_spec t : ∀ fuel cap stk bs st,
  srep (nodes st) t → (length (spine t) ≤ fuel)%nat →
  Z.of_nat (length stk + length (spine t)) ≤ cap →
  length bs = length stk →
  pushLeft fuel cap (rootp t) stk bs st
  = Ok ((map Some (spine t) ++ stk, repeat false (length (spine t)) ++ bs), st).
Proof.
  induction t as [|l IHl a v r _]; intros fuel cap stk bs st Hrep Hfuel Hcap Hbs;
    [by destruct fuel|].
  destruct Hrep as ((par & Ha) & Hl & _). simpl in Hfuel, Hcap.
  rewrite length_app in Hfuel, Hcap. simpl in Hfuel, Hcap.
  destruct fuel as [|fuel]; [lia|]. cbn [pushLeft rootp].
  rewrite Hbs.
  assert ((Z.of_nat (length stk) <? cap) = true) as -> by lia. simpl.
  rewrite (bind_Ok _ _ _ _ _ (rdN_Ok _ _ _ _ Ha)). simpl.
  rewrite IHl; [|done|lia|simpl; lia|simpl; lia].
  simpl. rewrite length_app, repeat_app, map_app, <- !app_assoc. done.
Qed.

Lemma release_node h ts l a r :
  State (delete a (release (addrs r) (release (addrs l) h))) ts
  = State (release (addrs l ++ a :: addrs r) h) ts.
Proof.
  f_equal. apply map_eq. intros b.
  destruct (decide (a = b)) as [->|Hne].
  - rewrite lookup_delete_eq, lookup_release_in; [done|]. set_solver.
  - rewrite lookup_delete_ne by done. rewrite !lookup_release.
    destruct (decide (b ∈ addrs r)), (decide (b ∈ addrs l)),
      (decide (b ∈ addrs l ++ a :: addrs r)); try done; set_solver.
Qed.

(** The freeing loop, started with the left spine of [t] on top of the
    stack, releases the nodes of [t] and arrives at the rest of the
    stack. *)
Lemma free_subtree t : ∀ fuel cap stk bs h ts,
  srep h t → NoDup (addrs t) → length bs = length stk →
  Z.of_nat (length stk + height t) ≤ cap →
  postOrderFree_loop (2 * length (addrs t) + fuel) cap
    (map Some (spine t) ++ stk) (repeat false (length (spine t)) ++ bs) (State h ts)
  = postOrderFree_loop fuel cap stk bs (State (release (addrs t) h) ts).
Proof.
  induction t as [|l IHl a v r IHr]; intros fuel cap stk bs h ts Hrep Hnd Hbs Hcap; [done|].
  destruct Hrep as ((par & Ha) & Hl & Hr). simpl in Hnd, Hcap. nd_norm Hnd.
  pose proof (spine_height r) as Hsr. pose proof (height_addrs r) as Hhr.
  assert (2 * length (addrs (T l a v r)) + fuel
          = 2 * length (addrs l) + S (2 * length (addrs r) + S fuel))%nat as ->
    by (simpl; rewrite length_app; simpl; lia).
  cbn [spine].
  rewrite length_app, repeat_app, map_app, <- !app_assoc.
  cbn [length repeat map app].
  rewrite (IHl _ cap (Some a :: stk) (false :: bs) h ts);
    [|done|done|simpl; lia|simpl; lia].
  assert (release (addrs l) h !! a = Some (node_of par l v r)) as Ha1.
  { by rewrite lookup_release_notin. }
  cbn [postOrderFree_loop].
  rewrite (bind_Ok _ _ _ _ _
             (rdN_Ok Node.right a _ (State (release (addrs l) h) ts) Ha1)).
  cbn [node_of Node.right].
  assert (srep (release (addrs l) h) r) as Hr1
    by (apply srep_release; [by apply sep_sym|done]).
  pose proof (pushLeft_spec r (2 * length (addrs r) + S fuel) cap (Some a :: stk)
                (true :: bs) (State (release (addrs l) h) ts) Hr1 ltac:(lia)
                ltac:(simpl; lia) ltac:(simpl; lia)) as Hpush.
  rewrite (bind_Ok _ _ _ _ _ Hpush). cbn [fst snd].
  rewrite (IHr _ cap (Some a :: stk) (true :: bs) _ ts);
    [|done|done|simpl; lia|simpl; lia].
  assert (release (addrs r) (release (addrs l) h) !! a = Some (node_of par l v r)) as Ha2.
  { by rewrite lookup_release_notin. }
  cbn [postOrderFree_loop].
  assert (freeN (Some a) (State (release (addrs r) (release (addrs l) h)) ts)
          = Ok (tt, State (delete a (release (addrs r) (release (addrs l) h))) ts)) as Hfree.
  { unfold freeN. simpl. by rewrite Ha2. }
  rewrite (bind_Ok _ _ _ _ _ Hfree). by rewrite release_node.
Qed.

Lemma destroyTree_spec st tree t fuel :
  trees st !! tree = Some (SplayTree.mk (rootp t) (tsize t)) →
  srep (nodes st) t → NoDup (addrs t) → (2 * length (addrs t) ≤ fuel)%nat →
  destroyTree fuel (Some tree) st
  = Ok (tt, State (release (addrs t) (nodes st)) (delete tree (trees st))).
Proof.
  intros Ht Hrep Hnd Hfuel. unfold destroyTree.
  rewrite (bind_Ok _ _ _ _ _ (rdT_Ok _ _ _ _ Ht)). simpl.
  destruct (shape_E_dec t) as [->|Hne].
  { simpl. unfold freeT. by rewrite Ht. }
  assert (∃ x, rootp t = Some x) as [x Hx] by (destruct t; [done|eauto]).
  rewrite Hx. unfold postOrderFree.
  rewrite bind_assoc, (bind_Ok _ _ _ _ _ (rdT_Ok _ _ _ _ Ht)). simpl.
  rewrite bind_assoc, (bind_Ok _ _ _ _ _ (rdT_Ok _ _ _ _ Ht)). simpl.
  pose proof (spine_height t) as Hsp. pose proof (height_addrs t) as Hh.
  pose proof (height_le_size t) as Hhs. pose proof (tsize_nonneg t) as Hnn.
  rewrite bind_assoc,
    (bind_Ok _ _ _ _ _
       (pushLeft_spec t fuel (tsize t) [] [] st Hrep ltac:(lia)
          ltac:(simpl; lia) eq_refl)).
  cbn [fst snd]. rewrite bind_assoc.
  destruct st as [h ts]. simpl in Ht, Hrep |- *.
  replace fuel with (2 * length (addrs t) + (fuel - 2 * length (addrs t)))%nat at 1 by lia.
  unfold bind at 1.
  rewrite (free_subtree t _ (tsize t) [] [] h ts Hrep Hnd eq_refl ltac:(simpl; lia)).
  assert (∀ f st0, postOrderFree_loop f (tsize t) [] [] st0 = Ok (tt, st0)) as ->
    by (by intros [|f] st0).
  simpl. unfold wrT, bind, freeT. simpl. rewrite Ht. simpl.
  rewrite lookup_insert_eq. simpl. rewrite !lookup_insert_eq. simpl.
  by rewrite insert_insert_eq, delete_insert_eq.
Qed.

Lemma wf_linked st tree t : wf st tree t → linked st tree t.
Proof. intros (Ht & Hrep & Hnd & _). split_and!; [done| |done]. by eapply rep_srep. Qed.

(** X15. [destroyTree] releases a tree exactly.  It follows child links
    only, so it is enough that these and the cached sizes are right, as
    they are in every tree satisfying the structural invariants and in
    the trees that [insert] leaves.  Then [destroyTree] returns normally
    (it frees no address twice, reads no node it has freed, and its two
    stacks of [size] entries do not overflow); afterwards every node of
    the tree and the handle itself are deallocated, and every other node
    and handle is as before.  On NULL it does nothing. *)
Theorem destroyTree_frees st tree t fuel :
  linked st tree t → (2 * length (addrs t) ≤ fuel)%nat →
  (∃ st',
     destroyTree fuel (Some tree) st = Ok (tt, st')
     ∧ (∀ a, a ∈ addrs t → nodes st' !! a = None)
     ∧ (∀ a, a ∉ addrs t → nodes st' !! a = nodes st !! a)
     ∧ trees st' = delete tree (trees st))
  ∧ destroyTree fuel None st = Ok (tt, st).
Proof.
  intros (Ht & Hrep & Hnd) Hfuel. split; [|done].
  eexists. split.
  - by apply (destroyTree_spec st tree t fuel Ht Hrep Hnd).
  - simpl. split_and!; [|intros a Ha..|done].
    + intros a Ha. by apply lookup_release_in.
    + by apply lookup_release_notin.
Qed.

Lemma destroyTree_frees_witness :
  (∃ st',
     destroyTree 6 (Some 1%positive) inserted_ab = Ok (tt, st')
     ∧ (∀ a, a ∈ addrs (read_shape 3 (nodes inserted_ab) (Some 3%positive)) →
          nodes st' !! a = None)
     ∧ (∀ a, a ∉ addrs (read_shape 3 (nodes inserted_ab) (Some 3%positive)) →
          nodes st' !! a = nodes inserted_ab !! a)
     ∧ trees st' = delete 1%positive (trees inserted_ab))
  ∧ destroyTree 6 None inserted_ab = Ok (tt, inserted_ab).
Proof.
  apply (destroyTree_frees inserted_ab 1%positive
           (read_shape 3 (nodes inserted_ab) (Some 3%positive)) 6).
  - split_and!.
    + vm_compute. reflexivity.
    + vm_compute. repeat split; eexists; reflexivity.
    + apply (bool_decide_unpack _). vm_compute. exact I.
  - vm_compute. lia.
Defined.

(** ** What is allocated *)

Lemma bind_inv {A B} (m : M A) (k : A → M B) st r :
  bind m k st = Ok r → ∃ a st1, m st = Ok (a, st1) ∧ k a st1 = Ok r.
Proof. unfold bind. destruct (m st) as [[a st1]| |]; [eauto|done..]. Qed.

Lemma allocs_bind {A B} n k (m : M A) (f : A → M B) :
  allocs n m → (∀ a, allocs k (f a)) → allocs (n + k) (bind m f).
Proof.
  intros Hm Hf st b st' Hrun.
  apply bind_inv in Hrun as (a & st1 & H1 & H2).
  destruct (Hm _ _ _ H1) as (Hn1 & Hs1 & Hc1). destruct (Hf a _ _ _ H2) as (Hn2 & Hs2 & Hc2).
  split_and!; [congruence|set_solver|lia].
Qed.

Lemma allocs_bind0 {A B} k (m : M A) (f : A → M B) :
  allocs 0 m → (∀ a, allocs k (f a)) → allocs k (bind m f).
Proof. apply (allocs_bind 0 k). Qed.

Lemma allocs_ret {A} (a : A) : allocs 0 (ret a).
Proof. intros st b st' [= _ <-]. split_and!; [done|done|lia]. Qed.

Lemma allocs_rdN {A} (f : Node.t → A) p : allocs 0 (rdN f p).
Proof.
  intros st b st' Hrun. unfold rdN in Hrun. destruct p as [a|]; [|done].
  destruct (nodes st !! a); [|done]. injection Hrun as _ <-. split_and!; [done|done|lia].
Qed.

Lemma allocs_rdT {A} (f : SplayTree.t → A) p : allocs 0 (rdT f p).
Proof.
  intros st b st' Hrun. unfold rdT in Hrun. destruct p as [a|]; [|done].
  destruct (trees st !! a); [|done]. injection Hrun as _ <-. split_and!; [done|done|lia].
Qed.

Lemma allocs_wrN u p : allocs 0 (wrN u p).
Proof.
  intros st b st' Hrun. unfold wrN in Hrun. destruct p as [a|]; [|done].
  destruct (nodes st !! a) as [n|] eqn:Ha; [|done]. injection Hrun as _ <-. simpl.
  split_and!; [|done|lia]. rewrite dom_insert_L.
  apply elem_of_dom_2 in Ha. set_solver.
Qed.

Lemma allocs_wrT u p : allocs 0 (wrT u p).
Proof.
  intros st b st' Hrun. unfold wrT in Hrun. destruct p as [a|]; [|done].
  destruct (trees st !! a) as [s|] eqn:Ha; [|done]. injection Hrun as _ <-. simpl.
  apply elem_of_dom_2 in Ha.
  assert (dom (<[a:=u s]> (trees st)) = dom (trees st)) as ->
    by (rewrite dom_insert_L; set_solver).
  split_and!; [done|done|lia].
Qed.

Lemma allocs_mallocT s : allocs 1 (mallocT s).
Proof.
  intros st b st' [= _ <-]. simpl. rewrite dom_insert_L.
  pose proof (fresh_addr_None (trees st)) as Hf. apply not_elem_of_dom in Hf.
  split_and!; [done|set_solver|]. rewrite size_union by set_solver.
  rewrite size_singleton. lia.
Qed.

Create HintDb allocs.
#[local] Hint Resolve allocs_ret allocs_rdN allocs_rdT allocs_wrN allocs_wrT : allocs.

(* the code of a function that allocates nothing, piece by piece *)
Ltac allocs0 :=
  repeat first
    [ apply allocs_bind0; [|intros ?]
    | solve [eauto with allocs]
    | match goal with
      | |- allocs _ (match ?x with _ => _ end) => destruct x
      end ].

Lemma allocs_sizeOrZero p : allocs 0 (sizeOrZero p).
Proof. unfold sizeOrZero. allocs0. Qed.
#[local] Hint Resolve allocs_sizeOrZero : allocs.

Lemma allocs_updateSize p : allocs 0 (updateSize p).
Proof. unfold updateSize. allocs0. Qed.
#[local] Hint Resolve allocs_updateSize : allocs.

Lemma allocs_replaceChild t p n y : allocs 0 (replaceChild t p n y).
Proof. unfold replaceChild. allocs0. Qed.
#[local] Hint Resolve allocs_replaceChild : allocs.

Lemma allocs_rotateRight t n : allocs 0 (_rotateRight t n).
Proof. unfold _rotateRight. allocs0. Qed.

Lemma allocs_rotateLeft t n : allocs 0 (_rotateLeft t n).
Proof. unfold _rotateLeft. allocs0. Qed.
#[local] Hint Resolve allocs_rotateRight allocs_rotateLeft : allocs.

Lemma allocs_splay_body t n p : allocs 0 (_splay_body t n p).
Proof. unfold _splay_body. allocs0. Qed.
#[local] Hint Resolve allocs_splay_body : allocs.

Lemma allocs_timeout {A} n : allocs n (@timeout A).
Proof. by intros st b st' Hrun. Qed.

Lemma allocs_crash {A} n : allocs n (@crash A).
Proof. by intros st b st' Hrun. Qed.
#[local] Hint Resolve allocs_timeout allocs_crash : allocs.

Lemma allocs_splay_loop fuel : ∀ t n p, allocs 0 (_splay_loop fuel t n p).
Proof.
  induction fuel as [|fuel IH]; intros t n p; destruct p; simpl; allocs0.
Qed.
#[local] Hint Resolve allocs_splay_loop : allocs.

Lemma allocs_splay fuel t n : allocs 0 (_splay fuel t n).
Proof. unfold _splay. allocs0. Qed.
#[local] Hint Resolve allocs_splay : allocs.

Lemma allocs_descend fuel : ∀ p k, allocs 0 (descend fuel p k).
Proof.
  induction fuel as [|fuel IH]; intros p k; destruct p; simpl; allocs0.
Qed.
#[local] Hint Resolve allocs_descend : allocs.

Lemma allocs_locate fuel t k : allocs 0 (orderStatisticZeroBasedRanking fuel t k).
Proof. unfold orderStatisticZeroBasedRanking. allocs0. Qed.
#[local] Hint Resolve allocs_locate : allocs.

Lemma allocs_rightmost fuel : ∀ p, allocs 0 (rightmost fuel p).
Proof.
  induction fuel as [|fuel IH]; intros p; simpl; allocs0.
Qed.
#[local] Hint Resolve allocs_rightmost : allocs.

Lemma allocs_subtreeMaximum fuel t n : allocs 0 (subtreeMaximum fuel t n).
Proof. unfold subtreeMaximum. allocs0. Qed.
#[local] Hint Resolve allocs_subtreeMaximum : allocs.

Lemma allocs_nullOrEmpty t : allocs 0 (nullOrEmpty t).
Proof. unfold nullOrEmpty. allocs0. Qed.
#[local] Hint Resolve allocs_nullOrEmpty : allocs.

Lemma allocs_merge fuel t1 t2 : allocs 0 (merge fuel t1 t2).
Proof. unfold merge. allocs0. Qed.

Lemma allocs_split fuel t rank : allocs 2 (split fuel t rank).
Proof.
  unfold split, createTree.
  do 4 (apply allocs_bind0; [eauto with allocs|intros ?]).
  apply (allocs_bind 1 1); [apply allocs_mallocT|intros ?].
  do 3 (apply allocs_bind0; [eauto with allocs|intros ?]).
  apply (allocs_bind 1 0); [apply allocs_mallocT|intros ?].
  allocs0.
Qed.

Lemma allocs_eq {A} n n' (m : M A) : n = n' → allocs n m → allocs n' m.
Proof. by intros ->. Qed.

Lemma allocs_process fuel tree i j k :
  allocs (2 * splits i k) (process fuel tree i j k).
Proof.
  unfold process, splits.
  destruct (0 <? i), (0 <? k); cbv zeta.
  - apply (allocs_eq (2 + (2 + (0 + (2 + (0 + 0)))))); [simpl; lia|].
    apply allocs_bind; [apply allocs_split|intros ?].
    apply allocs_bind; [apply allocs_split|intros ?].
    apply allocs_bind; [apply allocs_merge|intros ?].
    apply allocs_bind; [apply allocs_split|intros ?].
    apply allocs_bind; [apply allocs_merge|intros ?]. apply allocs_merge.
  - apply (allocs_eq (2 + (2 + (0 + (0 + (0 + 0)))))); [simpl; lia|].
    apply allocs_bind; [apply allocs_split|intros ?].
    apply allocs_bind; [apply allocs_split|intros ?].
    apply allocs_bind; [apply allocs_merge|intros ?].
    apply allocs_bind; [apply allocs_ret|intros ?].
    apply allocs_bind; [apply allocs_merge|intros ?]. apply allocs_merge.
  - apply (allocs_eq (2 + (0 + (0 + (2 + (0 + 0)))))); [simpl; lia|].
    apply allocs_bind; [apply allocs_split|intros ?].
    apply allocs_bind; [apply allocs_ret|intros ?].
    apply allocs_bind; [apply allocs_merge|intros ?].
    apply allocs_bind; [apply allocs_split|intros ?].
    apply allocs_bind; [apply allocs_merge|intros ?]. apply allocs_merge.
  - apply (allocs_eq (2 + (0 + (0 + (0 + (0 + 0)))))); [simpl; lia|].
    apply allocs_bind; [apply allocs_split|intros ?].
    apply allocs_bind; [apply allocs_ret|intros ?].
    apply allocs_bind; [apply allocs_merge|intros ?].
    apply allocs_bind; [apply allocs_ret|intros ?].
    apply allocs_bind; [apply allocs_merge|intros ?]. apply allocs_merge.
Qed.

(** X16. Whenever [process] returns, for whatever tree and indices, it
    has neither allocated nor freed a node, it has freed no handle, and
    it has allocated two handles for each [split] it ran (one split
    always, one more when [i > 0], one more when [k > 0]): 2, 4 or 6
    handles, of which the caller is handed at most one. *)
Theorem process_allocation fuel tree i j k st r st' :
  process fuel tree i j k st = Ok (r, st') →
  dom (nodes st') = dom (nodes st)
  ∧ dom (trees st) ⊆ dom (trees st')
  ∧ size (dom (trees st')) = (size (dom (trees st)) + 2 * splits i k)%nat.
Proof. apply allocs_process. Qed.

Lemma process_allocation_witness :
  dom (nodes moved_hello) = dom (nodes (built "hello"))
  ∧ dom (trees (built "hello")) ⊆ dom (trees moved_hello)
  ∧ size (dom (trees moved_hello))
    = (size (dom (trees (built "hello"))) + 2 * splits 1 3)%nat.
Proof.
  apply (process_allocation 5 (Some 1%positive) 1 2 3 (built "hello") (Some 6%positive)).
  vm_compute. reflexivity.
Defined.

(** ** [main] *)

Lemma dom_trees_framed st st' F u :
  framed F [u] st st' → is_Some (trees st !! u) → is_Some (trees st' !! u) →
  dom (trees st') = dom (trees st).
Proof.
  intros [_ Hft] Hu Hu'. apply set_eq. intros x. rewrite !elem_of_dom.
  destruct (decide (x = u)) as [->|Hne]; [done|]. rewrite Hft; [done|]. by apply notin1.
Qed.

Lemma load_tight s : ∀ st tree t,
  wf st tree t → tight st t → tsize t + Z.of_nat (length s) < UINT_RANGE →
  ∃ st' t',
    load (Some tree) s st = Ok (tt, st')
    ∧ wf st' tree t'
    ∧ tight st' t'
    ∧ vals t' = vals t ++ s
    ∧ dom (trees st') = dom (trees st).
Proof.
  induction s as [|c s IH]; intros st tree t Hwf Htight Hsz.
  - exists st, t. by rewrite app_nil_r.
  - simpl in Hsz.
    destruct (insertSpecific_spec st tree t c Hwf ltac:(lia))
      as (st1 & a & Hrun & Hwf1 & _ & Hfr).
    assert (tight st1 (T t a c E)) as Htight1.
    { intros b Hb. simpl in Hb. destruct Hfr as [Hfn _]. rewrite Hfn.
      - apply Htight. set_solver.
      - set_solver. }
    assert (dom (trees st1) = dom (trees st)) as Hdom.
    { eapply dom_trees_framed; [done|..].
      - destruct Hwf as (-> & _). eauto.
      - destruct Hwf1 as (-> & _). eauto. }
    destruct (IH st1 tree (T t a c E) Hwf1 Htight1 ltac:(simpl; lia))
      as (st2 & t' & Hrun2 & Hwf2 & Htight2 & Hv & Hdom2).
    exists st2, t'. split_and!; [|done|done| |congruence].
    + simpl. run.
    + rewrite Hv. simpl. by rewrite <- app_assoc.
Qed.

Lemma run_ops_spec fuel ops : ∀ st tree t,
  wf st tree t → tight st t → Forall (valid_op (tsize t)) ops →
  (Z.to_nat (tsize t) ≤ fuel)%nat →
  ∃ st' tree' t',
    run_ops fuel (Some tree) ops st = Ok (Some tree', st')
    ∧ wf st' tree' t'
    ∧ tight st' t'
    ∧ tsize t' = tsize t
    ∧ vals t' = foldl move (vals t) ops
    ∧ size (dom (trees st')) = (size (dom (trees st)) + handles_of ops)%nat.
Proof.
  induction ops as [|[[i j] k] ops IH]; intros st tree t Hwf Htight Hops Hfuel.
  - exists st, tree, t. split_and!; try done.
  - inversion Hops as [|? ? (Hij & Hj & Hk) Hops']; subst. simpl in Hij, Hj, Hk.
    pose proof (tsize_length t) as Hlen.
    destruct (process_spec st tree t i j k fuel Hwf Hij ltac:(lia) Hk Hfuel)
      as (st1 & tree1 & t1 & Hrun & Hwf1 & Hel).
    assert (elems t1 ≡ₚ elems t) as Hp by (rewrite Hel; apply cut_paste_perm; lia).
    assert (tsize t1 = tsize t) as Hs1 by (rewrite !tsize_length; by rewrite Hp).
    destruct (allocs_process fuel (Some tree) i j k _ _ _ Hrun) as (Hdn & _ & Hsize).
    assert (tight st1 t1) as Htight1.
    { intros a Ha. apply not_elem_of_dom. rewrite Hdn. apply not_elem_of_dom.
      apply Htight. by rewrite !addrs_elems, <- Hp, <- addrs_elems. }
    rewrite <- Hs1 in Hops', Hfuel.
    destruct (IH st1 tree1 t1 Hwf1 Htight1 Hops' Hfuel)
      as (st2 & tree2 & t2 & Hrun2 & Hwf2 & Htight2 & Hs2 & Hv2 & Hsize2).
    exists st2, tree2, t2. split_and!; [|done|done|congruence| |].
    + simpl. by rewrite (bind_Ok _ _ _ _ _ Hrun).
    + rewrite Hv2. simpl. f_equal. unfold move. simpl.
      by rewrite !vals_elems, Hel, cut_paste_fmap.
    + rewrite Hsize2, Hsize. simpl. lia.
Qed.



(** ** The result buffer of [inOrder] *)

(** When more characters are due than [result] has cells, the loop ends
    up storing past it. *)
Lemma inOrder_loop_overflow fuel : ∀ st cap t stk out,
  srep (nodes st) t → stack_ok (nodes st) stk →
  (2 * length (vals t) + stack_cost stk < fuel)%nat →
  stack_fits cap stk → Z.of_nat (length stk + height t) ≤ cap →
  Z.of_nat (length out) ≤ S_MAX_LEN →
  S_MAX_LEN < Z.of_nat (length out + length (vals t) + length (stack_vals stk)) →
  inOrder_loop fuel cap (rootp t) (stack_ptrs stk) (Z.of_nat (length out)) out st = Crash.
Proof.
  induction fuel as [|fuel IH]; intros st cap t stk out Ht Hstk Hfuel Hfit Hcap Hout Hbuf;
    [lia|].
  destruct t as [|l a v r].
  - destruct stk as [|[[a v] r] stk].
    + simpl in Hbuf. lia.
    + inversion Hstk as [|? ? (n & Hn & Hv & Hr & Hsr) Hstk']; subst.
      destruct Hfit as (Hfit1 & Hfit).
      simpl in Hfuel, Hv, Hr, Hsr, Hfit1, Hbuf.
      rewrite length_app in Hbuf.
      cbn [inOrder_loop rootp stack_ptrs map fst].
      rewrite (bind_Ok _ _ _ _ _ (rdN_Ok _ _ _ _ Hn)). simpl.
      destruct (Z.of_nat (length out) <? S_MAX_LEN) eqn:Hlt; [|done].
      apply Z.ltb_lt in Hlt.
      rewrite (bind_Ok _ _ _ _ _ (rdN_Ok _ _ _ _ Hn)). simpl.
      rewrite wrap_small by (unfold UINT_RANGE, S_MAX_LEN in *; lia).
      replace (Z.of_nat (length out) + 1) with (Z.of_nat (length (Node.value n :: out)))
        by (simpl; lia).
      rewrite Hr. apply IH; [exact Hsr|exact Hstk'|lia|done|lia|simpl; lia|simpl; lia].
  - destruct Ht as ((par & Ha) & Hl & Hr). simpl in Hfuel, Hcap, Hbuf.
    rewrite !length_app in Hfuel, Hbuf. simpl in Hfuel, Hbuf.
    cbn [inOrder_loop rootp].
    assert (length (stack_ptrs stk) = length stk) as -> by apply length_map.
    assert ((Z.of_nat (length stk) <? cap) = true) as -> by lia.
    rewrite (bind_Ok _ _ _ _ _ (rdN_Ok _ _ _ _ Ha)). simpl.
    change (Some a :: stack_ptrs stk) with (stack_ptrs ((a, v, r) :: stk)).
    apply IH; [done| |simpl; lia| |simpl; lia|done|simpl; rewrite length_app; simpl; lia].
    + constructor; [|done]. eexists. split_and!; done.
    + split; [simpl; lia|done].
Qed.

Lemma Reads_inOrder_overflow st tree s fuel :
  Reads st tree s → S_MAX_LEN < Z.of_nat (length s) → (2 * length s < fuel)%nat →
  inOrder fuel (Some tree) st = Crash.
Proof.
  intros (t & Ht & Hrep & _ & <-) Hlen Hfuel. unfold inOrder.
  rewrite (bind_Ok _ _ _ _ _ (rdT_Ok _ _ _ _ Ht)). simpl.
  destruct t as [|l a v r]; [simpl in Hlen; unfold S_MAX_LEN in Hlen; lia|]. cbn [rootp].
  rewrite (bind_Ok _ _ _ _ _ (rdT_Ok _ _ _ _ Ht)). cbn [SplayTree.size].
  pose proof (inOrder_loop_overflow fuel st (tsize (T l a v r)) (T l a v r) [] []) as Hloop.
  cbn [rootp stack_ptrs map length Z.of_nat] in Hloop. apply Hloop.
  - exact Hrep.
  - constructor.
  - simpl in Hfuel |- *. lia.
  - done.
  - pose proof (height_le_size (T l a v r)) as Hh.
    pose proof (tsize_nonneg (T l a v r)). simpl length. lia.
  - unfold S_MAX_LEN. lia.
  - cbn [stack_vals length Nat.add]. rewrite Nat.add_0_r. done.
Qed.

(** X18. [inOrder] does not check the size of its result buffer.  For a
    text of more than [S_MAX_LEN] characters (and fewer than [2^32]),
    [inOrder] stores past the end of [result] on every tree whose child
    links and sizes read that text; and such trees exist: loading the
    text as [main] does gives one that satisfies all structural
    invariants. *)
Theorem inOrder_overflow s fuel :
  S_MAX_LEN < Z.of_nat (length s) → Z.of_nat (length s) < UINT_RANGE →
  (2 * length s < fuel)%nat →
  (∀ st tree, Reads st tree s → inOrder fuel (Some tree) st = Crash)
  ∧ (∃ tree st, build s empty_state = Ok (Some tree, st) ∧ Rope st tree s).
Proof.
  intros Hlong Hlen Hfuel. split.
  - intros st tree Hreads. by apply (Reads_inOrder_overflow st tree s).
  - destruct (build_spec s Hlen) as (st & tree & Hrun & Hrope). by exists tree, st.
Qed.

Lemma inOrder_overflow_witness :
  (∀ st tree,
     Reads st tree (repeat "a"%char (Z.to_nat 300002)) →
     inOrder (S (2 * length (repeat "a"%char (Z.to_nat 300002)))) (Some tree) st = Crash)
  ∧ (∃ tree st,
       build (repeat "a"%char (Z.to_nat 300002)) empty_state = Ok (Some tree, st)
       ∧ Rope st tree (repeat "a"%char (Z.to_nat 300002))).
Proof.
  apply (inOrder_overflow (repeat "a"%char (Z.to_nat 300002))
           (S (2 * length (repeat "a"%char (Z.to_nat 300002))))).
  - rewrite repeat_length. unfold S_MAX_LEN. lia.
  - rewrite repeat_length. unfold UINT_RANGE. lia.
  - lia.
Defined.

(** ** Handles that [merge] and [split] leave behind *)

(** In a well-formed tree only the root has a null parent pointer. *)
Lemma wf_parent_None st tree t a n :
  wf st tree t → a ∈ addrs t → nodes st !! a = Some n → Node.parent n = None →
  rootp t = Some a.
Proof.
  intros Hwf Ha Hn Hp. destruct (in_tree_plug t a Ha) as (c & A & v & B & ->).
  pose proof (wf_node _ _ _ _ _ _ _ Hwf) as Hn'. rewrite Hn in Hn'. injection Hn' as ->.
  simpl in Hp. by apply (wf_root_iff st tree).
Qed.

(** Two handles with the same root that are both well-formed own the
    same tree. *)
Lemma wf_same_root st u t u' t' :
  wf st u t → wf st u' t' → rootp t = rootp t' → t = t'.
Proof.
  intros (_ & Hrep & _) (_ & Hrep' & _) Hroot.
  apply (srep_inj (nodes st)); [by eapply rep_srep|by eapply rep_srep|done].
Qed.

(** X19. [merge] of two non-empty trees returns the first handle and
    never touches the second one: its record still names the old root
    and size of the second tree although that root has become an inner
    node of the merged tree, so from then on the second handle does not
    satisfy the structural invariants for any tree. *)
Theorem merge_second_handle st u1 t1 u2 t2 fuel :
  wf st u1 t1 → wf st u2 t2 → t1 ≠ E → t2 ≠ E →
  sep (addrs t1) (addrs t2) → tsize t1 + tsize t2 < UINT_RANGE →
  (height t1 ≤ fuel)%nat →
  ∃ st',
    merge fuel (Some u1) (Some u2) st = Ok (Some u1, st')
    ∧ trees st' !! u2 = Some (SplayTree.mk (rootp t2) (tsize t2))
    ∧ ¬ ∃ t0, wf st' u2 t0.
Proof.
  intros Hwf1 Hwf2 Hne1 Hne2 Hsep Hsz Hfuel.
  destruct (merge_spec st (Some u1) t1 (Some u2) t2 fuel Hwf1 Hwf2 Hsep Hsz Hfuel)
    as (st' & p & t' & Hrun & Hown & Hel & Hp & [_ Hft]).
  pose proof (tsize_pos t1 Hne1) as Hpos1. pose proof (tsize_pos t2 Hne2) as Hpos2.
  assert (tsize t' = tsize t1 + tsize t2) as Hst.
  { rewrite !tsize_length, Hel, length_app. lia. }
  assert (u2 ≠ u1) as Hu.
  { intros ->. destruct Hwf1 as (Ht1 & _). destruct Hwf2 as (Ht2 & _).
    rewrite Ht1 in Ht2. injection Ht2 as Hr _.
    destruct t1 as [|l1 a1 v1 r1]; [done|]. simpl in Hr.
    symmetry in Hr. apply rootp_addrs in Hr. apply (Hsep a1); [|done].
    simpl. set_solver. }
  assert (trees st' !! u2 = Some (SplayTree.mk (rootp t2) (tsize t2))) as Hrec.
  { rewrite Hft; [by destruct Hwf2|]. simpl. by apply notin1. }
  assert (p = Some u1) as ->.
  { destruct Hp as [->| ->]; [done|]. simpl in Hown. destruct Hown as (Ht' & _).
    rewrite Hrec in Ht'. injection Ht' as _ Hs. lia. }
  simpl in Hown. exists st'. split_and!; [done..|].
  intros (t0 & Hwf0). pose proof Hwf0 as (Ht0 & Hrep0 & _).
  rewrite Hrec in Ht0. injection Ht0 as Hr0 Hs0.
  destruct t2 as [|l2 a2 v2 r2]; [done|]. destruct t0 as [|l0 a0 v0 r0]; [done|].
  simpl in Hr0. injection Hr0 as ->. destruct Hrep0 as (Ha0 & _).
  assert (a0 ∈ addrs t') as Hin.
  { rewrite addrs_elems, Hel, fmap_app, <- !addrs_elems. simpl. set_solver. }
  pose proof (wf_parent_None st' u1 t' a0 _ Hown Hin Ha0 eq_refl) as Hroot.
  assert (t' = T l0 a0 v0 r0) as Heq by (by eapply wf_same_root).
  rewrite Heq in Hst. lia.
Qed.

Lemma merge_second_handle_witness :
  ∃ st',
    merge 5 (Some 2%positive) (Some 3%positive) split_hello = Ok (Some 2%positive, st')
    ∧ trees st' !! 3%positive
      = Some (SplayTree.mk (rootp (read_shape 5 (nodes split_hello) (Some 5%positive)))
                (tsize (read_shape 5 (nodes split_hello) (Some 5%positive))))
    ∧ ¬ ∃ t0, wf st' 3%positive t0.
Proof.
  apply (merge_second_handle split_hello 2%positive
           (read_shape 5 (nodes split_hello) (Some 2%positive)) 3%positive
           (read_shape 5 (nodes split_hello) (Some 5%positive)) 5).
  - wf_compute.
  - wf_compute.
  - vm_compute. discriminate.
  - vm_compute. discriminate.
  - apply (bool_decide_unpack _). vm_compute. exact I.
  - vm_compute. reflexivity.
  - vm_compute. lia.
Defined.

(** [split], with what it leaves in the handle it was given. *)
Lemma split_source st tree t rank fuel :
  wf st tree t → t ≠ E → 0 ≤ rank < UINT_RANGE → (height t ≤ fuel)%nat →
  ∃ st' t1 t2 L x v R,
    split fuel (Some tree) rank st = Ok ((Some t1, Some t2), st')
    ∧ wf st' t1 (T L x v E)
    ∧ wf st' t2 R
    ∧ elems t = elems L ++ (x, v) :: elems R
    ∧ tsize L = Z.min rank (tsize t - 1)
    ∧ trees st !! t1 = None ∧ trees st !! t2 = None ∧ t1 ≠ t2
    ∧ framed (addrs t) [tree; t1; t2] st st'
    ∧ t1 ≠ tree
    ∧ trees st' !! tree = Some (SplayTree.mk (Some x) (tsize t)).
Proof.
  intros Hwf Hne Hk Hfuel.
  destruct (locate_spec st tree t rank fuel Hwf Hne Hk Hfuel)
    as (st1 & L & x & v & R & Hrun & Hwf1 & Hel & Hpos & Hfr).
  destruct st1 as [h1 ts1].
  pose proof Hwf1 as (Ht1 & Hrep1 & Hnd1 & Hsz1).
  simpl in Ht1, Hrep1, Hnd1, Hsz1. destruct Hrep1 as (Hx & HL & HR).
  pose proof (tsize_nonneg L). pose proof (tsize_nonneg R).
  assert (addrs t = addrs L ++ x :: addrs R) as Hat.
  { rewrite (addrs_of_elems t (T L x v R)); done. }
  destruct Hfr as [Hfn Hft]. simpl in Hfn, Hft.
  unfold split, updateSize, createTree.
  assert (NoDup (addrs L ++ [x])) as HndL by (by apply NoDup_split_at in Hnd1 as (? & _)).
  set (a1 := fresh_addr ts1).
  assert (a1 ≠ tree) as Ha1 by (apply fresh_addr_ne; eauto).
  assert (ts1 !! a1 = None) as Ha1' by apply fresh_addr_None.
  assert (trees st !! a1 = None) as Ha1''.
  { rewrite <- Hft; [done|]. by apply notin1. }
  destruct R as [|Rl r vr Rr]; simpl in * |-; nd_norm Hnd1.
  - eexists _, _, _, L, x, v, E. split; [run3|].
    rewrite !insert_insert_eq. fold a1.
    match goal with |- context [fresh_addr ?m] => set (m1 := m) end.
    set (a2 := fresh_addr m1).
    assert (a2 ≠ a1) as Ha2
      by (apply fresh_addr_ne; unfold m1; rewrite lookup_insert_eq; eauto).
    assert (a2 ≠ tree) as Ha2'.
    { apply fresh_addr_ne. unfold m1. rewrite lookup_insert_ne by done. eauto. }
    assert (ts1 !! a2 = None) as Ha2''.
    { assert (m1 !! a2 = None) as Hm by apply fresh_addr_None.
      unfold m1 in Hm. by rewrite lookup_insert_ne in Hm. }
    split_and!; [| |done|done|done| |done| |done|].
    + apply wf_intro; cbn [nodes trees].
      * unfold m1. lk. node_eq.
      * simpl. split_and!; heap_goal.
      * done.
      * simpl. lia.
    + apply wf_intro; cbn [nodes trees]; [by lk|done|constructor|done].
    + rewrite <- Hft; [done|]. by apply notin1.
    + split; cbn [nodes trees].
      * intros a Ha. rewrite <- Hfn by done. rewrite Hat in Ha. nd_norm Ha. by lk.
      * tframe_tac. unfold m1. lk. apply Hft. by apply notin1.
    + cbn [trees]. unfold m1. lk. rewrite Ht1. simpl. do 2 f_equal.
      rewrite !tsize_length, Hel, !length_app. simpl. rewrite ?length_app. simpl. lia.
  - destruct HR as (Hr & HRl & HRr).
    eexists _, _, _, L, x, v, (T Rl r vr Rr). split; [run3|].
    rewrite !insert_insert_eq. fold a1.
    match goal with |- context [fresh_addr ?m] => set (m1 := m) end.
    set (a2 := fresh_addr m1).
    assert (a2 ≠ a1) as Ha2
      by (apply fresh_addr_ne; unfold m1; rewrite lookup_insert_eq; eauto).
    assert (a2 ≠ tree) as Ha2'.
    { apply fresh_addr_ne. unfold m1. rewrite lookup_insert_ne by done. eauto. }
    assert (ts1 !! a2 = None) as Ha2''.
    { assert (m1 !! a2 = None) as Hm by apply fresh_addr_None.
      unfold m1 in Hm. by rewrite lookup_insert_ne in Hm. }
    split_and!; [| |done|done|done| |done| |done|].
    + apply wf_intro; cbn [nodes trees].
      * unfold m1. lk. node_eq.
      * simpl. split_and!; heap_goal.
      * done.
      * simpl. lia.
    + apply wf_intro; cbn [nodes trees].
      * lk. node_eq.
      * simpl. split_and!; heap_goal.
      * simpl. apply NoDup_app_sep. split_and!; [done| |by apply NoDup_cons].
        by apply sep_cons_r.
      * simpl. lia.
    + rewrite <- Hft; [done|]. by apply notin1.
    + split; cbn [nodes trees].
      * intros a Ha. rewrite <- Hfn by done. rewrite Hat in Ha. simpl in Ha.
        nd_norm Ha. by lk.
      * tframe_tac. unfold m1. lk. apply Hft. by apply notin1.
    + cbn [trees]. unfold m1. lk. rewrite Ht1. simpl. do 2 f_equal.
      rewrite !tsize_length, Hel, !length_app. simpl. rewrite ?length_app. simpl. lia.
Qed.

(** X20. [split] does not consume the handle it is given: afterwards
    that handle and the new left handle name the same root, and the old
    handle still caches the size of the whole tree.  Unless the right
    part is empty, the old handle therefore no longer satisfies the
    structural invariants for any tree. *)
Theorem split_source_handle st tree t rank fuel :
  wf st tree t → 0 ≤ rank < tsize t - 1 → (height t ≤ fuel)%nat →
  ∃ st' tree1 tree2 x,
    split fuel (Some tree) rank st = Ok ((Some tree1, Some tree2), st')
    ∧ tree1 ≠ tree
    ∧ SplayTree.root <$> trees st' !! tree1 = Some (Some x)
    ∧ trees st' !! tree = Some (SplayTree.mk (Some x) (tsize t))
    ∧ ¬ ∃ t0, wf st' tree t0.
Proof.
  intros Hwf Hrank Hfuel. pose proof Hwf as (_ & _ & _ & Hsz).
  assert (t ≠ E) as Hne by (intros ->; simpl in *; lia).
  destruct (split_source st tree t rank fuel Hwf Hne ltac:(lia) Hfuel)
    as (st' & t1 & t2 & L & x & v & R & Hrun & Hwf1 & _ & Hel & Hpos & _ & _ & _ & _
        & Hne1 & Hrec).
  rewrite Z.min_l in Hpos by lia.
  exists st', t1, t2, x. split_and!; [done|done| |done|].
  - destruct Hwf1 as (-> & _). done.
  - intros (t0 & Hwf0). pose proof Hwf0 as (Ht0 & _).
    rewrite Hrec in Ht0. injection Ht0 as Hr0 Hs0.
    assert (T L x v E = t0) as <- by (by eapply wf_same_root).
    simpl in Hs0. lia.
Qed.

Lemma split_source_handle_witness :
  ∃ st' tree1 tree2 x,
    split 5 (Some 1%positive) 1 (built "hello") = Ok ((Some tree1, Some tree2), st')
    ∧ tree1 ≠ 1%positive
    ∧ SplayTree.root <$> trees st' !! tree1 = Some (Some x)
    ∧ trees st' !! 1%positive = Some (SplayTree.mk (Some x) (tsize (chain "hello")))
    ∧ ¬ ∃ t0, wf st' 1%positive t0.
Proof.
  apply (split_source_handle (built "hello") 1%positive (chain "hello") 1 5).
  - wf_compute.
  - unfold chain. simpl. lia.
  - vm_compute. lia.
Defined.

(** ** [process] on arbitrary indices *)

(** [split] at any rank, in a forest: a rank at or beyond the last
    position leaves the right tree empty, which is what [take] and
    [drop] give for a length that is too large. *)
Lemma split_forest_any st tree t l rank fuel :
  forest st ((Some tree, t) :: l) → t ≠ E → 0 ≤ rank < UINT_RANGE →
  (Z.to_nat (f_size ((Some tree, t) :: l)) ≤ fuel)%nat →
  ∃ st' t1 t2 T1 T2,
    split fuel (Some tree) rank st = Ok ((Some t1, Some t2), st')
    ∧ forest st' ((Some t1, T1) :: (Some t2, T2) :: l)
    ∧ elems T1 = take (S (Z.to_nat rank)) (elems t)
    ∧ elems T2 = drop (S (Z.to_nat rank)) (elems t)
    ∧ f_size ((Some t1, T1) :: (Some t2, T2) :: l) = f_size ((Some tree, t) :: l).
Proof.
  intros (Hall & Hna & Hnh & Hsz) Hne Hrank Hfuel.
  inversion Hall as [|? ? Hwf Hl]; subst. simpl in Hwf, Hna, Hnh, Hsz, Hfuel.
  pose proof (f_size_nonneg l). pose proof (tsize_nonneg t).
  destruct (split_spec st tree t rank fuel Hwf Hne Hrank
              ltac:(apply height_fuel; lia))
    as (st' & t1 & t2 & L & x & v & R & Hrun & Hwf1 & Hwf2 & Hel & Hpos & Hn1 & Hn2
        & Hne12 & Hfr).
  assert (addrs t = addrs (T L x v E) ++ addrs R) as Hat.
  { rewrite (addrs_of_elems t (T L x v R)) by done. simpl. by rewrite <- app_assoc. }
  assert (tsize t = tsize L + tsize R + 1) as Hts.
  { rewrite !tsize_length, Hel, length_app. simpl. lia. }
  assert (take (S (Z.to_nat rank)) (elems t) = elems L ++ [(x, v)]
          ∧ drop (S (Z.to_nat rank)) (elems t) = elems R) as [Htake Hdrop].
  { destruct (Z.lt_ge_cases rank (tsize t)) as [Hlt|Hge].
    - rewrite Z.min_l in Hpos by lia. rewrite Hel. apply take_drop_at.
      rewrite tsize_length in Hpos. lia.
    - rewrite Z.min_r in Hpos by lia.
      assert (R = E) as ->.
      { destruct (shape_E_dec R) as [|HR]; [done|]. pose proof (tsize_pos R HR). lia. }
      rewrite tsize_length in Hts. simpl in Hts.
      rewrite take_ge, drop_ge by lia. by rewrite Hel. }
  exists st', t1, t2, (T L x v E), R. split_and!; [done| | | |].
  - split_and!.
    + constructor; [done|]. constructor; [done|].
      eapply forest_framed; [done..| |].
      * intros u Hu. pose proof (forest_handle _ _ _ Hl Hu) as [s Hs].
        apply NoDup_cons in Hnh as [Hnt _].
        rewrite !not_elem_of_cons. split_and!; [|congruence..|apply not_elem_of_nil].
        intros ->. done.
      * apply NoDup_app_sep in Hna as (_ & Hs & _). intros a Ha Ha'. by apply (Hs a).
    + cbn [f_addrs fst snd]. rewrite app_assoc, <- Hat. done.
    + cbn [f_handles handles fst snd]. simpl.
      apply NoDup_cons in Hnh as [_ Hnh].
      assert (∀ u, trees st !! u = None → u ∉ f_handles l) as Hfresh.
      { intros u Hu Hin. destruct (forest_handle _ _ _ Hl Hin) as [s Hs]. congruence. }
      apply NoDup_cons. split; [|apply NoDup_cons; split; [|done]].
      * apply not_elem_of_cons. split; [done|]. by apply Hfresh.
      * by apply Hfresh.
    + simpl. lia.
  - by rewrite Htake.
  - by rewrite Hdrop.
  - simpl. lia.
Qed.

(** A handle that owns the empty tree cannot be split. *)
Lemma split_own_empty st p rank fuel : own st p E → split fuel p rank st = Crash.
Proof.
  intros Hown. unfold split. destruct p as [u|].
  - by rewrite (bind_Ok _ _ _ _ _ (locate_empty st u rank fuel Hown)).
  - done.
Qed.

Lemma process_text_in_range {A} (s : list A) i j k :
  (i ≤ j)%nat → process_text s i j k = cut_paste s i j k.
Proof.
  intros Hij. unfold process_text, cut_paste.
  rewrite take_take, Nat.min_l by lia. rewrite take_drop_commute.
  by replace (i + (S j - i))%nat with (S j) by lia.
Qed.

Lemma process_text_fmap {A B} (f : A → B) (s : list A) i j k :
  f <$> process_text s i j k = process_text (f <$> s) i j k.
Proof.
  unfold process_text.
  repeat first [rewrite fmap_app | rewrite fmap_take | rewrite fmap_drop]. done.
Qed.

(** X21. [process] for arbitrary unsigned indices, on a non-empty tree
    satisfying the structural invariants.  It fails in exactly one case:
    [i = 0], [j >= size-1] and [k > 0], where the whole text is cut out
    and the empty remainder is split, which dereferences NULL.  In every
    other case it returns a tree satisfying the structural invariants
    whose text is given by [process_text]: indices beyond the end act as
    the last position, and with [i > j] nothing is cut.  (Within the
    stated constraints [process_text] is the cut and paste of the
    specification, by [process_text_in_range].) *)
Theorem process_any_indices st tree t i j k fuel :
  wf st tree t → t ≠ E →
  0 ≤ i < UINT_RANGE → 0 ≤ j < UINT_RANGE → 0 ≤ k < UINT_RANGE →
  (Z.to_nat (tsize t) ≤ fuel)%nat →
  (nothing_left (tsize t) i j k → process fuel (Some tree) i j k st = Crash)
  ∧ (¬ nothing_left (tsize t) i j k →
     ∃ st' tree',
       process fuel (Some tree) i j k st = Ok (Some tree', st')
       ∧ Rope st' tree'
           (process_text (vals t) (Z.to_nat i) (Z.to_nat j) (Z.to_nat k))).
Proof.
  intros Hwf Hne Hi Hj Hk Hfuel.
  pose proof Hwf as (_ & _ & _ & Hsz).
  pose proof (tsize_length t) as Hlen. pose proof (tsize_pos t Hne) as Hpos.
  set (es := elems t) in *.
  set (i' := Z.to_nat i). set (j' := Z.to_nat j). set (k' := Z.to_nat k).
  (* first split *)
  pose proof (wf_forest _ _ _ Hwf) as Hf0.
  destruct (split_forest_any st tree t [] j fuel Hf0 Hne Hj ltac:(simpl; lia))
    as (st1 & m1 & r1 & M1 & R1 & Hrun1 & Hf1 & HM1 & HR1 & Hs1).
  fold es j' in HM1, HR1. simpl in Hs1.
  assert (0 < length (elems M1))%nat as HlenM by (rewrite HM1, length_take; lia).
  assert (M1 ≠ E) as HneM by (intros ->; simpl in *; lia).
  (* second split, or none *)
  assert (∃ st2 pl Lt pm Mt,
    (if 0 <? i then split fuel (Some m1) (wrap (i - 1)) else ret (None, Some m1)) st1
      = Ok ((pl, pm), st2)
    ∧ forest st2 [(pl, Lt); (pm, Mt); (Some r1, R1)]
    ∧ elems Lt = take i' (elems M1)
    ∧ elems Mt = drop i' (elems M1)
    ∧ tsize Lt + tsize Mt + tsize R1 = tsize t)
    as (st2 & pl & Lt & pm & Mt & Hrun2 & Hf2 & HLt & HMt & Hs2).
  { destruct (0 <? i) eqn:Hi0.
    - apply Z.ltb_lt in Hi0. rewrite wrap_small by lia.
      destruct (split_forest_any st1 m1 M1 [(Some r1, R1)] (i - 1) fuel Hf1 HneM
                  ltac:(lia) ltac:(simpl in *; lia))
        as (st2 & l2 & m2 & L2 & M2 & Hrun2 & Hf2 & HL2 & HM2 & Hs2).
      replace (S (Z.to_nat (i - 1))) with i' in HL2, HM2 by lia.
      exists st2, (Some l2), L2, (Some m2), M2. split_and!; [done..|].
      simpl in *. lia.
    - apply Z.ltb_ge in Hi0. assert (i = 0) as Hi00 by lia.
      exists st1, None, E, (Some m1), M1. split_and!; [done|by apply forest_null|..].
      + unfold i'. by rewrite Hi00.
      + unfold i'. by rewrite Hi00.
      + simpl in *. lia. }
  (* first merge *)
  apply forest_swap23 in Hf2.
  destruct (merge_forest st2 pl Lt (Some r1) R1 [(pm, Mt)] fuel Hf2 ltac:(simpl; lia))
    as (st3 & p3 & T3 & Hrun3 & Hf3 & HT3 & Hs3).
  rewrite HLt, HR1, HM1 in HT3. rewrite HM1 in HMt. simpl in Hs3.
  set (rest := take i' (take (S j') es) ++ drop (S j') es) in *.
  assert (rest = [] ↔ i = 0 ∧ tsize t - 1 ≤ j) as Hempty.
  { unfold rest. split.
    - intros Hnil. apply length_zero_iff_nil in Hnil.
      rewrite length_app, !length_take, length_drop in Hnil. unfold i', j' in Hnil. lia.
    - intros [Hi0 Hj0]. apply length_zero_iff_nil.
      rewrite length_app, !length_take, length_drop. unfold i', j'. lia. }
  assert (process fuel (Some tree) i j k st
          = (lr <- (if 0 <? k then split fuel p3 (wrap (k - 1)) else ret (None, p3)) ;;
             t0 <- merge fuel lr.1 pm ;; merge fuel t0 lr.2) st3) as Hprocess.
  { unfold process.
    rewrite (bind_Ok _ _ _ _ _ Hrun1). simpl.
    rewrite (bind_Ok _ _ _ _ _ Hrun2). simpl.
    by rewrite (bind_Ok _ _ _ _ _ Hrun3). }
  rewrite Hprocess. split.
  { (* nothing is left to split *)
    intros (Hi0 & Hj0 & Hk0).
    assert (T3 = E) as -> by (apply elems_nil; rewrite HT3; by apply Hempty).
    assert ((0 <? k) = true) as -> by lia.
    apply bind_Crash, split_own_empty. by apply (forest_head _ _ _ _ Hf3). }
  intros Hleft.
  (* third split, or none *)
  assert (∃ st4 pl4 L4 pr4 R4,
    (if 0 <? k then split fuel p3 (wrap (k - 1)) else ret (None, p3)) st3
      = Ok ((pl4, pr4), st4)
    ∧ forest st4 [(pl4, L4); (pr4, R4); (pm, Mt)]
    ∧ elems L4 = take k' rest
    ∧ elems R4 = drop k' rest
    ∧ tsize L4 + tsize R4 + tsize Mt = tsize t)
    as (st4 & pl4 & L4 & pr4 & R4 & Hrun4 & Hf4 & HL4 & HR4 & Hs4).
  { destruct (0 <? k) eqn:Hk0.
    - apply Z.ltb_lt in Hk0. rewrite wrap_small by lia.
      assert (T3 ≠ E) as HneT.
      { intros ->. simpl in HT3. symmetry in HT3. apply Hempty in HT3.
        apply Hleft. unfold nothing_left. lia. }
      destruct (own_nonempty _ _ _ (forest_head _ _ _ _ Hf3) HneT) as (u3 & -> & _).
      destruct (split_forest_any st3 u3 T3 [(pm, Mt)] (k - 1) fuel Hf3 HneT
                  ltac:(lia) ltac:(simpl in *; lia))
        as (st4 & l4 & r4 & L4 & R4 & Hrun4 & Hf4 & HL4 & HR4 & Hs4).
      replace (S (Z.to_nat (k - 1))) with k' in HL4, HR4 by lia.
      exists st4, (Some l4), L4, (Some r4), R4. split_and!; [done|done|..].
      + by rewrite HL4, HT3.
      + by rewrite HR4, HT3.
      + simpl in *. lia.
    - apply Z.ltb_ge in Hk0. assert (k = 0) as Hk00 by lia.
      exists st3, None, E, p3, T3. split_and!; [done|by apply forest_null|..].
      + unfold k'. by rewrite Hk00.
      + unfold k'. by rewrite Hk00, HT3.
      + simpl in *. lia. }
  (* the two final merges *)
  apply forest_swap23 in Hf4.
  destruct (merge_forest st4 pl4 L4 pm Mt [(pr4, R4)] fuel Hf4 ltac:(simpl; lia))
    as (st5 & p5 & T5 & Hrun5 & Hf5 & HT5 & Hs5).
  destruct (merge_forest st5 p5 T5 pr4 R4 [] fuel Hf5 ltac:(simpl in *; lia))
    as (st6 & p6 & T6 & Hrun6 & Hf6 & HT6 & Hs6).
  assert (elems T6 = process_text es i' j' k') as Hfinal.
  { unfold process_text. fold rest. by rewrite HT6, HT5, HL4, HMt, HR4, <- app_assoc. }
  assert (T6 ≠ E) as Hne6.
  { intros ->. simpl in Hs6, Hs5. pose proof (tsize_nonneg L4). pose proof (tsize_nonneg R4).
    pose proof (tsize_nonneg Mt). pose proof (tsize_nonneg T5). simpl in *. lia. }
  destruct (own_nonempty _ _ _ (forest_head _ _ _ _ Hf6) Hne6) as (u6 & -> & Hwf6).
  exists st6, u6. split.
  - rewrite (bind_Ok _ _ _ _ _ Hrun4). simpl.
    by rewrite (bind_Ok _ _ _ _ _ Hrun5).
  - exists T6. split; [done|]. by rewrite !vals_elems, Hfinal, process_text_fmap.
Qed.

Lemma process_any_indices_witness :
  ∃ st' tree',
    process 5 (Some 1%positive) 3 1 9 (built "hello") = Ok (Some tree', st')
    ∧ Rope st' tree'
        (process_text (vals (chain "hello")) (Z.to_nat 3) (Z.to_nat 1) (Z.to_nat 9)).
Proof.
  refine (proj2 (process_any_indices (built "hello") 1%positive (chain "hello") 3 1 9 5
                   _ _ _ _ _ _) _).
  - wf_compute.
  - unfold chain. simpl. discriminate.
  - unfold UINT_RANGE. lia.
  - unfold UINT_RANGE. lia.
  - unfold UINT_RANGE. lia.
  - vm_compute. lia.
  - unfold nothing_left. lia.
Defined.
